(** * Collation core of go.text/collate: a shallow embedding of collate.go

    The development follows src/p/go.text/collate/collate.go: the element
    iterator ([iter], [next], [doNorm]), the level walkers, the comparator
    ([compareLevel], [compare], [Compare]), variable processing
    ([processWeights]) and the key encoder ([appendPrimary],
    [keyFromElems], [Key]).

    Conventions.  A Go [int] is a [Z]; a byte is a [Z] and every [uint8(_)]
    conversion is written out as [_ mod 256]; a slice is a [list] and an
    index expression that Go would reject at run time yields [Panic].
    Loops whose trip count is not bounded by a slice length take a [fuel]
    argument and yield [OutOfFuel] when it is exhausted. *)

From Stdlib Require Import ZArith List Bool Lia Permutation.
Import ListNotations.
Local Open Scope Z_scope.

Set Implicit Arguments.

(** ** Outcomes of a run *)

Inductive result (A : Type) : Type :=
| Ok (a : A)
| Panic
| OutOfFuel.

Arguments Ok {A} a.
Arguments Panic {A}.
Arguments OutOfFuel {A}.

Definition bind {A B : Type} (m : result A) (k : A -> result B) : result B :=
  match m with
  | Ok a => k a
  | Panic => Panic
  | OutOfFuel => OutOfFuel
  end.

Notation "x <- m ;; k" := (bind m (fun x => k))
  (at level 61, m at next level, right associativity).
Notation "' p <- m ;; k" := (bind m (fun x => match x with p => k end))
  (at level 61, p pattern, m at next level, right associativity).

(** ** Slices *)

Definition len {A : Type} (l : list A) : Z := Z.of_nat (length l).

(** [l[i]]: panics outside [0 <= i < len l]. *)
Definition index {A : Type} (l : list A) (i : Z) : result A :=
  if i <? 0 then Panic
  else match nth_error l (Z.to_nat i) with
       | Some x => Ok x
       | None => Panic
       end.

(** [l[lo:hi]] on a slice whose capacity is taken to be its length. *)
Definition slice {A : Type} (l : list A) (lo hi : Z) : result (list A) :=
  if (0 <=? lo) && (lo <=? hi) && (hi <=? len l)
  then Ok (firstn (Z.to_nat (hi - lo)) (skipn (Z.to_nat lo) l))
  else Panic.

(** [l[lo:]]. *)
Definition slice_from {A : Type} (l : list A) (lo : Z) : result (list A) :=
  slice l lo (len l).

(** The builtin [copy(dst[p:], src)]: overwrites [dst] from position [p]
    with as many elements of [src] as fit. *)
Definition copy_at {A : Type} (dst : list A) (p : nat) (src : list A) : list A :=
  let m := Nat.min (length dst - p) (length src) in
  firstn p dst ++ firstn m src ++ skipn (p + m) dst.

Definition uint8 (z : Z) : Z := z mod 256.

(** [bytes.Compare] of the Go standard library: lexicographic order on
    byte strings, as -1, 0 or +1. *)
Fixpoint bytes_Compare (a b : list Z) : Z :=
  match a, b with
  | [], [] => 0
  | [], _ :: _ => -1
  | _ :: _, [] => 1
  | x :: a', y :: b' =>
      if x <? y then -1 else if y <? x then 1 else bytes_Compare a' b'
  end.

(** ** Package colltab (imported by collate.go, not part of the sources) *)

Module colltab.

(** Modelled from the spec: [colltab.Level] is missing from the sources;
    section 3 lists the strengths in increasing order. *)
Inductive Level : Type := Primary | Secondary | Tertiary | Quaternary | Identity.

Definition rank (l : Level) : Z :=
  match l with
  | Primary => 0 | Secondary => 1 | Tertiary => 2 | Quaternary => 3 | Identity => 4
  end.

Definition leb (a b : Level) : bool := rank a <=? rank b.

Definition eqb (a b : Level) : bool := rank a =? rank b.

End colltab.

(** Modelled from the spec: [colltab.Elem] with its accessors, [colltab.Ignore],
    [colltab.MakeQuaternary] and [colltab.MaxQuaternary] are missing from the
    sources.  Section 3 treats the element as opaque and fixes only the
    accessor contract, so the accessors are the operations of a class.  Its
    laws are those of section 3 and 4.5: primary weights and combining
    classes are unsigned, [Ignore] and a quaternary-only element have no
    primary weight. *)
Class ElemOps (Elem : Type) : Type := {
  Primary : Elem -> Z;
  Secondary : Elem -> Z;
  Tertiary : Elem -> Z;
  Quaternary : Elem -> Z;
  CCC : Elem -> Z;
  Ignore : Elem;
  MakeQuaternary : Z -> Elem;
  MaxQuaternary : Z;
  Primary_nonneg : forall e, 0 <= Primary e;
  CCC_nonneg : forall e, 0 <= CCC e;
  Primary_Ignore : Primary Ignore = 0;
  Primary_MakeQuaternary : forall v, Primary (MakeQuaternary v) = 0
}.

(** Modelled from the spec: the interface [colltab.Weigher] is missing from
    the sources.  Section 3 gives it [top] and [append_next], which
    receives the element buffer and the remaining input and returns the new
    buffer and the number of bytes consumed; collate.go calls them as
    [Top] and [AppendNext] ([AppendNextString] is the twin on strings). *)
Record Weigher (Elem : Type) : Type := mkWeigher {
  Top : Z;
  AppendNext : list Elem -> list Z -> list Elem * Z
}.

(** ** Collator options *)

Inductive AlternateHandling : Type :=
| AltNonIgnorable
| AltBlanked
| AltShifted
| AltShiftTrimmed.

Definition AlternateHandling_rank (a : AlternateHandling) : Z :=
  match a with
  | AltNonIgnorable => 0 | AltBlanked => 1 | AltShifted => 2 | AltShiftTrimmed => 3
  end.

Definition Alternate_eqb (a b : AlternateHandling) : bool :=
  AlternateHandling_rank a =? AlternateHandling_rank b.

(** [type Option int] with its [1 << iota] constants. *)
Module Opt.
Definition Numeric : Z := 1.
Definition IgnoreCase : Z := 2.
Definition IgnoreDiacritics : Z := 4.
Definition IgnoreWidth : Z := 8.
Definition UpperFirst : Z := 16.
Definition LowerFirst : Z := 32.
Definition Force : Z := 64.
Definition Loose : Z := Z.lor (Z.lor IgnoreDiacritics IgnoreWidth) IgnoreCase.
End Opt.

Section Collate.

Context {Elem : Type} {EO : ElemOps Elem}.

(** ** The iterator *)

(** [type iter struct]: [bytes] is the remaining input, [ce] the element
    buffer.  The backing array [wa] is not visible through [ce]; the [str]
    input of the string entry points mirrors [bytes]. *)
Record iter : Type := mkIter {
  bytes : list Z;
  ce : list Elem;
  pce : Z;
  nce : Z;
  prevCCC : Z;
  pStarter : Z;
  it : Weigher Elem
}.

Definition with_bytes (i : iter) (s : list Z) : iter :=
  mkIter s (ce i) (pce i) (nce i) (prevCCC i) (pStarter i) (it i).
Definition with_ce (i : iter) (l : list Elem) : iter :=
  mkIter (bytes i) l (pce i) (nce i) (prevCCC i) (pStarter i) (it i).
Definition with_pce (i : iter) (p : Z) : iter :=
  mkIter (bytes i) (ce i) p (nce i) (prevCCC i) (pStarter i) (it i).
Definition with_nce (i : iter) (n : Z) : iter :=
  mkIter (bytes i) (ce i) (pce i) n (prevCCC i) (pStarter i) (it i).
Definition with_prevCCC (i : iter) (c : Z) : iter :=
  mkIter (bytes i) (ce i) (pce i) (nce i) c (pStarter i) (it i).
Definition with_pStarter (i : iter) (p : Z) : iter :=
  mkIter (bytes i) (ce i) (pce i) (nce i) (prevCCC i) p (it i).

(** [iter.init]: the weigher of the collator and an empty buffer. *)
Definition iter_init (w : Weigher Elem) : iter :=
  mkIter [] [] 0 0 0 0 w.

Definition reset (i : iter) : iter :=
  with_pStarter (with_prevCCC (with_nce (with_ce i []) 0) 0) 0.

Definition setInput (i : iter) (s : list Z) : iter :=
  reset (with_bytes i s).

Definition done (i : iter) : bool :=
  match bytes i with [] => true | _ :: _ => false end.

Definition tail (i : iter) (n : Z) : result iter :=
  s <- slice_from (bytes i) n ;; Ok (with_bytes i s).

Definition appendNext (i : iter) : Z * iter :=
  let '(l, sz) := AppendNext (it i) (ce i) (bytes i) in
  (sz, with_ce i l).

Definition maxCombiningCharacters : Z := 30.

(** The loop [for p--; p > i.pStarter && ccc < i.ce[p-1].CCC(); p--] of
    [doNorm], entered after the initial [p--]; it runs at most
    [p - pStarter] times. *)
Fixpoint doNorm_walk (n : nat) (l : list Elem) (ps ccc p : Z) : result Z :=
  match n with
  | O => Ok p
  | S n' =>
      if ps <? p then
        e <- index l (p - 1) ;;
        if ccc <? CCC e then doNorm_walk n' l ps ccc (p - 1) else Ok p
      else Ok p
  end.

Definition doNorm (i : iter) (p ccc : Z) : result iter :=
  if maxCombiningCharacters <? p - pStarter i then
    e <- index (ce i) (len (ce i) - 1) ;;
    Ok (with_pStarter (with_prevCCC i (CCC e)) (len (ce i) - 1))
  else
    let n := len (ce i) in
    let k := p in
    p' <- doNorm_walk (Z.to_nat (p - 1 - pStarter i)) (ce i) (pStarter i) ccc (p - 1) ;;
    blk <- slice (ce i) p' k ;;
    let appended := ce i ++ blk in
    src <- slice_from appended k ;;
    _ <- slice_from appended p' ;;
    let copied := copy_at appended (Z.to_nat p') src in
    cut <- slice copied 0 n ;;
    Ok (with_ce i cut).

(** The loop [for p0++; p0 < last && i.ce[p0].CCC() == 0; p0++] of [next],
    entered after the initial [p0++]. *)
Fixpoint next_skip (n : nat) (l : list Elem) (p0 last : Z) : result Z :=
  match n with
  | O => Ok p0
  | S n' =>
      if p0 <? last then
        e <- index l p0 ;;
        if CCC e =? 0 then next_skip n' l (p0 + 1) last else Ok p0
      else Ok p0
  end.

(** [iter.next]; one unit of [fuel] per turn of [for !i.done()]. *)
Fixpoint next (fuel : nat) (i : iter) : result (bool * iter) :=
  if done i then
    if len (ce i) =? nce i then Ok (false, i)
    else Ok (true, with_nce i (len (ce i)))
  else
    match fuel with
    | O => OutOfFuel
    | S fuel' =>
        let p0 := len (ce i) in
        let '(sz, i1) := appendNext i in
        i2 <- tail i1 sz ;;
        let last := len (ce i2) - 1 in
        e <- index (ce i2) last ;;
        let ccc := CCC e in
        if ccc =? 0 then
          Ok (true, with_prevCCC (with_pStarter (with_nce i2 (len (ce i2))) last) 0)
        else
          starts0 <- (if p0 <? last
                      then e0 <- index (ce i2) p0 ;; Ok (CCC e0 =? 0)
                      else Ok false) ;;
          if (starts0 : bool) then
            p1 <- next_skip (Z.to_nat (last - (p0 + 1))) (ce i2) (p0 + 1) last ;;
            Ok (true, with_prevCCC (with_pStarter (with_nce i2 p1) (p1 - 1)) ccc)
          else if ccc <? prevCCC i2 then
            i3 <- doNorm i2 p0 ccc ;; next fuel' i3
          else
            next fuel' (with_prevCCC i2 ccc)
    end.

(** ** Level walkers *)

(** The loop [for ; i.pce < hi; i.pce++ { if v := i.ce[pos].W(); v != 0
    { i.pce++; return v } }] that the five walkers share; [pos] maps the
    cursor to the index read.  It yields 0 when the cursor reaches [hi]. *)
Fixpoint scan (n : nat) (w : Elem -> Z) (pos : iter -> Z) (hi : Z) (i : iter)
  : result (Z * iter) :=
  match n with
  | O => Ok (0, i)
  | S n' =>
      if pce i <? hi then
        e <- index (ce i) (pos i) ;;
        let v := w e in
        if v =? 0 then scan n' w pos hi (with_pce i (pce i + 1))
        else Ok (v, with_pce i (pce i + 1))
      else Ok (0, i)
  end.

(** [iter.nextPrimary]; one unit of [fuel] per call of [i.next()]. *)
Fixpoint nextPrimary (fuel : nat) (i : iter) : result (Z * iter) :=
  '(v, i1) <- scan (Z.to_nat (nce i - pce i)) Primary pce (nce i) i ;;
  if v =? 0 then
    match fuel with
    | O => OutOfFuel
    | S fuel' =>
        '(more, i2) <- next fuel' i1 ;;
        if (more : bool) then nextPrimary fuel' i2 else Ok (0, i2)
    end
  else Ok (v, i1).

Definition nextSecondary (i : iter) : result (Z * iter) :=
  scan (Z.to_nat (len (ce i) - pce i)) Secondary pce (len (ce i)) i.

Definition prevSecondary (i : iter) : result (Z * iter) :=
  scan (Z.to_nat (len (ce i) - pce i)) Secondary
       (fun j => len (ce j) - pce j - 1) (len (ce i)) i.

Definition nextTertiary (i : iter) : result (Z * iter) :=
  scan (Z.to_nat (len (ce i) - pce i)) Tertiary pce (len (ce i)) i.

Definition nextQuaternary (i : iter) : result (Z * iter) :=
  scan (Z.to_nat (len (ce i) - pce i)) Quaternary pce (len (ce i)) i.

(** ** The comparator *)

(** The [for] loop of [compareLevel]; one unit of [fuel] per turn. *)
Fixpoint compareLevel_loop (fuel : nat) (f : iter -> result (Z * iter)) (a b : iter)
  : result (Z * iter * iter) :=
  match fuel with
  | O => OutOfFuel
  | S fuel' =>
      '(va, a1) <- f a ;;
      '(vb, b1) <- f b ;;
      if negb (va =? vb) then
        if va <? vb then Ok (-1, a1, b1) else Ok (1, a1, b1)
      else if va =? 0 then Ok (0, a1, b1)
      else compareLevel_loop fuel' f a1 b1
  end.

Definition compareLevel (fuel : nat) (f : iter -> result (Z * iter)) (a b : iter)
  : result (Z * iter * iter) :=
  compareLevel_loop fuel f (with_pce a 0) (with_pce b 0).

(** [type Collator struct]; the normalization form [f] and the [sorter] play
    no part in the functions below. *)
Record Collator : Type := mkCollator {
  Strength : colltab.Level;
  Alternate : AlternateHandling;
  Backwards : bool;
  HiraganaQuaternary : bool;
  CaseLevel : bool;
  Numeric : bool;
  variableTop : Z;
  t : Weigher Elem;
  _iter0 : iter;
  _iter1 : iter
}.

Definition with_iters (c : Collator) (ia ib : iter) : Collator :=
  mkCollator (Strength c) (Alternate c) (Backwards c) (HiraganaQuaternary c)
             (CaseLevel c) (Numeric c) (variableTop c) (t c) ia ib.

Definition NewFromTable (w : Weigher Elem) : Collator :=
  mkCollator colltab.Tertiary AltNonIgnorable false false false false
             (Top w) w (iter_init w) (iter_init w).

(** [SetOptions]: its body is the comment [TODO: implement]. *)
Definition SetOptions (c : Collator) (o : Z) : Collator := c.

Definition compare (fuel : nat) (c : Collator) : result (Z * Collator) :=
  let ia := _iter0 c in
  let ib := _iter1 c in
  '(res, ia, ib) <-
     (if negb (Alternate_eqb (Alternate c) AltShifted)
      then compareLevel fuel (nextPrimary fuel) ia ib
      else Ok (0, ia, ib)) ;;
  if negb (res =? 0) then Ok (res, with_iters c ia ib) else
  '(res, ia, ib) <-
     (if colltab.leb colltab.Secondary (Strength c)
      then compareLevel fuel (if Backwards c then prevSecondary else nextSecondary) ia ib
      else Ok (0, ia, ib)) ;;
  if negb (res =? 0) then Ok (res, with_iters c ia ib) else
  if colltab.leb colltab.Tertiary (Strength c) || CaseLevel c then
    '(res, ia, ib) <- compareLevel fuel nextTertiary ia ib ;;
    if negb (res =? 0) then Ok (res, with_iters c ia ib) else
    if colltab.leb colltab.Quaternary (Strength c) then
      '(res, ia, ib) <- compareLevel fuel nextQuaternary ia ib ;;
      if negb (res =? 0) then Ok (res, with_iters c ia ib)
      else Ok (0, with_iters c ia ib)
    else Ok (0, with_iters c ia ib)
  else Ok (0, with_iters c ia ib).

Definition Compare (fuel : nat) (c : Collator) (a b : list Z) : result (Z * Collator) :=
  let c0 := with_iters c (setInput (_iter0 c) a) (setInput (_iter1 c) b) in
  '(res, c1) <- compare fuel c0 ;;
  if negb (res =? 0) then Ok (res, c1)
  else if colltab.eqb colltab.Identity (Strength c1) then Ok (bytes_Compare a b, c1)
  else Ok (0, c1).

(** ** Variable processing *)

(** The [AltShifted, AltShiftTrimmed] arm of [processWeights]; [ignore] is
    the local flag. *)
Fixpoint processWeights_shifted (vtop : Z) (ignore : bool) (wa : list Elem) : list Elem :=
  match wa with
  | [] => []
  | e :: rest =>
      let p := Primary e in
      if (p <=? vtop) && negb (p =? 0) then
        MakeQuaternary p :: processWeights_shifted vtop true rest
      else if p =? 0 then
        (if ignore then Ignore else e) :: processWeights_shifted vtop ignore rest
      else e :: processWeights_shifted vtop false rest
  end.

(** The [AltBlanked] arm. *)
Fixpoint processWeights_blanked (vtop : Z) (ignore : bool) (wa : list Elem) : list Elem :=
  match wa with
  | [] => []
  | e :: rest =>
      let p := Primary e in
      if (p <=? vtop) && (ignore || negb (p =? 0)) then
        Ignore :: processWeights_blanked vtop true rest
      else e :: processWeights_blanked vtop false rest
  end.

(** [processWeights] rewrites [wa] in place; the function returns the new
    contents.  [vtop := int(top)] is the identity on a 64-bit [int]. *)
Definition processWeights (vw : AlternateHandling) (top : Z) (wa : list Elem) : list Elem :=
  let vtop := top in
  match vw with
  | AltShifted | AltShiftTrimmed => processWeights_shifted vtop false wa
  | AltBlanked => processWeights_blanked vtop false wa
  | AltNonIgnorable => wa
  end.

(** ** The key encoder *)

(** [type Buffer struct]: [key] holds the keys generated so far; the inline
    array [buf] only backs it. *)
Record Buffer : Type := mkBuffer { key : list Z }.

Definition Buffer_init (b : Buffer) : Buffer := b.

Definition Buffer_Reset (b : Buffer) : Buffer := mkBuffer [].

Definition appendPrimary (k : list Z) (p : Z) : list Z :=
  if p <=? 0x7FFF then k ++ [uint8 (Z.shiftr p 8); uint8 p]
  else k ++ [Z.lor (uint8 (Z.shiftr p 16)) 0x80; uint8 (Z.shiftr p 8); uint8 p].

Definition put_primary (k : list Z) (v : Elem) : list Z :=
  let w := Primary v in if 0 <? w then appendPrimary k w else k.

Definition put_secondary (k : list Z) (v : Elem) : list Z :=
  let w := Secondary v in
  if 0 <? w then k ++ [uint8 (Z.shiftr w 8); uint8 w] else k.

Definition put_tertiary (k : list Z) (v : Elem) : list Z :=
  let w := Tertiary v in if 0 <? w then k ++ [uint8 w] else k.

(** Body of the quaternary loop of the [AltShiftTrimmed] arm; the state is
    the key and [lastNonFFFF]. *)
Definition put_quaternary_trim (st : list Z * Z) (v : Elem) : list Z * Z :=
  let '(k, lastNonFFFF) := st in
  let w := Quaternary v in
  if w =? MaxQuaternary then (k ++ [0xFF], lastNonFFFF)
  else if 0 <? w then
    let k' := appendPrimary k w in (k', len k')
  else (k, lastNonFFFF).

Definition put_quaternary (k : list Z) (v : Elem) : list Z :=
  let w := Quaternary v in
  if w =? MaxQuaternary then k ++ [0xFF]
  else if 0 <? w then appendPrimary k w
  else k.

(** [Collator.keyFromElems]: each [for _, v := range ws] is a left fold over
    [ws], the downward loop over indices a left fold over [rev ws]. *)
Definition keyFromElems (c : Collator) (buf : Buffer) (ws : list Elem) : Buffer :=
  let k := fold_left put_primary ws (key buf) in
  let k :=
    if colltab.leb colltab.Secondary (Strength c) then
      let k := k ++ [0; 0] in
      if negb (Backwards c) then fold_left put_secondary ws k
      else fold_left put_secondary (rev ws) k
    else if CaseLevel c then k ++ [0; 0]
    else k in
  let k :=
    if colltab.leb colltab.Tertiary (Strength c) || CaseLevel c then
      let k := k ++ [0; 0] in
      let k := fold_left put_tertiary ws k in
      if colltab.leb colltab.Quaternary (Strength c)
         && (AlternateHandling_rank AltShifted <=? AlternateHandling_rank (Alternate c))
      then
        if Alternate_eqb (Alternate c) AltShiftTrimmed then
          let lastNonFFFF := len k in
          let k := k ++ [0] in
          let '(k, lastNonFFFF) := fold_left put_quaternary_trim ws (k, lastNonFFFF) in
          firstn (Z.to_nat lastNonFFFF) k
        else
          let k := k ++ [0] in
          fold_left put_quaternary ws k
      else k
    else k in
  mkBuffer k.

(** [Collator.key]: [w] aliases the element buffer of the iterator it came
    from, so the processed weights are returned beside the key. *)
Definition Collator_key (c : Collator) (buf : Buffer) (w : list Elem)
  : result (list Z * Buffer * list Elem) :=
  let w' := processWeights (Alternate c) (Top (t c)) w in
  let kn := len (key buf) in
  let buf' := keyFromElems c buf w' in
  s <- slice_from (key buf') kn ;;
  Ok (s, buf', w').

(** The loop [for i.next() {}] of [getColElems]. *)
Fixpoint drain (fuel : nat) (i : iter) : result iter :=
  match fuel with
  | O => OutOfFuel
  | S fuel' =>
      '(more, i') <- next fuel' i ;;
      if (more : bool) then drain fuel' i' else Ok i'
  end.

Definition getColElems (fuel : nat) (c : Collator) (str : list Z)
  : result (list Elem * Collator) :=
  i <- drain fuel (setInput (_iter0 c) str) ;;
  Ok (ce i, with_iters c i (_iter1 c)).

(** [Collator.Key]: returns the key, the buffer and the collator, whose
    first iterator now holds the processed elements. *)
Definition Key (fuel : nat) (c : Collator) (buf : Buffer) (str : list Z)
  : result (list Z * Buffer * Collator) :=
  let buf := Buffer_init buf in
  '(w, c1) <- getColElems fuel c str ;;
  '(k, buf', w') <- Collator_key c1 buf w ;;
  Ok (k, buf', with_iters c1 (with_ce (_iter0 c1) w') (_iter1 c1)).

End Collate.

(** ** Reference definitions, written from the specification

    These follow the words of the specification, not the code; the theorems
    below compare them with the embedding of the code. *)

Section Reference.

Context {Elem : Type} {EO : ElemOps Elem}.

(** Section 4.5: a variable is an element whose primary [p] satisfies
    [0 < p <= variable_top]. *)
Definition is_variable (vtop : Z) (e : Elem) : bool :=
  (0 <? Primary e) && (Primary e <=? vtop).

(** Section 4.5, the scan: a variable is replaced by [onVariable] and sets
    the flag; a primary-ignorable element is replaced by [Ignore] while the
    flag is set; any other primary clears the flag. *)
Fixpoint reference_scan (vtop : Z) (onVariable : Elem -> Elem) (ignore : bool)
  (wa : list Elem) : list Elem :=
  match wa with
  | [] => []
  | e :: rest =>
      if is_variable vtop e then
        onVariable e :: reference_scan vtop onVariable true rest
      else if Primary e =? 0 then
        (if ignore then Ignore else e) :: reference_scan vtop onVariable ignore rest
      else
        e :: reference_scan vtop onVariable false rest
  end.

Definition processWeights_spec (vw : AlternateHandling) (vtop : Z) (wa : list Elem)
  : list Elem :=
  match vw with
  | AltShifted | AltShiftTrimmed =>
      reference_scan vtop (fun e => MakeQuaternary (Primary e)) false wa
  | AltBlanked => reference_scan vtop (fun _ => Ignore) false wa
  | AltNonIgnorable => wa
  end.

(** Section 4.6: the sections of a key. *)
Definition primary_section (ws : list Elem) : list Z :=
  flat_map (fun v => if 0 <? Primary v then appendPrimary [] (Primary v) else []) ws.

Definition secondary_section (ws : list Elem) : list Z :=
  flat_map (fun v => let w := Secondary v in
                     if 0 <? w then [uint8 (Z.shiftr w 8); uint8 w] else []) ws.

Definition tertiary_section (ws : list Elem) : list Z :=
  flat_map (fun v => if 0 <? Tertiary v then [uint8 (Tertiary v)] else []) ws.

Definition quaternary_section (ws : list Elem) : list Z :=
  flat_map (fun v => let w := Quaternary v in
                     if w =? MaxQuaternary then [0xFF]
                     else if 0 <? w then appendPrimary [] w else []) ws.

(** An element whose quaternary is emitted with the primary encoding. *)
Definition plain_quaternary (v : Elem) : bool :=
  negb (Quaternary v =? MaxQuaternary) && (0 <? Quaternary v).

(** [ws] without the elements after the last one with a plain quaternary. *)
Fixpoint trim_elems (ws : list Elem) : list Elem :=
  match ws with
  | [] => []
  | v :: rest =>
      match trim_elems rest with
      | [] => if plain_quaternary v then [v] else []
      | r => v :: r
      end
  end.

Definition has_secondary (c : @Collator Elem) : bool :=
  colltab.leb colltab.Secondary (Strength c).
Definition has_tertiary (c : @Collator Elem) : bool :=
  colltab.leb colltab.Tertiary (Strength c) || CaseLevel c.
Definition has_quaternary (c : @Collator Elem) : bool :=
  colltab.leb colltab.Quaternary (Strength c)
  && (Alternate_eqb (Alternate c) AltShifted || Alternate_eqb (Alternate c) AltShiftTrimmed).

Definition ordered (c : @Collator Elem) (ws : list Elem) : list Elem :=
  if Backwards c then rev ws else ws.

(** Section 4.6 read literally: the separator 0x00 0x00 before each of the
    three lower sections, present exactly when that section follows. *)
Definition key_spec (c : @Collator Elem) (ws : list Elem) : list Z :=
  primary_section ws
  ++ (if has_secondary c then [0; 0] ++ secondary_section (ordered c ws) else [])
  ++ (if has_tertiary c then [0; 0] ++ tertiary_section ws else [])
  ++ (if has_quaternary c then
        [0; 0] ++ quaternary_section
                    (if Alternate_eqb (Alternate c) AltShiftTrimmed
                     then trim_elems ws else ws)
      else []).

(** The layout the encoder produces: one zero byte before the quaternary
    section, and a secondary separator also when only the case level asks
    for a tertiary section. *)
Definition key_layout (c : @Collator Elem) (ws : list Elem) : list Z :=
  primary_section ws
  ++ (if has_secondary c then [0; 0] ++ secondary_section (ordered c ws)
      else if CaseLevel c then [0; 0] else [])
  ++ (if has_tertiary c then
        [0; 0] ++ tertiary_section ws
        ++ (if has_quaternary c then
              if Alternate_eqb (Alternate c) AltShiftTrimmed then
                match trim_elems ws with
                | [] => []
                | r => [0] ++ quaternary_section r
                end
              else [0] ++ quaternary_section ws
            else [])
      else []).

(** Section 4.2 read literally: [k] is the last element, the walk starts at
    [k], and [buf[p..=k]] is rotated so that [buf[k]] lands at [p].  The
    window is measured as in the code, from the start [p0] of the new
    block back to the last starter. *)
Fixpoint doNorm_spec_walk (n : nat) (l : list Elem) (ps ccc p : Z) : Z :=
  match n with
  | O => p
  | S n' =>
      if (ps <? p) && (match index l (p - 1) with
                       | Ok e => ccc <? CCC e
                       | _ => false
                       end)
      then doNorm_spec_walk n' l ps ccc (p - 1)
      else p
  end.

Definition rotate_last_to {A : Type} (l : list A) (p k : nat) : list A :=
  firstn p l ++ firstn 1 (skipn k l) ++ firstn (k - p) (skipn p l) ++ skipn (S k) l.

Definition doNorm_spec (i : @iter Elem) (p0 ccc : Z) : @iter Elem :=
  if maxCombiningCharacters <? p0 - pStarter i then
    match index (ce i) (len (ce i) - 1) with
    | Ok e => with_pStarter (with_prevCCC i (CCC e)) (len (ce i) - 1)
    | _ => i
    end
  else
    let k := len (ce i) - 1 in
    let p := doNorm_spec_walk (Z.to_nat k) (ce i) (pStarter i) ccc k in
    with_ce i (rotate_last_to (ce i) (Z.to_nat p) (Z.to_nat k)).

(** What [doNorm] does to the buffer: the block [l[k..]] is moved in front
    of [l[p..k)]. *)
Definition move_block {A : Type} (l : list A) (p k : nat) : list A :=
  firstn p l ++ skipn k l ++ firstn (k - p) (skipn p l).

(** The Weigher contract of section 4.1: on non-empty input [AppendNext]
    emits at least one element and consumes at least one byte of it. *)
Definition WeigherOK (w : Weigher Elem) : Prop :=
  forall buf s, s <> [] ->
    (length buf < length (fst (AppendNext w buf s)))%nat
    /\ 1 <= snd (AppendNext w buf s) <= len s.

(** What holds of an iterator between the calls of its methods. *)
Definition iter_ok (i : @iter Elem) : Prop :=
  WeigherOK (it i)
  /\ 0 <= pStarter i
  /\ 0 <= nce i <= len (ce i)
  /\ (ce i = [] -> prevCCC i = 0)
  /\ 0 <= pce i.

(** What the loop of [compareLevel] relies on in a walker over the whole
    buffer: it answers, moves only the cursor, and moves it forward when it
    returns a weight. *)
Definition walker_ok (f : @iter Elem -> result (Z * @iter Elem)) : Prop :=
  forall i, 0 <= pce i ->
    exists v i',
      f i = Ok (v, i')
      /\ i' = with_pce i (pce i') /\ pce i <= pce i'
      /\ (v <> 0 -> pce i < pce i' <= len (ce i)).

(** Fuel that [nextPrimary] needs: one unit per byte left, and up to two
    more for the residue and for the final call of [next]. *)
Definition need (i : @iter Elem) : nat :=
  match bytes i with
  | [] => if nce i =? len (ce i) then 1 else 2
  | _ :: _ => length (bytes i) + 2
  end.

(** The iterator states a collator can be in: built by [iter.init] and
    changed only by the methods of [iter], by [compareLevel] and by the
    in-place [processWeights] of [Collator.key]. *)
Inductive reachable : @iter Elem -> Prop :=
| reach_init : forall w, reachable (iter_init w)
| reach_setInput : forall i s, reachable i -> reachable (setInput i s)
| reach_next : forall fuel i b i',
    reachable i -> next fuel i = Ok (b, i') -> reachable i'
| reach_compareLevel : forall i, reachable i -> reachable (with_pce i 0)
| reach_nextPrimary : forall fuel i v i',
    reachable i -> nextPrimary fuel i = Ok (v, i') -> reachable i'
| reach_nextSecondary : forall i v i',
    reachable i -> nextSecondary i = Ok (v, i') -> reachable i'
| reach_prevSecondary : forall i v i',
    reachable i -> prevSecondary i = Ok (v, i') -> reachable i'
| reach_nextTertiary : forall i v i',
    reachable i -> nextTertiary i = Ok (v, i') -> reachable i'
| reach_nextQuaternary : forall i v i',
    reachable i -> nextQuaternary i = Ok (v, i') -> reachable i'
| reach_processWeights : forall i vw top,
    reachable i -> reachable (with_ce i (processWeights vw top (ce i))).

(** Two collators with the same settings and the same weigher. *)
Definition same_settings (c c' : @Collator Elem) : Prop :=
  Strength c = Strength c' /\ Alternate c = Alternate c'
  /\ Backwards c = Backwards c' /\ CaseLevel c = CaseLevel c'
  /\ t c = t c'.

(** Both iterators consult the weigher of the collator, as after
    [NewFromTable]. *)
Definition Collator_wf (c : @Collator Elem) : Prop :=
  it (_iter0 c) = t c /\ it (_iter1 c) = t c.

(** The collator with its two iterators exchanged. *)
Definition swap_iters (c : @Collator Elem) : @Collator Elem :=
  with_iters c (_iter1 c) (_iter0 c).

Definition result_map {A B : Type} (f : A -> B) (r : result A) : result B :=
  match r with
  | Ok a => Ok (f a)
  | Panic => Panic
  | OutOfFuel => OutOfFuel
  end.

End Reference.

(** ** A small weight table for the scenarios *)

(** Modelled from the spec: the elements of the scenarios carry their four
    weights and their combining class side by side (section 3); the DUCET
    table of the scenarios is not part of the sources. *)
Record WElem : Type := mkW {
  w_primary : N;
  w_secondary : N;
  w_tertiary : N;
  w_quaternary : N;
  w_ccc : N
}.

#[export] Program Instance WElem_ops : ElemOps WElem := {|
  Primary e := Z.of_N (w_primary e);
  Secondary e := Z.of_N (w_secondary e);
  Tertiary e := Z.of_N (w_tertiary e);
  Quaternary e := Z.of_N (w_quaternary e);
  CCC e := Z.of_N (w_ccc e);
  Ignore := mkW 0 0 0 0 0;
  MakeQuaternary v := mkW 0 0 0 (Z.to_N v) 0;
  MaxQuaternary := 0x1FFFFF
|}.
Next Obligation. lia. Qed.
Next Obligation. lia. Qed.

(** One block of elements per input byte: the space is a variable, the
    letters are ordinary starters, the bytes 1 and 2 are combining marks of
    class 230 and 240, the byte 3 is a contraction of two marks of class
    230, the byte 4 an element with a tertiary weight only, anything else
    an implicit element with a three-byte primary. *)
Definition toy_elems (b : Z) : list WElem :=
  if b =? 32 then [mkW 0x0200 0x20 2 0x1FFFFF 0]
  else if (97 <=? b) && (b <=? 122) then [mkW (0x1000 + Z.to_N b) 0x20 2 0x1FFFFF 0]
  else if b =? 1 then [mkW 0 0x21 2 0x1FFFFF 230]
  else if b =? 2 then [mkW 0 0x22 2 0x1FFFFF 240]
  else if b =? 3 then [mkW 0 0x23 2 0x1FFFFF 230; mkW 0 0x24 2 0x1FFFFF 230]
  else if b =? 4 then [mkW 0 0 3 0x1FFFFF 0]
  else [mkW (0x10000 + Z.to_N b) 0x20 2 0x1FFFFF 0].

Definition toyWeigher : Weigher WElem :=
  mkWeigher 0x0FFF
    (fun buf s => match s with
                  | [] => (buf, 0)
                  | b :: _ => (buf ++ toy_elems b, 1)
                  end).

Definition with_settings (c : @Collator WElem) (s : colltab.Level)
  (a : AlternateHandling) (bw cl : bool) : @Collator WElem :=
  mkCollator s a bw (HiraganaQuaternary c) cl (Numeric c) (variableTop c) (t c)
             (_iter0 c) (_iter1 c).

Definition toyCollator (s : colltab.Level) (a : AlternateHandling) : @Collator WElem :=
  with_settings (NewFromTable toyWeigher) s a false false.

(** The inputs of scenario 4, as ASCII bytes. *)
Definition de_luge : list Z := [100; 101; 32; 108; 117; 103; 101].
Definition deluge : list Z := [100; 101; 108; 117; 103; 101].

(** The key of [str] in an empty buffer. *)
Definition key_of (fuel : nat) (c : @Collator WElem) (str : list Z) : result (list Z) :=
  result_map (fun x => fst (fst x)) (Key fuel c (mkBuffer []) str).

(** The collator as a call of [Compare] leaves it. *)
Definition after_Compare (fuel : nat) (c : @Collator WElem) (a b : list Z)
  : @Collator WElem :=
  match Compare fuel c a b with
  | Ok (_, c1) => c1
  | _ => c
  end.

(** The iterator in the middle of [next] on the input "a", 2, 3: the
    starter and the mark of class 240 are in the buffer, and [appendNext]
    has just added the block of two marks of class 230. *)
Definition blockIter : @iter WElem :=
  mkIter [] [mkW 0x1061 0x20 2 0x1FFFFF 0; mkW 0 0x22 2 0x1FFFFF 240;
             mkW 0 0x23 2 0x1FFFFF 230; mkW 0 0x24 2 0x1FFFFF 230]
         0 1 240 0 toyWeigher.

(** The iterator after one [next] on the input 4: its only element has no
    secondary weight. *)
Definition zeroSecondaryIter : @iter WElem :=
  match next 1 (setInput (iter_init toyWeigher) [4]) with
  | Ok (_, i) => i
  | _ => iter_init toyWeigher
  end.

(** The weigher of the scenarios on bytes proper: every input byte is read
    as a [uint8], so that all primaries stay below 0x10100. *)
Definition byteWeigher : Weigher WElem :=
  mkWeigher 0x0FFF
    (fun buf s => match s with
                  | [] => (buf, 0)
                  | b :: _ => (buf ++ toy_elems (uint8 b), 1)
                  end).

Definition byteCollator (s : colltab.Level) (a : AlternateHandling) : @Collator WElem :=
  with_settings (NewFromTable byteWeigher) s a false false.

(** The iterator as a call of [next] leaves it. *)
Definition afterNext (fuel : nat) (i : @iter WElem) : @iter WElem :=
  match next fuel i with
  | Ok (_, i') => i'
  | _ => i
  end.

(** * Further code of collate.go *)

Section More.

Context {Elem : Type} {EO : ElemOps Elem}.

(** [iter.nextPlain]: [next] without the reordering. *)
Definition nextPlain (i : @iter Elem) : result (bool * @iter Elem) :=
  if done i then Ok (false, i)
  else
    let '(sz, i1) := appendNext i in
    i2 <- tail i1 sz ;;
    Ok (true, with_nce i2 (len (ce i2))).

(** The loop [for i.nextPlain() {}]. *)
Fixpoint drainPlain (fuel : nat) (i : @iter Elem) : result (@iter Elem) :=
  match fuel with
  | O => OutOfFuel
  | S fuel' =>
      '(more, i') <- nextPlain i ;;
      if (more : bool) then drainPlain fuel' i' else Ok i'
  end.

(** What a level walk returns, one after the other: the weights of the
    buffer that are not zero. *)
Definition weights (w : Elem -> Z) (ws : list Elem) : list Z :=
  filter (fun v => negb (v =? 0)) (map w ws).

(** The order of [compareLevel] on two such streams: the first difference
    decides, and a stream that has ended counts as the weight 0. *)
Fixpoint lexCompare (xs ys : list Z) : Z :=
  match xs, ys with
  | [], [] => 0
  | [], y :: _ => if 0 <? y then -1 else 1
  | x :: _, [] => if x <? 0 then -1 else 1
  | x :: xs', y :: ys' =>
      if negb (x =? y) then (if x <? y then -1 else 1) else lexCompare xs' ys'
  end.

(** The levels of [compare] below the primary one, on complete buffers
    [wa] and [wb]. *)
Definition lowerElems (c : @Collator Elem) (wa wb : list Elem) : Z :=
  let r2 := if colltab.leb colltab.Secondary (Strength c)
            then lexCompare (weights Secondary (ordered c wa))
                            (weights Secondary (ordered c wb))
            else 0 in
  if negb (r2 =? 0) then r2 else
  if colltab.leb colltab.Tertiary (Strength c) || CaseLevel c then
    let r3 := lexCompare (weights Tertiary wa) (weights Tertiary wb) in
    if negb (r3 =? 0) then r3 else
    if colltab.leb colltab.Quaternary (Strength c)
    then lexCompare (weights Quaternary wa) (weights Quaternary wb)
    else 0
  else 0.

(** The levels of [compare] in turn, on complete buffers [wa] and [wb],
    when the alternate is not Shifted. *)
Definition compareElems (c : @Collator Elem) (wa wb : list Elem) : Z :=
  let r1 := lexCompare (weights Primary wa) (weights Primary wb) in
  if negb (r1 =? 0) then r1 else lowerElems c wa wb.

(** A three-way comparison that orders: exchanging the arguments negates
    it, and "not greater" is transitive. *)
Definition cmp_order {X : Type} (cmp : X -> X -> Z) : Prop :=
  (forall x y, cmp y x = - cmp x y)
  /\ (forall x y z, cmp x y <= 0 -> cmp y z <= 0 -> cmp x z <= 0).

(** First [c1], and [c2] where [c1] does not decide. *)
Definition lexThen {X : Type} (c1 c2 : X -> X -> Z) : X -> X -> Z :=
  fun x y => if negb (c1 x y =? 0) then c1 x y else c2 x y.

(** A weigher that appends: the buffer it is given comes back with new
    elements behind it, and these and the bytes consumed depend on the
    input alone. *)
Definition WeigherAppends (w : Weigher Elem) : Prop :=
  exists gen : list Z -> list Elem * Z,
    forall buf s, AppendNext w buf s = (buf ++ fst (gen s), snd (gen s)).

(** The weights fit the fields of the key: primaries in 23 bits,
    secondaries in 16 and tertiaries in 8. *)
Definition weights_fit (e : Elem) : Prop :=
  Primary e < 2 ^ 23 /\ 0 <= Secondary e < 2 ^ 16 /\ 0 <= Tertiary e < 2 ^ 8.

(** A weigher all of whose elements fit. *)
Definition WeigherFits (w : Weigher Elem) : Prop :=
  forall buf s, Forall weights_fit buf -> Forall weights_fit (fst (AppendNext w buf s)).

(** The released window and the starter behind it: either the input is
    used up, or the window ends at or before the last starter, which has
    class 0 when the window ends right behind it. *)
Definition window_ok (i : @iter Elem) : Prop :=
  bytes i = []
  \/ (nce i <= pStarter i + 1
      /\ pStarter i < len (ce i) + (if len (ce i) =? 0 then 1 else 0)
      /\ (nce i = pStarter i + 1 ->
          exists e, index (ce i) (pStarter i) = Ok e /\ CCC e = 0)
      /\ (len (ce i) = pStarter i + 1 -> nce i = pStarter i + 1 -> prevCCC i = 0)).

(** The states that calls of [next] lead to. *)
Inductive pumped : @iter Elem -> @iter Elem -> Prop :=
| pumped_refl : forall i, pumped i i
| pumped_step : forall fuel i b i1 i2,
    next fuel i = Ok (b, i1) -> pumped i1 i2 -> pumped i i2.

(** The states that calls of [nextPlain] lead to. *)
Inductive plained : @iter Elem -> @iter Elem -> Prop :=
| plained_refl : forall i, plained i i
| plained_step : forall i i1 i2,
    nextPlain i = Ok (true, i1) -> plained i1 i2 -> plained i i2.

(** The elements of an input without reordering, as the loop over
    [nextPlain] collects them. *)
Definition plainElems (fuel : nat) (w : Weigher Elem) (s : list Z) : result (list Elem) :=
  result_map ce (drainPlain fuel (setInput (iter_init w) s)).

(** The collation elements of an input, as [getColElems] collects them
    with a weigher [w]. *)
Definition colElems (fuel : nat) (w : Weigher Elem) (s : list Z) : result (list Elem) :=
  result_map ce (drain fuel (setInput (iter_init w) s)).

(** [l[lo:hi]] as a list, for indices in range. *)
Definition seg {A : Type} (l : list A) (lo hi : Z) : list A :=
  firstn (Z.to_nat (hi - lo)) (skipn (Z.to_nat lo) l).

(** [next] called until it returns false leaves the elements [A]. *)
Definition drains (i : @iter Elem) (A : list Elem) : Prop :=
  exists fuel iA, drain fuel i = Ok iA /\ ce iA = A.

(** What holds of an iterator between the calls of [nextPrimary], for the
    elements [A] that its input gives in the end. *)
Definition primary_inv (i : @iter Elem) (A : list Elem) : Prop :=
  iter_ok i /\ WeigherAppends (it i) /\ window_ok i /\ pce i <= nce i /\ drains i A.

(** What may follow a section of a key: the end of the key, or the two
    zero bytes of a separator. *)
Definition sep_or_end (k : list Z) : Prop :=
  k = [] \/ exists k', k = 0 :: 0 :: k'.

(** What [Compare] returns once the levels are decided on the elements. *)
Definition compareWith (c : @Collator Elem) (wa wb : list Elem) (a b : list Z) : Z :=
  let r := compareElems c wa wb in
  if negb (r =? 0) then r
  else if colltab.eqb colltab.Identity (Strength c) then bytes_Compare a b
  else 0.

End More.

(** * Properties *)

(** Splits a goal [iter_ok _] and leaves what arithmetic does not settle. *)
Ltac prove_iter_ok :=
  unfold iter_ok;
  cbn [bytes ce pce nce prevCCC pStarter it
       with_bytes with_ce with_pce with_nce with_prevCCC with_pStarter];
  apply conj; [try assumption; try congruence
  |apply conj; [try lia
  |apply conj; [try lia
  |apply conj; [try assumption; try (intros; lia)|try lia]]]].

(** Inversion of a successful [bind]. *)
Ltac bind_inv H :=
  match type of H with
  | bind ?m _ = Ok _ =>
      let E := fresh "E" in
      destruct m eqn:E; cbn [bind] in H; [|discriminate H|discriminate H]
  end.

Tactic Notation "bind_inv_as" hyp(H) ident(E) :=
  match type of H with
  | bind ?m _ = Ok _ =>
      destruct m eqn:E; cbn [bind] in H; [|discriminate H|discriminate H]
  end.

Ltac ok_inv H := injection H as H; try subst.

(** Reduces the projections of an updated iterator. *)
Ltac iter_simpl :=
  cbn [bytes ce pce nce prevCCC pStarter it
       with_bytes with_ce with_pce with_nce with_prevCCC with_pStarter] in *.


Section Properties.

Context {Elem : Type} {EO : ElemOps Elem}.

(** ** SetOptions *)

(** C3 (the code at the failing input): [SetOptions] leaves the collator as
    it is, so after [NewFromTable] and [SetOptions(IgnoreDiacritics)] the
    strength is still [Tertiary], not [Primary]. *)
Theorem SetOptions_IgnoreDiacritics_keeps_Tertiary :
  forall w : Weigher Elem,
    SetOptions (NewFromTable w) Opt.IgnoreDiacritics = NewFromTable w
    /\ Strength (SetOptions (NewFromTable w) Opt.IgnoreDiacritics) = colltab.Tertiary
    /\ Strength (SetOptions (NewFromTable w) Opt.IgnoreDiacritics) <> colltab.Primary.
Proof.
  intro w. unfold SetOptions. cbn. repeat split. discriminate.
Qed.

(** ** processWeights against the reference scan *)

Lemma is_variable_code (vtop : Z) (e : Elem) :
  is_variable vtop e = (Primary e <=? vtop) && negb (Primary e =? 0).
Proof.
  unfold is_variable. pose proof (Primary_nonneg e) as Hp.
  destruct (Z.ltb_spec 0 (Primary e)), (Z.leb_spec (Primary e) vtop),
    (Z.eqb_spec (Primary e) 0); cbn; try reflexivity; lia.
Qed.

Lemma processWeights_shifted_reference (vtop : Z) (wa : list Elem) :
  forall ignore,
    processWeights_shifted vtop ignore wa
    = reference_scan vtop (fun e => MakeQuaternary (Primary e)) ignore wa.
Proof.
  induction wa as [|e rest IH]; intro ignore; cbn [processWeights_shifted reference_scan].
  - reflexivity.
  - rewrite is_variable_code.
    destruct ((Primary e <=? vtop) && negb (Primary e =? 0)).
    + now rewrite IH.
    + destruct (Primary e =? 0); now rewrite IH.
Qed.

(** The flag of the blanked scan is only ever set by a variable, which
    needs a positive [vtop]. *)
Lemma processWeights_blanked_reference (vtop : Z) (wa : list Elem) :
  forall ignore,
    (ignore = true -> 0 <= vtop) ->
    processWeights_blanked vtop ignore wa
    = reference_scan vtop (fun _ => Ignore) ignore wa.
Proof.
  induction wa as [|e rest IH]; intros ignore Hflag;
    cbn [processWeights_blanked reference_scan].
  - reflexivity.
  - unfold is_variable. pose proof (Primary_nonneg e) as Hp.
    destruct (Z.ltb_spec 0 (Primary e)) as [Hpos|Hzero];
      destruct (Z.leb_spec (Primary e) vtop) as [Hle|Hgt];
      destruct (Z.eqb_spec (Primary e) 0) as [H0|Hn0];
      try lia; cbn [andb orb negb].
    + rewrite orb_true_r. rewrite IH by (intros _; lia). reflexivity.
    + rewrite IH by discriminate. reflexivity.
    + rewrite orb_false_r. destruct ignore.
      * rewrite IH by (intros _; lia). reflexivity.
      * rewrite IH by discriminate. reflexivity.
    + destruct ignore.
      * specialize (Hflag eq_refl). lia.
      * rewrite IH by discriminate. reflexivity.
Qed.

(** C4: [processWeights] computes the reference scan of section 4.5 under
    every alternate: variables become quaternary-only elements (Shifted,
    ShiftTrimmed) or [Ignore] (Blanked) and set the flag, primary
    ignorables become [Ignore] while the flag is set, a primary above
    [variable_top] clears the flag, and NonIgnorable changes nothing. *)
Theorem processWeights_matches_reference :
  forall (vw : AlternateHandling) (top : Z) (wa : list Elem),
    processWeights vw top wa = processWeights_spec vw top wa.
Proof.
  intros vw top wa. destruct vw; cbn [processWeights processWeights_spec].
  - reflexivity.
  - apply processWeights_blanked_reference. discriminate.
  - apply processWeights_shifted_reference.
  - apply processWeights_shifted_reference.
Qed.

(** ** Slices and indices *)

Lemma len_app {A : Type} (l1 l2 : list A) : len (l1 ++ l2) = len l1 + len l2.
Proof. unfold len. rewrite length_app. lia. Qed.

Lemma len_nonneg {A : Type} (l : list A) : 0 <= len l.
Proof. unfold len. lia. Qed.

Lemma len_nil_iff {A : Type} (l : list A) : len l = 0 <-> l = [].
Proof.
  unfold len. destruct l; cbn; split; intro H; try reflexivity; try discriminate; lia.
Qed.

Lemma index_inv {A : Type} (l : list A) (i : Z) (x : A) :
  index l i = Ok x -> 0 <= i < len l /\ nth_error l (Z.to_nat i) = Some x.
Proof.
  unfold index. destruct (Z.ltb_spec i 0) as [Hneg|Hpos]; [discriminate|].
  destruct (nth_error l (Z.to_nat i)) as [y|] eqn:E; [|discriminate].
  intro H. injection H as ->. split; [|reflexivity].
  assert (Hlt : (Z.to_nat i < length l)%nat)
    by (apply nth_error_Some; rewrite E; discriminate).
  unfold len. lia.
Qed.

Lemma index_total {A : Type} (l : list A) (i : Z) :
  0 <= i < len l -> exists x, index l i = Ok x.
Proof.
  intros [H0 H1]. unfold index.
  destruct (Z.ltb_spec i 0) as [Hneg|_]; [lia|].
  destruct (nth_error l (Z.to_nat i)) as [y|] eqn:E.
  - now exists y.
  - apply nth_error_None in E. unfold len in H1. lia.
Qed.

Lemma index_panic_iff {A : Type} (l : list A) (i : Z) :
  index l i = Panic <-> ~ (0 <= i < len l).
Proof.
  split.
  - intros H Hr. destruct (index_total l Hr) as [x Hx]. congruence.
  - intro H. unfold index. destruct (Z.ltb_spec i 0) as [|Hpos]; [reflexivity|].
    destruct (nth_error l (Z.to_nat i)) as [y|] eqn:E; [|reflexivity].
    exfalso. apply H.
    assert ((Z.to_nat i < length l)%nat) by (apply nth_error_Some; congruence).
    unfold len. lia.
Qed.

Lemma slice_Ok {A : Type} (l : list A) (lo hi : Z) :
  0 <= lo <= hi -> hi <= len l ->
  slice l lo hi = Ok (firstn (Z.to_nat (hi - lo)) (skipn (Z.to_nat lo) l)).
Proof.
  intros [H0 H1] H2. unfold slice.
  destruct (Z.leb_spec 0 lo), (Z.leb_spec lo hi), (Z.leb_spec hi (len l));
    try lia. reflexivity.
Qed.

Lemma slice_from_Ok {A : Type} (l : list A) (lo : Z) :
  0 <= lo <= len l -> slice_from l lo = Ok (skipn (Z.to_nat lo) l).
Proof.
  intro H. unfold slice_from. rewrite slice_Ok by lia. f_equal.
  apply firstn_all2. rewrite length_skipn. unfold len. lia.
Qed.

(** ** doNorm *)

(** [append], [copy] and the final reslicing of [doNorm] amount to moving
    the block. *)
Lemma copy_truncate_is_move {A : Type} (l : list A) (p k : nat) :
  (p <= k <= length l)%nat ->
  let blk := firstn (k - p) (skipn p l) in
  let appended := l ++ blk in
  firstn (length l) (copy_at appended p (skipn k appended)) = move_block l p k.
Proof.
  intros [Hpk Hkl] blk appended. unfold copy_at, move_block.
  assert (Hblk : length blk = (k - p)%nat).
  { unfold blk. rewrite length_firstn, length_skipn. lia. }
  assert (Happ : length appended = (length l + (k - p))%nat).
  { unfold appended. rewrite length_app. lia. }
  assert (Hsrc : skipn k appended = skipn k l ++ blk).
  { unfold appended. rewrite skipn_app.
    replace (k - length l)%nat with 0%nat by lia. reflexivity. }
  rewrite Hsrc.
  assert (Hm : Nat.min (length appended - p) (length (skipn k l ++ blk))
               = length (skipn k l ++ blk)).
  { rewrite length_app, length_skipn. lia. }
  rewrite Hm, firstn_all.
  assert (Hpre : firstn p appended = firstn p l).
  { unfold appended. rewrite firstn_app.
    replace (p - length l)%nat with 0%nat by lia.
    cbn. now rewrite app_nil_r. }
  rewrite Hpre.
  rewrite app_assoc.
  rewrite firstn_app.
  assert (Hlen : length (firstn p l ++ skipn k l ++ blk) = length l).
  { rewrite !length_app, length_firstn, length_skipn. lia. }
  rewrite Hlen, Nat.sub_diag, firstn_all2 by lia.
  cbn [firstn]. rewrite app_nil_r. reflexivity.
Qed.

Lemma move_block_length {A : Type} (l : list A) (p k : nat) :
  (p <= k <= length l)%nat -> length (move_block l p k) = length l.
Proof.
  intros [Hpk Hkl]. unfold move_block.
  rewrite !length_app, length_firstn, length_skipn, length_firstn, length_skipn. lia.
Qed.

Lemma move_block_Permutation {A : Type} (l : list A) (p k : nat) :
  (p <= k <= length l)%nat -> Permutation (move_block l p k) l.
Proof.
  intros [Hpk Hkl]. unfold move_block.
  assert (E : firstn p l ++ firstn (k - p) (skipn p l) ++ skipn k l = l).
  { replace (skipn k l) with (skipn (k - p) (skipn p l)).
    - now rewrite !firstn_skipn.
    - rewrite skipn_skipn. f_equal. lia. }
  apply Permutation_trans
    with (firstn p l ++ firstn (k - p) (skipn p l) ++ skipn k l).
  - apply Permutation_app_head, Permutation_app_comm.
  - rewrite E. apply Permutation_refl.
Qed.

(** The walk stops at the insertion point: every position it passed had a
    larger class in front of it, and the one it stops at has not (or is the
    starter). *)
Lemma doNorm_walk_spec (l : list Elem) (ps ccc : Z) :
  forall (n : nat) (p : Z),
    0 <= ps -> p <= len l -> (Z.to_nat (p - ps) <= n)%nat ->
    exists q,
      doNorm_walk n l ps ccc p = Ok q
      /\ q <= p /\ (ps <= p -> ps <= q)
      /\ (forall j, q < j <= p ->
            ps < j /\ exists e, index l (j - 1) = Ok e /\ ccc < CCC e)
      /\ (ps < q -> exists e, index l (q - 1) = Ok e /\ CCC e <= ccc).
Proof.
  induction n as [|n IH]; intros p Hps Hp Hn.
  - exists p. cbn. repeat split; try lia.
  - cbn [doNorm_walk]. destruct (Z.ltb_spec ps p) as [Hlt|Hge].
    + destruct (index_total l (i := p - 1)) as [e He]; [lia|].
      rewrite He. cbn [bind].
      destruct (Z.ltb_spec ccc (CCC e)) as [Hc|Hc].
      * destruct (IH (p - 1)) as (q & Hq & Hqp & Hqs & Hpass & Hstop); try lia.
        exists q. split; [exact Hq|]. split; [lia|]. split; [lia|]. split.
        -- intros j Hj. destruct (Z.eq_dec j p) as [->|Hne].
           ++ split; [lia|]. now exists e.
           ++ apply Hpass. lia.
        -- exact Hstop.
      * exists p. split; [reflexivity|]. split; [lia|]. split; [lia|]. split.
        -- intros j Hj. lia.
        -- intros _. now exists e.
    + exists p. split; [reflexivity|]. split; [lia|]. split; [lia|]. split.
      * intros j Hj. lia.
      * intro. lia.
Qed.

(** [doNorm] below the window bound: the block [ce[p..]] is moved to the
    insertion point [q] found by the walk from [p - 1]. *)
Lemma doNorm_moves_block (i : iter) (p ccc : Z) :
  0 <= pStarter i -> 1 <= p <= len (ce i) ->
  p - pStarter i <= maxCombiningCharacters ->
  exists q,
    doNorm_walk (Z.to_nat (p - 1 - pStarter i)) (ce i) (pStarter i) ccc (p - 1) = Ok q
    /\ 0 <= q <= p - 1
    /\ doNorm i p ccc
       = Ok (with_ce i (move_block (ce i) (Z.to_nat q) (Z.to_nat p))).
Proof.
  intros Hps Hp Hwin.
  destruct (@doNorm_walk_spec (ce i) (pStarter i) ccc
              (Z.to_nat (p - 1 - pStarter i)) (p - 1))
    as (q & Hq & Hqp & Hqs & _ & _); try lia.
  exists q. split; [exact Hq|].
  assert (Hq0 : 0 <= q).
  { destruct (Z.le_gt_cases (pStarter i) (p - 1)) as [H|H].
    - specialize (Hqs H). lia.
    - assert (Hz : Z.to_nat (p - 1 - pStarter i) = 0%nat) by lia.
      rewrite Hz in Hq. cbn in Hq. injection Hq as <-. lia. }
  split; [lia|].
  unfold doNorm.
  destruct (Z.ltb_spec maxCombiningCharacters (p - pStarter i)) as [Hbig|_]; [lia|].
  rewrite Hq. cbn [bind].
  rewrite slice_Ok by lia. cbn [bind].
  set (blk := firstn (Z.to_nat (p - q)) (skipn (Z.to_nat q) (ce i))).
  assert (Hblk : length blk = Z.to_nat (p - q)).
  { unfold blk. rewrite length_firstn, length_skipn. unfold len in Hp. lia. }
  assert (Happ : len (ce i ++ blk) = len (ce i) + (p - q)).
  { rewrite len_app. unfold len at 2. rewrite Hblk. lia. }
  rewrite slice_from_Ok by lia. cbn [bind].
  rewrite slice_from_Ok by lia. cbn [bind].
  pose proof (@copy_truncate_is_move Elem (ce i) (Z.to_nat q) (Z.to_nat p)) as Hmove.
  cbn zeta in Hmove.
  replace (Z.to_nat p - Z.to_nat q)%nat with (Z.to_nat (p - q)) in Hmove by lia.
  fold blk in Hmove.
  assert (Hrange : (Z.to_nat q <= Z.to_nat p <= length (ce i))%nat)
    by (unfold len in Hp; lia).
  specialize (Hmove Hrange).
  assert (Hcl : length (copy_at (ce i ++ blk) (Z.to_nat q)
                          (skipn (Z.to_nat p) (ce i ++ blk)))
                = (length (ce i) + Z.to_nat (p - q))%nat).
  { unfold copy_at. rewrite !length_app, !length_firstn, !length_skipn, !length_app.
    rewrite Hblk. lia. }
  rewrite slice_Ok.
  - cbn [bind]. rewrite Z.sub_0_r. cbn [Z.to_nat skipn].
    unfold len. rewrite Nat2Z.id, Hmove. reflexivity.
  - pose proof (len_nonneg (ce i)). lia.
  - unfold len. rewrite Hcl. lia.
Qed.

Lemma doNorm_window_exceeded (i : iter) (p ccc : Z) :
  maxCombiningCharacters < p - pStarter i -> ce i <> [] ->
  exists e,
    index (ce i) (len (ce i) - 1) = Ok e
    /\ doNorm i p ccc = Ok (with_pStarter (with_prevCCC i (CCC e)) (len (ce i) - 1)).
Proof.
  intros Hbig Hne.
  assert (Hlen : 0 < len (ce i)).
  { pose proof (len_nonneg (ce i)) as Hnn. pose proof (len_nil_iff (ce i)) as [Hnil _].
    destruct (Z.eq_dec (len (ce i)) 0) as [E|E]; [now apply Hnil in E|lia]. }
  destruct (index_total (ce i) (i := len (ce i) - 1)) as [e He]; [lia|].
  exists e. split; [exact He|].
  unfold doNorm. destruct (Z.ltb_spec maxCombiningCharacters (p - pStarter i)); [|lia].
  rewrite He. reflexivity.
Qed.

(** With enough fuel the walk of the code and the walk of section 4.2 stop
    at the same place. *)
Lemma doNorm_walk_is_spec_walk (l : list Elem) (ps ccc : Z) :
  forall (n m : nat) (p q : Z),
    (Z.to_nat (p - ps) <= n)%nat -> (Z.to_nat (p - ps) <= m)%nat ->
    doNorm_walk n l ps ccc p = Ok q ->
    doNorm_spec_walk m l ps ccc p = q.
Proof.
  induction n as [|n IH]; intros m p q Hn Hm Hw.
  - cbn in Hw. injection Hw as <-.
    destruct m as [|m]; [reflexivity|]. cbn [doNorm_spec_walk].
    destruct (Z.ltb_spec ps p); [lia|]. reflexivity.
  - cbn [doNorm_walk] in Hw. destruct m as [|m].
    + destruct (Z.ltb_spec ps p); [lia|]. injection Hw as <-. reflexivity.
    + cbn [doNorm_spec_walk]. destruct (Z.ltb_spec ps p) as [Hlt|Hge].
      * destruct (index l (p - 1)) as [e| |]; cbn [bind] in Hw; try discriminate.
        cbn [andb]. destruct (ccc <? CCC e).
        -- apply (IH m (p - 1) q); [lia|lia|exact Hw].
        -- now injection Hw as <-.
      * cbn [andb]. now injection Hw as <-.
Qed.

Lemma move_last_is_rotate {A : Type} (l : list A) (p k : nat) :
  (p <= k)%nat -> S k = length l -> move_block l p k = rotate_last_to l p k.
Proof.
  intros Hpk Hk. unfold move_block, rotate_last_to.
  f_equal.
  rewrite (firstn_all2 (n := 1) (skipn k l)) by (rewrite length_skipn; lia).
  rewrite (skipn_all2 (n := S k) l) by lia.
  now rewrite app_nil_r.
Qed.

(** C8 (as the code has it): when more than [maxCombiningCharacters]
    elements lie between the last starter and the new block, [doNorm] only
    makes the last element the new starter; otherwise it takes [k] to be the
    first index of the new block, walks [p] back from [k - 1] while
    [p > pStarter] and [ccc] is below the class of [buf[p-1]], and moves the
    whole block [buf[k..]] to position [p], which keeps the length and the
    multiset of the buffer.  For a block of one element that the walk
    passes at least one element with, this is the rotation of section
    4.2. *)
Theorem doNorm_moves_whole_block :
  forall (i : iter) (p ccc : Z),
    0 <= pStarter i -> 1 <= p <= len (ce i) ->
    (maxCombiningCharacters < p - pStarter i ->
       exists e,
         index (ce i) (len (ce i) - 1) = Ok e
         /\ doNorm i p ccc
            = Ok (with_pStarter (with_prevCCC i (CCC e)) (len (ce i) - 1)))
    /\ (p - pStarter i <= maxCombiningCharacters ->
          exists (q : Z) (i' : iter),
            doNorm i p ccc = Ok i'
            /\ i' = with_ce i (move_block (ce i) (Z.to_nat q) (Z.to_nat p))
            /\ 0 <= q <= p - 1
            /\ (forall j, q < j <= p - 1 ->
                  pStarter i < j
                  /\ exists e, index (ce i) (j - 1) = Ok e /\ ccc < CCC e)
            /\ (pStarter i < q ->
                  exists e, index (ce i) (q - 1) = Ok e /\ CCC e <= ccc)
            /\ len (ce i') = len (ce i)
            /\ Permutation (ce i') (ce i)
            /\ (p = len (ce i) - 1 -> pStarter i < p ->
                (exists e, index (ce i) (p - 1) = Ok e /\ ccc < CCC e) ->
                i' = doNorm_spec i p ccc)).
Proof.
  intros i p ccc Hps Hp. split.
  - intro Hbig. apply doNorm_window_exceeded; [exact Hbig|].
    intro E. rewrite E in Hp. cbn in Hp. lia.
  - intro Hwin.
    destruct (doNorm_moves_block i ccc Hps Hp Hwin) as (q & Hq & Hqr & Hd).
    destruct (@doNorm_walk_spec (ce i) (pStarter i) ccc
                (Z.to_nat (p - 1 - pStarter i)) (p - 1))
      as (q' & Hq' & _ & _ & Hpass & Hstop); try lia.
    assert (q' = q) by congruence. subst q'.
    assert (Hrange : (Z.to_nat q <= Z.to_nat p <= length (ce i))%nat)
      by (unfold len in Hp; lia).
    exists q, (with_ce i (move_block (ce i) (Z.to_nat q) (Z.to_nat p))).
    split; [exact Hd|]. split; [reflexivity|]. split; [exact Hqr|].
    split; [exact Hpass|]. split; [exact Hstop|].
    split; [cbn [ce with_ce]; unfold len; now rewrite move_block_length|].
    split; [cbn [ce with_ce]; now apply move_block_Permutation|].
    intros Hlast Hstart (e & He & Hlt).
    unfold doNorm_spec.
    destruct (Z.ltb_spec maxCombiningCharacters (p - pStarter i)); [lia|].
    rewrite <- Hlast.
    assert (Hsw : doNorm_spec_walk (Z.to_nat p) (ce i) (pStarter i) ccc p = q).
    { destruct (Z.to_nat p) as [|m] eqn:Em; [lia|].
      cbn [doNorm_spec_walk].
      destruct (Z.ltb_spec (pStarter i) p); [|lia].
      rewrite He. destruct (Z.ltb_spec ccc (CCC e)); [|lia]. cbn [andb].
      apply (@doNorm_walk_is_spec_walk (ce i) (pStarter i) ccc
               (Z.to_nat (p - 1 - pStarter i)) m (p - 1) q); [lia|lia|exact Hq]. }
    rewrite Hsw. f_equal.
    apply move_last_is_rotate; [lia|]. unfold len in Hlast. lia.
Qed.

(** ** What the iterator methods leave alone *)

Lemma next_unfold (fuel : nat) (i : iter) :
  next fuel i =
  if done i then
    if len (ce i) =? nce i then Ok (false, i)
    else Ok (true, with_nce i (len (ce i)))
  else
    match fuel with
    | O => OutOfFuel
    | S fuel' =>
        let p0 := len (ce i) in
        let '(sz, i1) := appendNext i in
        i2 <- tail i1 sz ;;
        let last := len (ce i2) - 1 in
        e <- index (ce i2) last ;;
        let ccc := CCC e in
        if ccc =? 0 then
          Ok (true, with_prevCCC (with_pStarter (with_nce i2 (len (ce i2))) last) 0)
        else
          starts0 <- (if p0 <? last
                      then e0 <- index (ce i2) p0 ;; Ok (CCC e0 =? 0)
                      else Ok false) ;;
          if (starts0 : bool) then
            p1 <- next_skip (Z.to_nat (last - (p0 + 1))) (ce i2) (p0 + 1) last ;;
            Ok (true, with_prevCCC (with_pStarter (with_nce i2 p1) (p1 - 1)) ccc)
          else if ccc <? prevCCC i2 then
            i3 <- doNorm i2 p0 ccc ;; next fuel' i3
          else
            next fuel' (with_prevCCC i2 ccc)
    end.
Proof. destruct fuel; reflexivity. Qed.

Lemma nextPrimary_unfold (fuel : nat) (i : iter) :
  nextPrimary fuel i =
  '(v, i1) <- scan (Z.to_nat (nce i - pce i)) Primary pce (nce i) i ;;
  if v =? 0 then
    match fuel with
    | O => OutOfFuel
    | S fuel' =>
        '(more, i2) <- next fuel' i1 ;;
        if (more : bool) then nextPrimary fuel' i2 else Ok (0, i2)
    end
  else Ok (v, i1).
Proof. destruct fuel; reflexivity. Qed.

Lemma doNorm_frame (i i' : iter) (p ccc : Z) :
  doNorm i p ccc = Ok i' ->
  bytes i' = bytes i /\ pce i' = pce i /\ nce i' = nce i /\ it i' = it i.
Proof.
  unfold doNorm. intro H.
  destruct (maxCombiningCharacters <? p - pStarter i).
  - bind_inv H. ok_inv H. cbn. auto.
  - do 5 bind_inv H. ok_inv H. cbn. auto.
Qed.

Lemma tail_frame (i i' : @iter Elem) (n : Z) :
  tail i n = Ok i' ->
  ce i' = ce i /\ pce i' = pce i /\ nce i' = nce i /\ it i' = it i
  /\ prevCCC i' = prevCCC i /\ pStarter i' = pStarter i.
Proof.
  unfold tail. intro H. bind_inv H. ok_inv H. cbn. auto 6.
Qed.

Lemma next_frame :
  forall (fuel : nat) (i : iter) (b : bool) (i' : iter),
    next fuel i = Ok (b, i') -> pce i' = pce i /\ it i' = it i.
Proof.
  induction fuel as [|fuel IH]; intros i b i' H; rewrite next_unfold in H.
  - destruct (done i); [|discriminate].
    destruct (len (ce i) =? nce i); ok_inv H; cbn; auto.
  - destruct (done i).
    { destruct (len (ce i) =? nce i); ok_inv H; cbn; auto. }
    cbv zeta in H. unfold appendNext in H.
    destruct (AppendNext (it i) (ce i) (bytes i)) as [l sz].
    bind_inv_as H Etl. apply tail_frame in Etl. cbn in Etl.
    destruct Etl as (_ & Ep & _ & Et & _).
    bind_inv_as H Elast.
    destruct (CCC a0 =? 0).
    { ok_inv H. cbn. auto. }
    bind_inv_as H Est. destruct a1.
    { bind_inv_as H Esk. ok_inv H. cbn. auto. }
    destruct (CCC a0 <? prevCCC a).
    + bind_inv_as H En. apply doNorm_frame in En. destruct En as (_ & Ep2 & _ & Et2).
      apply IH in H. destruct H as [Hp Ht]. split; congruence.
    + apply IH in H. cbn in H. destruct H as [Hp Ht]. split; congruence.
Qed.

Lemma scan_effect (w : Elem -> Z) (pos : iter -> Z) (hi : Z) :
  forall (n : nat) (i : iter) (v : Z) (i' : iter),
    scan n w pos hi i = Ok (v, i') ->
    i' = with_pce i (pce i') /\ pce i <= pce i'.
Proof.
  induction n as [|n IH]; intros i v i' H; cbn [scan] in H.
  - injection H as Hv Hi. subst v i'. destruct i; cbn. split; [reflexivity|lia].
  - destruct (pce i <? hi).
    + bind_inv H. destruct (w a =? 0).
      * apply IH in H. cbn in H. destruct H as [Hi Hp]. split; [exact Hi|lia].
      * injection H as Hv Hi. subst v i'. cbn. split; [reflexivity|lia].
    + injection H as Hv Hi. subst v i'. destruct i; cbn. split; [reflexivity|lia].
Qed.

Lemma nextPrimary_frame :
  forall (fuel : nat) (i : iter) (v : Z) (i' : iter),
    nextPrimary fuel i = Ok (v, i') -> pce i <= pce i' /\ it i' = it i.
Proof.
  induction fuel as [|fuel IH]; intros i v i' H; rewrite nextPrimary_unfold in H;
    bind_inv H; destruct a as [v1 i1]; apply scan_effect in E;
    destruct E as [Ei Ep]; destruct (v1 =? 0).
  - discriminate.
  - injection H as Hv Hi. subst v i'. split; [exact Ep|]. rewrite Ei. reflexivity.
  - bind_inv_as H En. destruct a as [more i2]. apply next_frame in En.
    destruct En as [Ep2 Et2]. destruct more.
    + apply IH in H. destruct H as [Hp Ht]. split; [lia|].
      rewrite Ht, Et2, Ei. reflexivity.
    + injection H as Hv Hi. subst v i'. split; [lia|]. rewrite Et2, Ei. reflexivity.
  - injection H as Hv Hi. subst v i'. split; [exact Ep|]. rewrite Ei. reflexivity.
Qed.

(** The bound on the turns of [scan] is enough: it answers 0 only with the
    cursor at the end of the window. *)
Lemma scan_exhausts (w : Elem -> Z) (pos : iter -> Z) (hi : Z) :
  forall (n : nat) (i i' : iter),
    (Z.to_nat (hi - pce i) <= n)%nat ->
    scan n w pos hi i = Ok (0, i') -> hi <= pce i'.
Proof.
  induction n as [|n IH]; intros i i' Hn H; cbn [scan] in H.
  - injection H as <-. lia.
  - destruct (Z.ltb_spec (pce i) hi) as [Hlt|Hge].
    + bind_inv H. destruct (Z.eqb_spec (w a) 0) as [Hz|Hnz].
      * apply IH in H; [exact H|]. cbn. lia.
      * injection H as Hv _. contradiction.
    + injection H as <-. exact Hge.
Qed.

(** Likewise for the skip over the starters of a new block: it stops at
    [last] or at an element that is not a starter. *)
Lemma next_skip_stops (l : list Elem) (last : Z) :
  forall (n : nat) (p0 p1 : Z),
    (Z.to_nat (last - p0) <= n)%nat ->
    next_skip n l p0 last = Ok p1 ->
    last <= p1 \/ exists e, index l p1 = Ok e /\ CCC e <> 0.
Proof.
  induction n as [|n IH]; intros p0 p1 Hn H; cbn [next_skip] in H.
  - injection H as <-. left. lia.
  - destruct (Z.ltb_spec p0 last) as [Hlt|Hge].
    + bind_inv H. destruct (Z.eqb_spec (CCC a) 0) as [Hz|Hnz].
      * apply IH in H; [exact H|lia].
      * injection H as <-. right. now exists a.
    + injection H as <-. left. exact Hge.
Qed.

(** The cursor of a reachable iterator is never negative: it is set to
    zero or incremented. *)
Lemma reachable_pce_nonneg (i : iter) : reachable i -> 0 <= pce i.
Proof.
  induction 1 as [w | i s _ IH | fuel i b i' _ IH Hn | i _ IH
                  | fuel i v i' _ IH Hn | i v i' _ IH Hn | i v i' _ IH Hn
                  | i v i' _ IH Hn | i v i' _ IH Hn | i vw top _ IH].
  - cbn. lia.
  - exact IH.
  - apply next_frame in Hn. destruct Hn as [Hp _]. lia.
  - cbn. lia.
  - apply nextPrimary_frame in Hn. lia.
  - apply scan_effect in Hn. lia.
  - apply scan_effect in Hn. lia.
  - apply scan_effect in Hn. lia.
  - apply scan_effect in Hn. lia.
  - exact IH.
Qed.

(** ** The walkers never read outside the buffer *)

Lemma scan_total (w : Elem -> Z) (pos : iter -> Z) (hi : Z) :
  forall (n : nat) (i : iter),
    (forall p, pce i <= p < hi -> 0 <= pos (with_pce i p) < len (ce i)) ->
    exists v i',
      scan n w pos hi i = Ok (v, i')
      /\ i' = with_pce i (pce i') /\ pce i <= pce i'
      /\ (v <> 0 -> pce i < pce i' <= hi).
Proof.
  induction n as [|n IH]; intros i Hpos; cbn [scan].
  - exists 0, i. destruct i; cbn. repeat split; try lia.
  - destruct (Z.ltb_spec (pce i) hi) as [Hlt|Hge].
    + assert (Hin : 0 <= pos i < len (ce i)).
      { specialize (Hpos (pce i)). destruct i; cbn in *. apply Hpos. lia. }
      destruct (index_total (ce i) Hin) as [e He]. rewrite He. cbn [bind].
      destruct (Z.eqb_spec (w e) 0) as [Hz|Hnz].
      * destruct (IH (with_pce i (pce i + 1))) as (v & i' & Hs & Hi & Hp & Hv).
        { intros p Hp. cbn in Hp |- *. apply Hpos. lia. }
        exists v, i'. split; [exact Hs|]. cbn in Hi, Hp, Hv.
        split; [exact Hi|]. split; [lia|]. intro Hne. specialize (Hv Hne). lia.
      * exists (w e), (with_pce i (pce i + 1)). cbn.
        repeat split; try lia.
    + exists 0, i. destruct i; cbn. repeat split; try lia.
Qed.

Lemma prevSecondary_in_bounds (i : iter) :
  0 <= pce i ->
  exists v i',
    prevSecondary i = Ok (v, i')
    /\ i' = with_pce i (pce i') /\ pce i <= pce i'
    /\ (v <> 0 -> pce i < pce i' <= len (ce i)).
Proof.
  intro Hp. unfold prevSecondary. apply scan_total.
  intros p Hr. cbn. lia.
Qed.

(** C10 (as the code has it): in every reachable iterator state the cursor
    is non-negative, so the index [len(buf)-pce-1] that [prevSecondary]
    reads under the guard [pce < len(buf)] lies in [0, len(buf)): the walker
    returns a weight and a reachable state, and never faults, whether or not
    some secondary weights are zero. *)
Theorem prevSecondary_never_out_of_range :
  forall i : iter,
    reachable i ->
    (forall p, 0 <= p < len (ce i) ->
       exists e, index (ce i) (len (ce i) - p - 1) = Ok e)
    /\ exists v i',
         prevSecondary i = Ok (v, i') /\ reachable i'
         /\ ce i' = ce i /\ pce i <= pce i'.
Proof.
  intros i Hr. split.
  - intros p Hp. apply index_total. lia.
  - destruct (prevSecondary_in_bounds i (reachable_pce_nonneg Hr))
      as (v & i' & Hs & Hi & Hp & _).
    exists v, i'. split; [exact Hs|]. split.
    + eapply reach_prevSecondary; eassumption.
    + split; [|exact Hp]. rewrite Hi. reflexivity.
Qed.

(** ** The layout of a key *)

Lemma appendPrimary_app (k : list Z) (p : Z) :
  appendPrimary k p = k ++ appendPrimary [] p.
Proof. unfold appendPrimary. destruct (p <=? 0x7FFF); reflexivity. Qed.

Lemma fold_put_primary (ws : list Elem) :
  forall k, fold_left put_primary ws k = k ++ primary_section ws.
Proof.
  induction ws as [|v ws IH]; intro k; cbn [fold_left primary_section flat_map].
  - now rewrite app_nil_r.
  - rewrite IH. unfold put_primary. fold (primary_section ws).
    destruct (0 <? Primary v).
    + rewrite appendPrimary_app, <- app_assoc. reflexivity.
    + reflexivity.
Qed.

Lemma fold_put_secondary (ws : list Elem) :
  forall k, fold_left put_secondary ws k = k ++ secondary_section ws.
Proof.
  induction ws as [|v ws IH]; intro k; cbn [fold_left secondary_section flat_map].
  - now rewrite app_nil_r.
  - rewrite IH. unfold put_secondary. fold (secondary_section ws).
    cbv zeta. destruct (0 <? Secondary v).
    + rewrite <- app_assoc. reflexivity.
    + reflexivity.
Qed.

Lemma fold_put_tertiary (ws : list Elem) :
  forall k, fold_left put_tertiary ws k = k ++ tertiary_section ws.
Proof.
  induction ws as [|v ws IH]; intro k; cbn [fold_left tertiary_section flat_map].
  - now rewrite app_nil_r.
  - rewrite IH. unfold put_tertiary. fold (tertiary_section ws).
    cbv zeta. destruct (0 <? Tertiary v).
    + rewrite <- app_assoc. reflexivity.
    + reflexivity.
Qed.

Lemma fold_put_quaternary (ws : list Elem) :
  forall k, fold_left put_quaternary ws k = k ++ quaternary_section ws.
Proof.
  induction ws as [|v ws IH]; intro k; cbn [fold_left quaternary_section flat_map].
  - now rewrite app_nil_r.
  - rewrite IH. unfold put_quaternary. fold (quaternary_section ws).
    cbv zeta. destruct (Quaternary v =? MaxQuaternary).
    + rewrite <- app_assoc. reflexivity.
    + destruct (0 <? Quaternary v).
      * rewrite appendPrimary_app, <- app_assoc. reflexivity.
      * reflexivity.
Qed.

Lemma quaternary_section_cons (v : Elem) (ws : list Elem) :
  quaternary_section (v :: ws) = quaternary_section [v] ++ quaternary_section ws.
Proof.
  unfold quaternary_section. cbn [flat_map]. now rewrite app_nil_r.
Qed.

Lemma quaternary_section_single (v : Elem) :
  quaternary_section [v]
  = if Quaternary v =? MaxQuaternary then [0xFF]
    else if 0 <? Quaternary v then appendPrimary [] (Quaternary v) else [].
Proof. unfold quaternary_section. cbn [flat_map]. now rewrite app_nil_r. Qed.

(** The trimmed loop: the key receives the whole quaternary section, and
    [lastNonFFFF] ends up behind the last quaternary written with the
    primary encoding, or where it started if there is none. *)
Lemma fold_put_quaternary_trim (ws : list Elem) :
  forall k lst,
    fold_left put_quaternary_trim ws (k, lst)
    = (k ++ quaternary_section ws,
       match trim_elems ws with
       | [] => lst
       | r => len (k ++ quaternary_section r)
       end).
Proof.
  induction ws as [|v ws IH]; intros k lst.
  - cbn. now rewrite app_nil_r.
  - cbn [fold_left]. unfold put_quaternary_trim at 2. cbv zeta.
    rewrite (quaternary_section_cons v ws), quaternary_section_single.
    cbn [trim_elems]. unfold plain_quaternary.
    destruct (Quaternary v =? MaxQuaternary) eqn:Emax;
      [|destruct (0 <? Quaternary v) eqn:Epos];
      cbn [negb andb]; rewrite IH;
      destruct (trim_elems ws) as [|r0 r];
      rewrite ?(quaternary_section_cons v (r0 :: r)), ?quaternary_section_single,
        ?Emax, ?Epos, ?(appendPrimary_app k), ?app_nil_r, <- ?app_assoc;
      reflexivity.
Qed.

Lemma trim_elems_prefix (ws : list Elem) :
  exists rest, ws = trim_elems ws ++ rest.
Proof.
  induction ws as [|v ws [rest IH]].
  - now exists [].
  - cbn [trim_elems]. destruct (trim_elems ws) as [|r0 r].
    + destruct (plain_quaternary v).
      * exists ws. reflexivity.
      * exists (v :: ws). reflexivity.
    + exists rest. rewrite IH at 1. reflexivity.
Qed.

Lemma quaternary_section_app (l1 l2 : list Elem) :
  quaternary_section (l1 ++ l2) = quaternary_section l1 ++ quaternary_section l2.
Proof. unfold quaternary_section. apply flat_map_app. Qed.

Lemma firstn_len_app {A : Type} (l1 l2 : list A) :
  firstn (Z.to_nat (len l1)) (l1 ++ l2) = l1.
Proof.
  unfold len. rewrite Nat2Z.id, firstn_app, Nat.sub_diag, firstn_all.
  cbn. now rewrite app_nil_r.
Qed.

Lemma keyFromElems_layout (c : Collator) (buf : Buffer) (ws : list Elem) :
  key (keyFromElems c buf ws) = key buf ++ key_layout c ws.
Proof.
  unfold keyFromElems, key_layout, has_secondary, has_tertiary, has_quaternary, ordered.
  cbn [key]. rewrite fold_put_primary.
  set (k0 := key buf ++ primary_section ws).
  assert (Halt : (AlternateHandling_rank AltShifted <=? AlternateHandling_rank (Alternate c))
                 = Alternate_eqb (Alternate c) AltShifted
                   || Alternate_eqb (Alternate c) AltShiftTrimmed)
    by (destruct (Alternate c); reflexivity).
  rewrite Halt. clear Halt.
  rewrite (app_assoc (key buf) (primary_section ws)). fold k0.
  rewrite (app_assoc k0).
  set (k1 := k0 ++ (if colltab.leb colltab.Secondary (Strength c)
                    then [0; 0] ++ secondary_section (if Backwards c then rev ws else ws)
                    else if CaseLevel c then [0; 0] else [])).
  assert (Hk1 : (if colltab.leb colltab.Secondary (Strength c)
                 then if negb (Backwards c)
                      then fold_left put_secondary ws (k0 ++ [0; 0])
                      else fold_left put_secondary (rev ws) (k0 ++ [0; 0])
                 else if CaseLevel c then k0 ++ [0; 0] else k0) = k1).
  { unfold k1. destruct (colltab.leb colltab.Secondary (Strength c)).
    - destruct (Backwards c); cbn [negb]; rewrite fold_put_secondary, <- app_assoc;
        reflexivity.
    - destruct (CaseLevel c); [reflexivity|now rewrite app_nil_r]. }
  rewrite Hk1. clear Hk1.
  destruct (colltab.leb colltab.Tertiary (Strength c) || CaseLevel c);
    [|now rewrite app_nil_r].
  rewrite fold_put_tertiary.
  destruct (colltab.leb colltab.Quaternary (Strength c)
            && (Alternate_eqb (Alternate c) AltShifted
                || Alternate_eqb (Alternate c) AltShiftTrimmed)).
  - destruct (Alternate_eqb (Alternate c) AltShiftTrimmed).
    + rewrite fold_put_quaternary_trim.
      set (k2 := (k1 ++ [0; 0]) ++ tertiary_section ws).
      destruct (trim_elems_prefix ws) as [rest Hrest].
      destruct (trim_elems ws) as [|r0 r] eqn:Etrim.
      * rewrite <- app_assoc, firstn_len_app. unfold k2.
        rewrite app_nil_r, <- app_assoc. reflexivity.
      * rewrite Hrest at 1. rewrite quaternary_section_app, app_assoc.
        rewrite firstn_len_app. unfold k2.
        rewrite <- !app_assoc. reflexivity.
    + rewrite fold_put_quaternary. rewrite <- !app_assoc. reflexivity.
  - rewrite app_nil_r, <- app_assoc. reflexivity.
Qed.

(** C5 (as the code has it): after the primary section the encoder writes
    0x00 0x00 and the secondary section when the strength reaches Secondary,
    and a bare 0x00 0x00 when only the case level is set; then, when the
    strength reaches Tertiary or the case level is set, 0x00 0x00 and the
    tertiary section; then, when the strength reaches Quaternary under
    Shifted or ShiftTrimmed, one byte 0x00 and the quaternary section, which
    ShiftTrimmed cuts behind the last weight other than 0xFF, separator
    included when there is none.  The layout is that of section 4.6 whenever
    no quaternary section is due and the case level is not set alone. *)
Theorem keyFromElems_separators :
  forall (c : Collator) (buf : Buffer) (ws : list Elem),
    key (keyFromElems c buf ws) = key buf ++ key_layout c ws
    /\ (has_quaternary c = false ->
        (CaseLevel c = true -> has_secondary c = true) ->
        key (keyFromElems c buf ws) = key buf ++ key_spec c ws).
Proof.
  intros c buf ws. split; [apply keyFromElems_layout|].
  intros Hq Hcl. rewrite keyFromElems_layout. f_equal.
  unfold key_layout, key_spec. rewrite Hq.
  destruct (has_secondary c) eqn:Hs.
  - destruct (has_tertiary c); now rewrite ?app_nil_r.
  - destruct (CaseLevel c) eqn:Ecl.
    + specialize (Hcl eq_refl). discriminate.
    + destruct (has_tertiary c); now rewrite ?app_nil_r.
Qed.

(** ** The cursor left by an earlier call does not matter *)

Lemma doNorm_with_pce (i : iter) (p ccc q : Z) :
  doNorm (with_pce i q) p ccc = result_map (fun i' => with_pce i' q) (doNorm i p ccc).
Proof.
  unfold doNorm. cbn [pStarter ce with_pce].
  destruct (maxCombiningCharacters <? p - pStarter i).
  - destruct (index (ce i) (len (ce i) - 1)); reflexivity.
  - destruct (doNorm_walk _ _ _ _ _) as [p'| |]; cbn [bind result_map]; try reflexivity.
    destruct (slice (ce i) p' p) as [blk| |]; cbn [bind result_map]; try reflexivity.
    destruct (slice_from (ce i ++ blk) p) as [src| |]; cbn [bind result_map];
      try reflexivity.
    destruct (slice_from (ce i ++ blk) p'); cbn [bind result_map]; try reflexivity.
    destruct (slice _ 0 (len (ce i))); reflexivity.
Qed.

Lemma next_with_pce :
  forall (fuel : nat) (i : iter) (q : Z),
    next fuel (with_pce i q)
    = result_map (fun r => (fst r, with_pce (snd r) q)) (next fuel i).
Proof.
  induction fuel as [|fuel IH]; intros i q; rewrite !next_unfold;
    unfold done; cbn [bytes ce nce with_pce].
  - destruct (bytes i); [|reflexivity].
    destruct (len (ce i) =? nce i); reflexivity.
  - destruct (bytes i) as [|b0 bs] eqn:Eb.
    { destruct (len (ce i) =? nce i); reflexivity. }
    cbv zeta. unfold appendNext. cbn [it ce bytes with_pce]. rewrite ?Eb.
    destruct (AppendNext (it i) (ce i) (b0 :: bs)) as [l sz].
    unfold tail. cbn [bytes with_ce with_pce]. rewrite ?Eb.
    destruct (slice_from (b0 :: bs) sz) as [s'| |]; cbn [bind result_map];
      try reflexivity.
    cbn [ce with_bytes with_ce with_pce].
    destruct (index l (len l - 1)) as [e| |]; cbn [bind result_map]; try reflexivity.
    destruct (CCC e =? 0); [reflexivity|].
    destruct (if len (ce i) <? len l - 1
              then e0 <- index l (len (ce i));; Ok (CCC e0 =? 0)
              else Ok false) as [st| |]; cbn [bind result_map]; try reflexivity.
    destruct st.
    + destruct (next_skip _ _ _ _); reflexivity.
    + change (prevCCC (with_bytes (with_ce (with_pce i q) l) s')) with (prevCCC i).
      change (prevCCC (with_bytes (with_ce i l) s')) with (prevCCC i).
      destruct (CCC e <? prevCCC i).
      * match goal with
        | |- bind (doNorm ?x _ _) _ = _ =>
            change x with (with_pce (with_bytes (with_ce i l) s') q)
        end.
        rewrite doNorm_with_pce.
        match goal with
        | |- _ = result_map _ (bind (doNorm ?x _ _) _) =>
            change x with (with_bytes (with_ce i l) s')
        end.
        destruct (doNorm (with_bytes (with_ce i l) s') (len (ce i)) (CCC e));
          cbn [bind result_map]; try reflexivity.
        apply IH.
      * match goal with
        | |- next fuel ?x = _ =>
            change x with (with_pce (with_prevCCC (with_bytes (with_ce i l) s') (CCC e)) q)
        end.
        rewrite IH. reflexivity.
Qed.

Lemma drain_with_pce :
  forall (fuel : nat) (i : iter) (q : Z),
    drain fuel (with_pce i q) = result_map (fun i' => with_pce i' q) (drain fuel i).
Proof.
  induction fuel as [|fuel IH]; intros i q; cbn [drain]; [reflexivity|].
  rewrite next_with_pce.
  destruct (next fuel i) as [[more i']| |]; cbn [bind result_map fst snd]; try reflexivity.
  destruct more; [apply IH|reflexivity].
Qed.

Lemma compareLevel_with_pce (fuel : nat)
  (f : @iter Elem -> result (Z * @iter Elem)) (a b : @iter Elem) (p q : Z) :
  compareLevel fuel f (with_pce a p) (with_pce b q) = compareLevel fuel f a b.
Proof. reflexivity. Qed.

Lemma compareLevel_congr (fuel : nat)
  (f : @iter Elem -> result (Z * @iter Elem)) (a b a' b' : @iter Elem) :
  with_pce a 0 = with_pce a' 0 -> with_pce b 0 = with_pce b' 0 ->
  compareLevel fuel f a b = compareLevel fuel f a' b'.
Proof. unfold compareLevel. now intros -> ->. Qed.

Lemma compare_settings (fuel : nat) (c c1 : Collator) (r : Z) :
  compare fuel c = Ok (r, c1) ->
  exists ia ib, c1 = with_iters c ia ib.
Proof.
  unfold compare. intro H.
  repeat match type of H with
         | bind ?m _ = Ok _ =>
             destruct m as [[[? ?] ?]| |]; cbn [bind] in H; try discriminate H
         | (if ?b then _ else _) = Ok _ => destruct b
         end;
    injection H as _ <-; eauto.
Qed.

(** [compare] reads its iterators only through [compareLevel], which
    rewinds the cursor first. *)
Lemma compare_congr (fuel : nat) (c c' : Collator) :
  same_settings c c' ->
  with_pce (_iter0 c) 0 = with_pce (_iter0 c') 0 ->
  with_pce (_iter1 c) 0 = with_pce (_iter1 c') 0 ->
  result_map fst (compare fuel c) = result_map fst (compare fuel c').
Proof.
  intros (Hs & Ha & Hb & Hc & _) H0 H1. unfold compare.
  rewrite <- Hs, <- Ha, <- Hb, <- Hc.
  rewrite <- !(compareLevel_congr fuel _ H0 H1).
  destruct (negb (Alternate_eqb (Alternate c) AltShifted)).
  - destruct (compareLevel fuel (nextPrimary fuel) (_iter0 c) (_iter1 c))
      as [[[r ia] ib]| |]; cbn [bind result_map]; try reflexivity.
    destruct (negb (r =? 0)); [reflexivity|].
    destruct (colltab.leb colltab.Secondary (Strength c)).
    + destruct (compareLevel fuel _ ia ib) as [[[r2 ia2] ib2]| |];
        cbn [bind result_map]; try reflexivity.
      destruct (negb (r2 =? 0)); [reflexivity|].
      destruct (colltab.leb colltab.Tertiary (Strength c) || CaseLevel c);
        [|reflexivity].
      destruct (compareLevel fuel nextTertiary ia2 ib2) as [[[r3 ia3] ib3]| |];
        cbn [bind result_map]; try reflexivity.
      destruct (negb (r3 =? 0)); [reflexivity|].
      destruct (colltab.leb colltab.Quaternary (Strength c)); [|reflexivity].
      destruct (compareLevel fuel nextQuaternary ia3 ib3) as [[[r4 ia4] ib4]| |];
        cbn [bind result_map]; try reflexivity.
      destruct (negb (r4 =? 0)); reflexivity.
    + cbn [bind]. cbn [Z.eqb negb].
      destruct (colltab.leb colltab.Tertiary (Strength c) || CaseLevel c);
        [|reflexivity].
      destruct (compareLevel fuel nextTertiary ia ib) as [[[r3 ia3] ib3]| |];
        cbn [bind result_map]; try reflexivity.
      destruct (negb (r3 =? 0)); [reflexivity|].
      destruct (colltab.leb colltab.Quaternary (Strength c)); [|reflexivity].
      destruct (compareLevel fuel nextQuaternary ia3 ib3) as [[[r4 ia4] ib4]| |];
        cbn [bind result_map]; try reflexivity.
      destruct (negb (r4 =? 0)); reflexivity.
  - cbn [bind]. cbn [Z.eqb negb].
    destruct (colltab.leb colltab.Secondary (Strength c)).
    + rewrite <- !(compareLevel_congr fuel _ H0 H1).
      destruct (compareLevel fuel _ (_iter0 c) (_iter1 c)) as [[[r2 ia2] ib2]| |];
        cbn [bind result_map]; try reflexivity.
      destruct (negb (r2 =? 0)); [reflexivity|].
      destruct (colltab.leb colltab.Tertiary (Strength c) || CaseLevel c);
        [|reflexivity].
      destruct (compareLevel fuel nextTertiary ia2 ib2) as [[[r3 ia3] ib3]| |];
        cbn [bind result_map]; try reflexivity.
      destruct (negb (r3 =? 0)); [reflexivity|].
      destruct (colltab.leb colltab.Quaternary (Strength c)); [|reflexivity].
      destruct (compareLevel fuel nextQuaternary ia3 ib3) as [[[r4 ia4] ib4]| |];
        cbn [bind result_map]; try reflexivity.
      destruct (negb (r4 =? 0)); reflexivity.
    + cbn [bind]. cbn [Z.eqb negb].
      destruct (colltab.leb colltab.Tertiary (Strength c) || CaseLevel c);
        [|reflexivity].
      rewrite <- !(compareLevel_congr fuel _ H0 H1).
      destruct (compareLevel fuel nextTertiary (_iter0 c) (_iter1 c))
        as [[[r3 ia3] ib3]| |]; cbn [bind result_map]; try reflexivity.
      destruct (negb (r3 =? 0)); [reflexivity|].
      destruct (colltab.leb colltab.Quaternary (Strength c)); [|reflexivity].
      destruct (compareLevel fuel nextQuaternary ia3 ib3) as [[[r4 ia4] ib4]| |];
        cbn [bind result_map]; try reflexivity.
      destruct (negb (r4 =? 0)); reflexivity.
Qed.

Lemma setInput_with_pce (i i' : @iter Elem) (s : list Z) :
  it i = it i' -> with_pce (setInput i s) 0 = with_pce (setInput i' s) 0.
Proof. intro H. destruct i, i'. cbn in H. subst. reflexivity. Qed.

Lemma Compare_congr (fuel : nat) (c c' : Collator) (a b : list Z) :
  same_settings c c' ->
  it (_iter0 c) = it (_iter0 c') -> it (_iter1 c) = it (_iter1 c') ->
  result_map fst (Compare fuel c a b) = result_map fst (Compare fuel c' a b).
Proof.
  intros Hs H0 H1. unfold Compare.
  set (c0 := with_iters c (setInput (_iter0 c) a) (setInput (_iter1 c) b)).
  set (c0' := with_iters c' (setInput (_iter0 c') a) (setInput (_iter1 c') b)).
  assert (Hc : result_map fst (compare fuel c0) = result_map fst (compare fuel c0')).
  { apply compare_congr.
    - exact Hs.
    - apply setInput_with_pce, H0.
    - apply setInput_with_pce, H1. }
  destruct (compare fuel c0) as [[r c1]| |] eqn:E;
    destruct (compare fuel c0') as [[r' c1']| |] eqn:E';
    cbn [result_map fst] in Hc; try discriminate Hc; cbn [bind result_map];
    try reflexivity.
  injection Hc as <-.
  apply compare_settings in E. destruct E as (ia & ib & ->).
  apply compare_settings in E'. destruct E' as (ia' & ib' & ->).
  cbn [Strength with_iters c0 c0']. destruct Hs as (Hs & _). rewrite <- Hs.
  destruct (negb (r =? 0)); [reflexivity|].
  destruct (colltab.eqb colltab.Identity (Strength c)); reflexivity.
Qed.

Lemma keyFromElems_congr (c c' : Collator) (buf : Buffer) (ws : list Elem) :
  same_settings c c' -> keyFromElems c buf ws = keyFromElems c' buf ws.
Proof.
  intros (Hs & Ha & Hb & Hc & _). unfold keyFromElems.
  now rewrite Hs, Ha, Hb, Hc.
Qed.

Lemma Key_congr (fuel : nat) (c c' : Collator) (buf : Buffer) (str : list Z) :
  same_settings c c' -> it (_iter0 c) = it (_iter0 c') ->
  result_map fst (Key fuel c buf str) = result_map fst (Key fuel c' buf str).
Proof.
  intros Hs H0. unfold Key, getColElems, Buffer_init.
  assert (Hi : setInput (_iter0 c) str
               = with_pce (setInput (_iter0 c') str) (pce (_iter0 c))).
  { destruct (_iter0 c), (_iter0 c'). cbn in H0. subst. reflexivity. }
  rewrite Hi, drain_with_pce.
  destruct (drain fuel (setInput (_iter0 c') str)) as [i| |];
    cbn [bind result_map]; try reflexivity.
  unfold Collator_key. cbn [ce with_pce Alternate t with_iters].
  destruct Hs as (Hs & Ha & Hb & Hc & Ht). rewrite Ha, Ht.
  rewrite (@keyFromElems_congr (with_iters c (with_pce i (pce (_iter0 c))) (_iter1 c))
             (with_iters c' i (_iter1 c')))
    by (repeat split; assumption).
  destruct (slice_from _ _); reflexivity.
Qed.

(** ** Exchanging the two inputs *)

Lemma opp_eqb_0 (r : Z) : (- r =? 0) = (r =? 0).
Proof. destruct r; reflexivity. Qed.

Lemma compareLevel_loop_swap (f : @iter Elem -> result (Z * @iter Elem)) :
  forall (fuel : nat) (a b a' b' : @iter Elem) (r : Z),
    compareLevel_loop fuel f a b = Ok (r, a', b') ->
    compareLevel_loop fuel f b a = Ok (- r, b', a').
Proof.
  induction fuel as [|fuel IH]; intros a b a' b' r H; cbn [compareLevel_loop] in H |- *.
  - discriminate.
  - bind_inv_as H Ea. destruct a0 as [va a1].
    bind_inv_as H Eb. destruct a0 as [vb b1]. cbn [bind].
    rewrite (Z.eqb_sym vb va).
    destruct (Z.eqb_spec va vb) as [Heq|Hne]; cbn [negb] in H |- *.
    + subst vb. destruct (va =? 0).
      * injection H as <- <- <-. reflexivity.
      * apply IH, H.
    + destruct (Z.ltb_spec va vb), (Z.ltb_spec vb va); try lia;
        injection H as <- <- <-; reflexivity.
Qed.

Lemma compareLevel_swap (f : @iter Elem -> result (Z * @iter Elem))
  (fuel : nat) (a b a' b' : @iter Elem) (r : Z) :
  compareLevel fuel f a b = Ok (r, a', b') ->
  compareLevel fuel f b a = Ok (- r, b', a').
Proof. unfold compareLevel. apply compareLevel_loop_swap. Qed.

Ltac swap_stage H :=
  match type of H with
  | bind (compareLevel ?fuel ?f ?a ?b) _ = Ok _ =>
      let E := fresh "E" in
      destruct (compareLevel fuel f a b) as [[[? ?] ?]| |] eqn:E;
      cbn [bind] in H; try discriminate H;
      apply compareLevel_swap in E; rewrite E; cbn [bind]; rewrite ?opp_eqb_0
  end.

Ltac swap_done H := injection H as <- <-; reflexivity.

Lemma compare_swap (fuel : nat) (c c1 : Collator) (r : Z) :
  compare fuel c = Ok (r, c1) ->
  compare fuel (swap_iters c) = Ok (- r, swap_iters c1).
Proof.
  unfold compare. cbn [swap_iters Strength Alternate Backwards CaseLevel
                       _iter0 _iter1 with_iters]. intro H.
  assert (Hlast : forall ia ib,
    (if colltab.leb colltab.Tertiary (Strength c) || CaseLevel c
     then '(res, ia, ib) <- compareLevel fuel nextTertiary ia ib;;
          (if negb (res =? 0) then Ok (res, with_iters c ia ib)
           else if colltab.leb colltab.Quaternary (Strength c)
                then '(res0, ia0, ib0) <- compareLevel fuel nextQuaternary ia ib;;
                     (if negb (res0 =? 0) then Ok (res0, with_iters c ia0 ib0)
                      else Ok (0, with_iters c ia0 ib0))
                else Ok (0, with_iters c ia ib))
     else Ok (0, with_iters c ia ib)) = Ok (r, c1) ->
    (if colltab.leb colltab.Tertiary (Strength c) || CaseLevel c
     then '(res, ia, ib) <- compareLevel fuel nextTertiary ib ia;;
          (if negb (res =? 0) then Ok (res, with_iters c ia ib)
           else if colltab.leb colltab.Quaternary (Strength c)
                then '(res0, ia0, ib0) <- compareLevel fuel nextQuaternary ia ib;;
                     (if negb (res0 =? 0) then Ok (res0, with_iters c ia0 ib0)
                      else Ok (0, with_iters c ia0 ib0))
                else Ok (0, with_iters c ia ib))
     else Ok (0, with_iters c ib ia)) = Ok (- r, with_iters c1 (_iter1 c1) (_iter0 c1))).
  { intros ia ib H3.
    destruct (colltab.leb colltab.Tertiary (Strength c) || CaseLevel c);
      [|swap_done H3].
    swap_stage H3. destruct (negb (z =? 0)); [swap_done H3|].
    destruct (colltab.leb colltab.Quaternary (Strength c)); [|swap_done H3].
    swap_stage H3. destruct (negb (z0 =? 0)); swap_done H3. }
  assert (Hsec : forall ia ib,
    ('(res, ia, ib) <-
       (if colltab.leb colltab.Secondary (Strength c)
        then compareLevel fuel (if Backwards c then prevSecondary else nextSecondary) ia ib
        else Ok (0, ia, ib));;
     (if negb (res =? 0) then Ok (res, with_iters c ia ib)
      else
        if colltab.leb colltab.Tertiary (Strength c) || CaseLevel c
        then '(res, ia, ib) <- compareLevel fuel nextTertiary ia ib;;
             (if negb (res =? 0) then Ok (res, with_iters c ia ib)
              else if colltab.leb colltab.Quaternary (Strength c)
                   then '(res0, ia0, ib0) <- compareLevel fuel nextQuaternary ia ib;;
                        (if negb (res0 =? 0) then Ok (res0, with_iters c ia0 ib0)
                         else Ok (0, with_iters c ia0 ib0))
                   else Ok (0, with_iters c ia ib))
        else Ok (0, with_iters c ia ib))) = Ok (r, c1) ->
    ('(res, ia, ib) <-
       (if colltab.leb colltab.Secondary (Strength c)
        then compareLevel fuel (if Backwards c then prevSecondary else nextSecondary) ib ia
        else Ok (0, ib, ia));;
     (if negb (res =? 0) then Ok (res, with_iters c ia ib)
      else
        if colltab.leb colltab.Tertiary (Strength c) || CaseLevel c
        then '(res, ia, ib) <- compareLevel fuel nextTertiary ia ib;;
             (if negb (res =? 0) then Ok (res, with_iters c ia ib)
              else if colltab.leb colltab.Quaternary (Strength c)
                   then '(res0, ia0, ib0) <- compareLevel fuel nextQuaternary ia ib;;
                        (if negb (res0 =? 0) then Ok (res0, with_iters c ia0 ib0)
                         else Ok (0, with_iters c ia0 ib0))
                   else Ok (0, with_iters c ia ib))
        else Ok (0, with_iters c ia ib)))
    = Ok (- r, with_iters c1 (_iter1 c1) (_iter0 c1))).
  { intros ia ib H2.
    destruct (colltab.leb colltab.Secondary (Strength c)).
    - swap_stage H2. destruct (negb (z =? 0)); [swap_done H2|].
      apply Hlast, H2.
    - cbn [bind] in H2 |- *. cbn [Z.eqb negb] in H2 |- *. apply Hlast, H2. }
  destruct (negb (Alternate_eqb (Alternate c) AltShifted)).
  - swap_stage H. destruct (negb (z =? 0)); [swap_done H|].
    apply Hsec, H.
  - cbn [bind] in H |- *. cbn [Z.eqb negb] in H |- *. apply Hsec, H.
Qed.

(** ** More fuel changes nothing *)

Lemma next_mono :
  forall (n : nat) (i : iter) (r : bool * iter),
    next n i = Ok r -> forall m, (n <= m)%nat -> next m i = Ok r.
Proof.
  induction n as [|n IH]; intros i r H m Hle; rewrite next_unfold in H;
    rewrite next_unfold; destruct (done i); try exact H; try discriminate H.
  destruct m as [|m]; [lia|]. cbv zeta in H |- *.
  destruct (appendNext i) as [sz i1].
  destruct (tail i1 sz) as [i2| |]; cbn [bind] in H |- *; try discriminate H.
  destruct (index (ce i2) (len (ce i2) - 1)) as [e| |]; cbn [bind] in H |- *;
    try discriminate H.
  destruct (CCC e =? 0); [exact H|].
  destruct (if len (ce i) <? len (ce i2) - 1
            then e0 <- index (ce i2) (len (ce i));; Ok (CCC e0 =? 0)
            else Ok false) as [st| |]; cbn [bind] in H |- *; try discriminate H.
  destruct st; [exact H|].
  destruct (CCC e <? prevCCC i2).
  - destruct (doNorm i2 (len (ce i)) (CCC e)) as [i3| |]; cbn [bind] in H |- *;
      try discriminate H.
    apply (IH _ _ H). lia.
  - apply (IH _ _ H). lia.
Qed.

Lemma nextPrimary_mono :
  forall (n : nat) (i : iter) (r : Z * iter),
    nextPrimary n i = Ok r -> forall m, (n <= m)%nat -> nextPrimary m i = Ok r.
Proof.
  induction n as [|n IH]; intros i r H m Hle; rewrite nextPrimary_unfold in H;
    rewrite nextPrimary_unfold;
    destruct (scan _ Primary pce (nce i) i) as [[v i1]| |]; cbn [bind] in H |- *;
    try discriminate H; destruct (v =? 0); try exact H; try discriminate H.
  destruct m as [|m]; [lia|].
  destruct (next n i1) as [[more i2]| |] eqn:En; cbn [bind] in H; try discriminate H.
  rewrite (next_mono _ En (m := m)) by lia. cbn [bind].
  destruct more; [|exact H]. apply (IH _ _ H). lia.
Qed.

Lemma compareLevel_loop_mono (f g : @iter Elem -> result (Z * @iter Elem)) :
  (forall i r, f i = Ok r -> g i = Ok r) ->
  forall (n : nat) (a b : @iter Elem) (r : Z * @iter Elem * @iter Elem),
    compareLevel_loop n f a b = Ok r ->
    forall m, (n <= m)%nat -> compareLevel_loop m g a b = Ok r.
Proof.
  intro Hfg. induction n as [|n IH]; intros a b r H m Hle;
    cbn [compareLevel_loop] in H; [discriminate|].
  destruct m as [|m]; [lia|]. cbn [compareLevel_loop].
  destruct (f a) as [[va a1]| |] eqn:Ea; cbn [bind] in H; try discriminate H.
  destruct (f b) as [[vb b1]| |] eqn:Eb; cbn [bind] in H; try discriminate H.
  rewrite (Hfg _ _ Ea), (Hfg _ _ Eb). cbn [bind].
  destruct (negb (va =? vb)); [exact H|].
  destruct (va =? 0); [exact H|].
  apply (IH _ _ _ H). lia.
Qed.

Lemma drain_mono :
  forall (n : nat) (i i' : iter),
    drain n i = Ok i' -> forall m, (n <= m)%nat -> drain m i = Ok i'.
Proof.
  induction n as [|n IH]; intros i i' H m Hle; cbn [drain] in H; [discriminate|].
  destruct m as [|m]; [lia|]. cbn [drain].
  destruct (next n i) as [[more i1]| |] eqn:En; cbn [bind] in H; try discriminate H.
  rewrite (next_mono _ En (m := m)) by lia. cbn [bind].
  destruct more; [|exact H]. apply (IH _ _ H). lia.
Qed.

(** ** The iterator makes progress and does not fault *)

Lemma next_skip_total (l : list Elem) (last : Z) :
  last < len l ->
  forall (n : nat) (p0 : Z),
    0 <= p0 ->
    exists p1, next_skip n l p0 last = Ok p1 /\ p0 <= p1 /\ (p0 <= last -> p1 <= last).
Proof.
  intro Hlast. induction n as [|n IH]; intros p0 Hp0; cbn [next_skip].
  - exists p0. repeat split; lia.
  - destruct (Z.ltb_spec p0 last) as [Hlt|Hge].
    + destruct (index_total l (i := p0)) as [e He]; [lia|]. rewrite He. cbn [bind].
      destruct (CCC e =? 0).
      * destruct (IH (p0 + 1)) as (p1 & Hs & Hle & Hup); [lia|].
        exists p1. split; [exact Hs|]. split; lia.
      * exists p0. repeat split; lia.
    + exists p0. repeat split; lia.
Qed.

Lemma doNorm_ok (i : iter) (p ccc : Z) :
  0 <= pStarter i -> 1 <= p <= len (ce i) ->
  exists i',
    doNorm i p ccc = Ok i'
    /\ bytes i' = bytes i /\ pce i' = pce i /\ nce i' = nce i /\ it i' = it i
    /\ len (ce i') = len (ce i) /\ 0 <= pStarter i'.
Proof.
  intros Hps Hp.
  destruct (Z.ltb_spec maxCombiningCharacters (p - pStarter i)) as [Hbig|Hwin].
  - destruct (@doNorm_window_exceeded i p ccc Hbig) as (e & _ & Hd).
    { intro E. rewrite E in Hp. cbn in Hp. lia. }
    eexists. split; [exact Hd|]. cbn. repeat split; lia.
  - destruct (doNorm_moves_block i ccc Hps Hp Hwin) as (q & _ & Hq & Hd).
    eexists. split; [exact Hd|]. cbn. repeat split; try assumption.
    unfold len. rewrite move_block_length; [reflexivity|].
    unfold len in Hp. lia.
Qed.

Lemma next_at_end (i : @iter Elem) :
  iter_ok i -> bytes i = [] ->
  exists b i',
    (if len (ce i) =? nce i then Ok (false, i)
     else Ok (true, with_nce i (len (ce i)))) = Ok (b, i')
    /\ iter_ok i'
    /\ (length (bytes i') <= length (bytes i))%nat
    /\ len (ce i) <= len (ce i')
    /\ (b = true ->
        (length (bytes i') < length (bytes i))%nat
        \/ (bytes i = [] /\ i' = with_nce i (len (ce i)) /\ nce i <> len (ce i)))
    /\ (b = false -> i' = i /\ bytes i = [] /\ nce i = len (ce i)).
Proof.
  intros Hok Eb. pose proof Hok as (Hw & Hps & Hnce & Hprev & Hpce).
  destruct (Z.eqb_spec (len (ce i)) (nce i)) as [Heq|Hne].
  - exists false, i. split; [reflexivity|]. split; [exact Hok|].
    split; [lia|]. split; [lia|]. split; [discriminate|]. intros _. auto.
  - exists true, (with_nce i (len (ce i))). split; [reflexivity|].
    split; [pose proof (len_nonneg (ce i)); prove_iter_ok|].
    iter_simpl. split; [lia|]. split; [lia|].
    split; [|discriminate]. intros _. right. repeat split; auto.
Qed.

Lemma next_total :
  forall (fuel : nat) (i : iter),
    iter_ok i -> (length (bytes i) <= fuel)%nat ->
    exists b i',
      next fuel i = Ok (b, i')
      /\ iter_ok i'
      /\ (length (bytes i') <= length (bytes i))%nat
      /\ len (ce i) <= len (ce i')
      /\ (b = true ->
          (length (bytes i') < length (bytes i))%nat
          \/ (bytes i = [] /\ i' = with_nce i (len (ce i)) /\ nce i <> len (ce i)))
      /\ (b = false -> i' = i /\ bytes i = [] /\ nce i = len (ce i)).
Proof.
  induction fuel as [|fuel IH]; intros i Hok Hfuel; rewrite next_unfold;
    (destruct (done i) eqn:Ed;
     [apply next_at_end; [exact Hok|unfold done in Ed; now destruct (bytes i)]|]);
    unfold done in Ed; destruct (bytes i) as [|b0 bs] eqn:Eb; try discriminate Ed;
    destruct Hok as (Hw & Hps & Hnce & Hprev & Hpce).
  - cbn in Hfuel. lia.
  - clear Ed.
    cbv zeta. unfold appendNext. rewrite Eb.
    destruct (Hw (ce i) (b0 :: bs)) as [Hgrow Hsz]; [discriminate|].
    destruct (AppendNext (it i) (ce i) (b0 :: bs)) as [l sz] eqn:EA.
    cbn [fst snd] in Hgrow, Hsz.
    unfold tail. cbn [bytes with_ce]. rewrite Eb.
    rewrite slice_from_Ok by lia. cbn [bind].
    set (rest := skipn (Z.to_nat sz) (b0 :: bs)).
    assert (Hrest : (length rest < length (b0 :: bs))%nat).
    { unfold rest. rewrite length_skipn. unfold len in Hsz. cbn [length] in *. lia. }
    set (i2 := with_bytes (with_ce i l) rest).
    change (ce i2) with l. change (prevCCC i2) with (prevCCC i).
    assert (Hl : len (ce i) < len l) by (unfold len; lia).
    pose proof (len_nonneg (ce i)) as Hnn.
    destruct (index_total l (i := len l - 1)) as [e He]; [lia|].
    rewrite He. cbn [bind].
    destruct (Z.eqb_spec (CCC e) 0) as [Hc0|Hcn0].
    { eexists true, _. split; [reflexivity|]. subst i2.
      split; [prove_iter_ok|]. iter_simpl.
      split; [lia|]. split; [lia|]. split; [intros _; left; lia|discriminate]. }
    assert (Hst : exists st,
      (if len (ce i) <? len l - 1
       then e0 <- index l (len (ce i));; Ok (CCC e0 =? 0)
       else Ok false) = Ok st /\ (st = true -> len (ce i) < len l - 1)).
    { destruct (Z.ltb_spec (len (ce i)) (len l - 1)) as [Hlt|Hge].
      - destruct (index_total l (i := len (ce i))) as [e0 He0]; [lia|].
        rewrite He0. cbn [bind]. eexists. split; [reflexivity|]. intros _. exact Hlt.
      - exists false. split; [reflexivity|discriminate]. }
    destruct Hst as (st & Hst & Hsttrue). rewrite Hst. cbn [bind].
    destruct st.
    { specialize (Hsttrue eq_refl).
      destruct (@next_skip_total l (len l - 1) ltac:(lia)
                  (Z.to_nat (len l - 1 - (len (ce i) + 1))) (len (ce i) + 1))
        as (p1 & Hsk & Hlo & Hhi); [lia|].
      rewrite Hsk. cbn [bind].
      eexists true, _. split; [reflexivity|]. subst i2.
      split; [prove_iter_ok; intro E; rewrite E in Hl; cbn in Hl; lia|]. iter_simpl.
      split; [lia|]. split; [lia|]. split; [intros _; left; lia|discriminate]. }
    destruct (Z.ltb_spec (CCC e) (prevCCC i)) as [Hlow|Hhigh].
    + assert (Hp0 : 1 <= len (ce i)).
      { destruct (ce i) as [|x xs] eqn:Ece.
        - specialize (Hprev eq_refl). pose proof (CCC_nonneg e). lia.
        - unfold len. cbn [length]. lia. }
      destruct (@doNorm_ok i2 (len (ce i)) (CCC e)) as
        (i3 & Hd & Hb3 & Hp3 & Hn3 & Ht3 & Hl3 & Hs3).
      { exact Hps. }
      { change (ce i2) with l. lia. }
      rewrite Hd. cbn [bind].
      change (ce i2) with l in Hl3. change (bytes i2) with rest in Hb3.
      change (pce i2) with (pce i) in Hp3. change (nce i2) with (nce i) in Hn3.
      change (it i2) with (it i) in Ht3.
      destruct (IH i3) as (b & i' & Hnx & Hok' & Hlen' & Hce' & Htrue & Hfalse).
      { unfold iter_ok. rewrite Ht3, Hn3, Hl3, Hp3.
        split; [exact Hw|]. split; [exact Hs3|]. split; [lia|].
        split; [|exact Hpce].
        intro E. rewrite E in Hl3. cbn in Hl3. lia. }
      { rewrite Hb3. cbn [length] in *. lia. }
      exists b, i'. split; [exact Hnx|]. split; [exact Hok'|].
      rewrite Hb3 in Hlen', Htrue. rewrite Hl3 in Hce'.
      split; [lia|]. split; [lia|]. split.
      * intros _. left. destruct b.
        -- destruct (Htrue eq_refl) as [Hless|(_ & -> & _)]; [lia|].
           iter_simpl. rewrite Hb3. exact Hrest.
        -- destruct (Hfalse eq_refl) as (_ & _ & Hbad). lia.
      * intros ->. destruct (Hfalse eq_refl) as (_ & _ & Hbad). lia.
    + destruct (IH (with_prevCCC i2 (CCC e)))
        as (b & i' & Hnx & Hok' & Hlen' & Hce' & Htrue & Hfalse).
      { subst i2. prove_iter_ok. intro E. rewrite E in Hl. cbn in Hl. lia. }
      { subst i2. iter_simpl. cbn [length] in *. lia. }
      exists b, i'. split; [exact Hnx|]. split; [exact Hok'|].
      subst i2. iter_simpl.
      split; [lia|]. split; [lia|]. split.
      * intros _. left. destruct b.
        -- destruct (Htrue eq_refl) as [Hless|(_ & -> & _)]; [lia|].
           iter_simpl. exact Hrest.
        -- destruct (Hfalse eq_refl) as (_ & _ & Hbad). lia.
      * intros ->. destruct (Hfalse eq_refl) as (_ & _ & Hbad). lia.
Qed.

Lemma need_decreases (i i' : @iter Elem) :
  (length (bytes i') < length (bytes i))%nat
  \/ (bytes i = [] /\ i' = with_nce i (len (ce i)) /\ nce i <> len (ce i)) ->
  (need i' < need i)%nat.
Proof.
  unfold need. intros [Hless|(Hnil & -> & Hne)].
  - destruct (bytes i) as [|b0 bs]; [cbn in Hless; lia|].
    destruct (bytes i') as [|b1 bs'].
    + destruct (nce i' =? len (ce i')); cbn [length]; lia.
    + cbn [length] in *. lia.
  - iter_simpl. rewrite Hnil.
    destruct (Z.eqb_spec (nce i) (len (ce i))); [contradiction|].
    rewrite Z.eqb_refl. lia.
Qed.

Lemma need_covers_next (i : @iter Elem) (fuel : nat) :
  (need i <= S fuel)%nat -> (length (bytes i) <= fuel)%nat.
Proof.
  unfold need. destruct (bytes i) as [|b0 bs]; cbn [length]; lia.
Qed.

Lemma nextPrimary_total :
  forall (fuel : nat) (i : iter),
    iter_ok i -> (need i <= fuel)%nat ->
    exists v i',
      nextPrimary fuel i = Ok (v, i')
      /\ iter_ok i'
      /\ (length (bytes i') <= length (bytes i))%nat
      /\ (v <> 0 ->
          (length (bytes i') < length (bytes i))%nat
          \/ (bytes i' = bytes i /\ ce i' = ce i /\ pce i < pce i' <= len (ce i))).
Proof.
  induction fuel as [|fuel IH]; intros i Hok Hfuel.
  { unfold need in Hfuel.
    destruct (bytes i); [destruct (nce i =? len (ce i))|cbn in Hfuel]; lia. }
  rewrite nextPrimary_unfold.
  pose proof Hok as (Hw & Hps & Hnce & Hprev & Hpce).
  destruct (@scan_total Primary pce (nce i) (Z.to_nat (nce i - pce i)) i)
    as (v & i1 & Hs & Hi1 & Hp1 & Hv1).
  { intros p Hp. iter_simpl. lia. }
  rewrite Hs. cbn [bind].
  assert (Hsame : bytes i1 = bytes i /\ ce i1 = ce i /\ nce i1 = nce i).
  { rewrite Hi1. iter_simpl. auto. }
  destruct Hsame as (Hb1 & Hc1 & Hn1).
  assert (Hok1 : iter_ok i1).
  { rewrite Hi1. prove_iter_ok. }
  destruct (Z.eqb_spec v 0) as [Hz|Hnz].
  - destruct (@next_total fuel i1 Hok1) as (b & i2 & Hnx & Hok2 & Hlen2 & _ & Htrue & Hfalse).
    { rewrite Hb1. apply need_covers_next, Hfuel. }
    rewrite Hnx. cbn [bind]. destruct b.
    + specialize (Htrue eq_refl).
      assert (Hneed : (need i2 <= fuel)%nat).
      { apply need_decreases in Htrue.
        assert (need i1 = need i) by (unfold need; now rewrite Hb1, Hc1, Hn1). lia. }
      destruct (IH i2 Hok2 Hneed) as (v' & i' & Hnp & Hok' & Hlen' & Hv').
      exists v', i'. split; [exact Hnp|]. split; [exact Hok'|].
      rewrite Hb1 in Hlen2. split; [lia|].
      intro Hne. specialize (Hv' Hne).
      destruct Htrue as [Hless|(Hnil & -> & _)].
      * left. rewrite Hb1 in Hless. lia.
      * iter_simpl. rewrite Hb1, Hc1 in *.
        destruct Hv' as [Hless|(Hb' & Hc' & Hp')]; [left; lia|].
        right. split; [exact Hb'|]. split; [exact Hc'|]. lia.
    + destruct (Hfalse eq_refl) as (-> & _).
      exists 0, i1. split; [reflexivity|]. split; [exact Hok1|].
      rewrite Hb1. split; [lia|]. intro Hne. contradiction.
  - exists v, i1. split; [reflexivity|]. split; [exact Hok1|].
    rewrite Hb1. split; [lia|]. intros _. right.
    split; [reflexivity|]. split; [exact Hc1|]. specialize (Hv1 Hnz). lia.
Qed.

Lemma drain_total :
  forall (fuel : nat) (i : iter),
    iter_ok i -> (need i <= fuel)%nat ->
    exists i', drain fuel i = Ok i' /\ iter_ok i' /\ bytes i' = [].
Proof.
  induction fuel as [|fuel IH]; intros i Hok Hfuel.
  { unfold need in Hfuel.
    destruct (bytes i); [destruct (nce i =? len (ce i))|cbn in Hfuel]; lia. }
  cbn [drain].
  destruct (@next_total fuel i Hok) as (b & i1 & Hnx & Hok1 & _ & _ & Htrue & Hfalse).
  { apply need_covers_next, Hfuel. }
  rewrite Hnx. cbn [bind]. destruct b.
  - apply IH; [exact Hok1|]. apply need_decreases in Htrue; [lia|reflexivity].
  - destruct (Hfalse eq_refl) as (-> & Hnil & _).
    exists i. auto.
Qed.

(** ** Every level walk ends *)

Lemma primary_loop_total :
  forall (L M : nat) (a : iter),
    length (bytes a) = L -> Z.to_nat (len (ce a) - pce a) = M -> iter_ok a ->
    forall b, iter_ok b ->
      exists fuel r a' b',
        compareLevel_loop fuel (nextPrimary fuel) a b = Ok (r, a', b')
        /\ iter_ok a' /\ iter_ok b' /\ (r = -1 \/ r = 0 \/ r = 1).
Proof.
  intro L. induction L as [L IHL] using lt_wf_ind.
  intro M. induction M as [M IHM] using lt_wf_ind.
  intros a HL HM Hoka b Hokb.
  destruct (@nextPrimary_total (need a) a Hoka (le_n _))
    as (va & a1 & Hna & Hoka1 & Hlena & Hva).
  destruct (@nextPrimary_total (need b) b Hokb (le_n _))
    as (vb & b1 & Hnb & Hokb1 & _ & _).
  set (F0 := Nat.max (need a) (need b)).
  assert (Hstep : forall n, (F0 <= n)%nat ->
            compareLevel_loop (S n) (nextPrimary (S n)) a b
            = if negb (va =? vb)
              then if va <? vb then Ok (-1, a1, b1) else Ok (1, a1, b1)
              else if va =? 0 then Ok (0, a1, b1)
                   else compareLevel_loop n (nextPrimary (S n)) a1 b1).
  { intros n Hn. cbn [compareLevel_loop].
    rewrite (nextPrimary_mono _ Hna (m := S n)) by (unfold F0 in Hn; lia).
    cbn [bind].
    rewrite (nextPrimary_mono _ Hnb (m := S n)) by (unfold F0 in Hn; lia).
    reflexivity. }
  destruct (Z.eqb_spec va vb) as [Heq|Hne].
  - destruct (Z.eqb_spec va 0) as [Hz|Hnz].
    + exists (S F0), 0, a1, b1. rewrite Hstep by lia.
      destruct (Z.eqb_spec va vb); [|contradiction]. cbn [negb].
      destruct (Z.eqb_spec va 0); [|contradiction].
      split; [reflexivity|]. split; [assumption|]. split; [assumption|]. auto.
    + assert (Hrec : exists fuel r a' b',
                compareLevel_loop fuel (nextPrimary fuel) a1 b1 = Ok (r, a', b')
                /\ iter_ok a' /\ iter_ok b' /\ (r = -1 \/ r = 0 \/ r = 1)).
      { destruct (Hva Hnz) as [Hless|(Hb & Hc & Hp)].
        - apply (IHL (length (bytes a1)) ltac:(lia)
                   (Z.to_nat (len (ce a1) - pce a1)) a1 eq_refl eq_refl Hoka1 b1 Hokb1).
        - apply (IHM (Z.to_nat (len (ce a1) - pce a1)) ltac:(rewrite Hc; lia)
                   a1 ltac:(rewrite Hb; exact HL) eq_refl Hoka1 b1 Hokb1). }
      destruct Hrec as (N' & r & a' & b' & Hloop & Hoka' & Hokb' & Hr).
      exists (S (Nat.max N' F0)), r, a', b'. rewrite Hstep by lia.
      destruct (Z.eqb_spec va vb); [|contradiction]. cbn [negb].
      destruct (Z.eqb_spec va 0); [contradiction|].
      split; [|split; [assumption|]; split; assumption].
      apply (@compareLevel_loop_mono (nextPrimary N') (nextPrimary (S (Nat.max N' F0))))
        with (n := N'); [|exact Hloop|lia].
      intros i r0 Hi. apply (nextPrimary_mono _ Hi). lia.
  - exists (S F0), (if va <? vb then -1 else 1), a1, b1. rewrite Hstep by lia.
    destruct (Z.eqb_spec va vb); [contradiction|]. cbn [negb].
    destruct (va <? vb); (split; [reflexivity|]; split; [assumption|];
                          split; [assumption|]; auto).
Qed.

Lemma walker_loop_total (f : @iter Elem -> result (Z * @iter Elem)) :
  walker_ok f ->
  forall (n : nat) (a b : @iter Elem),
    0 <= pce a -> 0 <= pce b -> (Z.to_nat (len (ce a) - pce a) < n)%nat ->
    exists r a' b',
      compareLevel_loop n f a b = Ok (r, a', b')
      /\ a' = with_pce a (pce a') /\ b' = with_pce b (pce b')
      /\ 0 <= pce a' /\ 0 <= pce b' /\ (r = -1 \/ r = 0 \/ r = 1).
Proof.
  intro Hf. induction n as [|n IH]; intros a b Hpa Hpb Hn; [lia|].
  cbn [compareLevel_loop].
  destruct (Hf a Hpa) as (va & a1 & Hfa & Ha1 & Hpa1 & Hva).
  destruct (Hf b Hpb) as (vb & b1 & Hfb & Hb1 & Hpb1 & _).
  rewrite Hfa. cbn [bind]. rewrite Hfb. cbn [bind].
  destruct (Z.eqb_spec va vb) as [Heq|Hne]; cbn [negb].
  - destruct (Z.eqb_spec va 0) as [Hz|Hnz].
    + exists 0, a1, b1. repeat split; auto; lia.
    + specialize (Hva Hnz).
      assert (Hce : ce a1 = ce a) by (rewrite Ha1; reflexivity).
      destruct (IH a1 b1) as (r & a' & b' & Hl & Ha' & Hb' & Hpa' & Hpb' & Hr);
        try lia.
      { rewrite Hce. lia. }
      exists r, a', b'. split; [exact Hl|].
      split; [rewrite Ha', Ha1; reflexivity|].
      split; [rewrite Hb', Hb1; reflexivity|]. auto.
  - exists (if va <? vb then -1 else 1), a1, b1.
    split; [destruct (va <? vb); reflexivity|].
    repeat split; auto; try lia. destruct (va <? vb); auto.
Qed.

Lemma scan_walker_ok (w : Elem -> Z) (pos : @iter Elem -> Z) :
  (forall i p, 0 <= pce i <= p -> p < len (ce i) ->
     0 <= pos (with_pce i p) < len (ce i)) ->
  walker_ok (fun i => scan (Z.to_nat (len (ce i) - pce i)) w pos (len (ce i)) i).
Proof.
  intros Hpos i Hp. apply scan_total. intros p Hr. apply Hpos; lia.
Qed.

Lemma nextSecondary_ok : walker_ok nextSecondary.
Proof. apply scan_walker_ok. intros i p H0 H1. iter_simpl. lia. Qed.

Lemma prevSecondary_ok : walker_ok prevSecondary.
Proof. apply scan_walker_ok. intros i p H0 H1. iter_simpl. lia. Qed.

Lemma nextTertiary_ok : walker_ok nextTertiary.
Proof. apply scan_walker_ok. intros i p H0 H1. iter_simpl. lia. Qed.

Lemma nextQuaternary_ok : walker_ok nextQuaternary.
Proof. apply scan_walker_ok. intros i p H0 H1. iter_simpl. lia. Qed.

(** A level walk over buffers that are already complete. *)
Lemma walker_level_total (f : @iter Elem -> result (Z * @iter Elem)) :
  walker_ok f ->
  forall (n : nat) (a b : @iter Elem),
    (Z.to_nat (len (ce a)) < n)%nat ->
    exists r a' b',
      compareLevel n f a b = Ok (r, a', b')
      /\ with_pce a' 0 = with_pce a 0 /\ with_pce b' 0 = with_pce b 0
      /\ (r = -1 \/ r = 0 \/ r = 1).
Proof.
  intros Hf n a b Hn. unfold compareLevel.
  destruct (@walker_loop_total f Hf n (with_pce a 0) (with_pce b 0))
    as (r & a' & b' & Hl & Ha' & Hb' & _ & _ & Hr); iter_simpl; try lia.
  exists r, a', b'. split; [exact Hl|].
  split; [rewrite Ha'; reflexivity|]. split; [rewrite Hb'; reflexivity|exact Hr].
Qed.

Lemma compareLevel_primary_mono (n m : nat) (a b : iter)
  (r : Z * iter * iter) :
  compareLevel n (nextPrimary n) a b = Ok r -> (n <= m)%nat ->
  compareLevel m (nextPrimary m) a b = Ok r.
Proof.
  unfold compareLevel. intros H Hle.
  apply (@compareLevel_loop_mono (nextPrimary n) (nextPrimary m)) with (n := n);
    [|exact H|exact Hle].
  intros i r0 Hi. apply (nextPrimary_mono _ Hi Hle).
Qed.

Lemma ce_of_rewound (a a' : @iter Elem) :
  with_pce a' 0 = with_pce a 0 -> ce a' = ce a.
Proof. intro H. apply (f_equal ce) in H. exact H. Qed.

(** [compare] returns on iterators whose weigher keeps its contract. *)
Lemma compare_total (c : Collator) :
  iter_ok (with_pce (_iter0 c) 0) -> iter_ok (with_pce (_iter1 c) 0) ->
  exists fuel r c',
    compare fuel c = Ok (r, c') /\ (r = -1 \/ r = 0 \/ r = 1).
Proof.
  intros Hoka Hokb.
  assert (H1 : exists N1 r1 a1 b1,
            forall n, (N1 <= n)%nat ->
              (if negb (Alternate_eqb (Alternate c) AltShifted)
               then compareLevel n (nextPrimary n) (_iter0 c) (_iter1 c)
               else Ok (0, _iter0 c, _iter1 c)) = Ok (r1, a1, b1)
              /\ (r1 = -1 \/ r1 = 0 \/ r1 = 1)).
  { destruct (negb (Alternate_eqb (Alternate c) AltShifted)).
    - destruct (@primary_loop_total _ _ (with_pce (_iter0 c) 0) eq_refl eq_refl Hoka
                  (with_pce (_iter1 c) 0) Hokb)
        as (N1 & r1 & a1 & b1 & Hl & _ & _ & Hr).
      exists N1, r1, a1, b1. intros n Hn. split; [|exact Hr].
      apply (@compareLevel_primary_mono N1 n); [exact Hl|exact Hn].
    - exists 0%nat, 0, (_iter0 c), (_iter1 c). intros n _. auto. }
  destruct H1 as (N1 & r1 & a1 & b1 & H1).
  set (N := Nat.max N1 (S (Z.to_nat (len (ce a1))))).
  destruct (H1 N ltac:(lia)) as [E1 Hr1]. clear H1.
  assert (H2 : exists r2 a2 b2,
            (if colltab.leb colltab.Secondary (Strength c)
             then compareLevel N (if Backwards c then prevSecondary else nextSecondary) a1 b1
             else Ok (0, a1, b1)) = Ok (r2, a2, b2)
            /\ ce a2 = ce a1 /\ (r2 = -1 \/ r2 = 0 \/ r2 = 1)).
  { destruct (colltab.leb colltab.Secondary (Strength c)).
    - destruct (@walker_level_total (if Backwards c then prevSecondary else nextSecondary)
                  ltac:(destruct (Backwards c);
                        [apply prevSecondary_ok|apply nextSecondary_ok])
                  N a1 b1 ltac:(lia))
        as (r2 & a2 & b2 & Hl & Ha & _ & Hr).
      exists r2, a2, b2. split; [exact Hl|]. split; [now apply ce_of_rewound|exact Hr].
    - exists 0, a1, b1. auto. }
  destruct H2 as (r2 & a2 & b2 & E2 & Hce2 & Hr2).
  destruct (@walker_level_total nextTertiary nextTertiary_ok N a2 b2
              ltac:(rewrite Hce2; lia))
    as (r3 & a3 & b3 & E3 & Ha3 & _ & Hr3).
  apply ce_of_rewound in Ha3.
  destruct (@walker_level_total nextQuaternary nextQuaternary_ok N a3 b3
              ltac:(rewrite Ha3, Hce2; lia))
    as (r4 & a4 & b4 & E4 & _ & _ & Hr4).
  unfold compare. cbv zeta. exists N.
  rewrite E1. cbn [bind].
  destruct (Z.eqb_spec r1 0) as [Hz1|Hnz1]; cbn [negb];
    [|eexists _, _; split; [reflexivity|exact Hr1]].
  rewrite E2. cbn [bind].
  destruct (Z.eqb_spec r2 0) as [Hz2|Hnz2]; cbn [negb];
    [|eexists _, _; split; [reflexivity|exact Hr2]].
  destruct (colltab.leb colltab.Tertiary (Strength c) || CaseLevel c);
    [|eexists _, _; split; [reflexivity|auto]].
  rewrite E3. cbn [bind].
  destruct (Z.eqb_spec r3 0) as [Hz3|Hnz3]; cbn [negb];
    [|eexists _, _; split; [reflexivity|exact Hr3]].
  destruct (colltab.leb colltab.Quaternary (Strength c));
    [|eexists _, _; split; [reflexivity|auto]].
  rewrite E4. cbn [bind].
  destruct (Z.eqb_spec r4 0) as [Hz4|Hnz4]; cbn [negb];
    eexists _, _; (split; [reflexivity|auto]).
Qed.

Lemma compare_mono (n m : nat) (c : Collator) (r : Z * Collator) :
  compare n c = Ok r -> (n <= m)%nat -> compare m c = Ok r.
Proof.
  unfold compare. cbv zeta. intros H Hle.
  assert (Hw : forall (f : @iter Elem -> result (Z * @iter Elem)) a b x,
            compareLevel n f a b = Ok x -> compareLevel m f a b = Ok x).
  { intros f a b x Hx. unfold compareLevel in *.
    apply (@compareLevel_loop_mono f f) with (n := n); auto. }
  destruct (negb (Alternate_eqb (Alternate c) AltShifted)).
  - destruct (compareLevel n (nextPrimary n) (_iter0 c) (_iter1 c))
      as [[[r1 a1] b1]| |] eqn:E1; cbn [bind] in H; try discriminate H.
    rewrite (compareLevel_primary_mono _ _ E1 Hle). cbn [bind].
    destruct (negb (r1 =? 0)); [exact H|].
    destruct (colltab.leb colltab.Secondary (Strength c)).
    + destruct (compareLevel n _ a1 b1) as [[[r2 a2] b2]| |] eqn:E2;
        cbn [bind] in H; try discriminate H.
      rewrite (Hw _ _ _ _ E2). cbn [bind].
      destruct (negb (r2 =? 0)); [exact H|].
      destruct (colltab.leb colltab.Tertiary (Strength c) || CaseLevel c); [|exact H].
      destruct (compareLevel n nextTertiary a2 b2) as [[[r3 a3] b3]| |] eqn:E3;
        cbn [bind] in H; try discriminate H.
      rewrite (Hw _ _ _ _ E3). cbn [bind].
      destruct (negb (r3 =? 0)); [exact H|].
      destruct (colltab.leb colltab.Quaternary (Strength c)); [|exact H].
      destruct (compareLevel n nextQuaternary a3 b3) as [[[r4 a4] b4]| |] eqn:E4;
        cbn [bind] in H; try discriminate H.
      rewrite (Hw _ _ _ _ E4). exact H.
    + cbn [bind] in H |- *. destruct (negb (0 =? 0)); [exact H|].
      destruct (colltab.leb colltab.Tertiary (Strength c) || CaseLevel c); [|exact H].
      destruct (compareLevel n nextTertiary a1 b1) as [[[r3 a3] b3]| |] eqn:E3;
        cbn [bind] in H; try discriminate H.
      rewrite (Hw _ _ _ _ E3). cbn [bind].
      destruct (negb (r3 =? 0)); [exact H|].
      destruct (colltab.leb colltab.Quaternary (Strength c)); [|exact H].
      destruct (compareLevel n nextQuaternary a3 b3) as [[[r4 a4] b4]| |] eqn:E4;
        cbn [bind] in H; try discriminate H.
      rewrite (Hw _ _ _ _ E4). exact H.
  - cbn [bind] in H |- *. destruct (negb (0 =? 0)); [exact H|].
    destruct (colltab.leb colltab.Secondary (Strength c)).
    + destruct (compareLevel n _ (_iter0 c) (_iter1 c)) as [[[r2 a2] b2]| |] eqn:E2;
        cbn [bind] in H; try discriminate H.
      rewrite (Hw _ _ _ _ E2). cbn [bind].
      destruct (negb (r2 =? 0)); [exact H|].
      destruct (colltab.leb colltab.Tertiary (Strength c) || CaseLevel c); [|exact H].
      destruct (compareLevel n nextTertiary a2 b2) as [[[r3 a3] b3]| |] eqn:E3;
        cbn [bind] in H; try discriminate H.
      rewrite (Hw _ _ _ _ E3). cbn [bind].
      destruct (negb (r3 =? 0)); [exact H|].
      destruct (colltab.leb colltab.Quaternary (Strength c)); [|exact H].
      destruct (compareLevel n nextQuaternary a3 b3) as [[[r4 a4] b4]| |] eqn:E4;
        cbn [bind] in H; try discriminate H.
      rewrite (Hw _ _ _ _ E4). exact H.
    + cbn [bind] in H |- *. destruct (negb (0 =? 0)); [exact H|].
      destruct (colltab.leb colltab.Tertiary (Strength c) || CaseLevel c); [|exact H].
      destruct (compareLevel n nextTertiary (_iter0 c) (_iter1 c))
        as [[[r3 a3] b3]| |] eqn:E3; cbn [bind] in H; try discriminate H.
      rewrite (Hw _ _ _ _ E3). cbn [bind].
      destruct (negb (r3 =? 0)); [exact H|].
      destruct (colltab.leb colltab.Quaternary (Strength c)); [|exact H].
      destruct (compareLevel n nextQuaternary a3 b3) as [[[r4 a4] b4]| |] eqn:E4;
        cbn [bind] in H; try discriminate H.
      rewrite (Hw _ _ _ _ E4). exact H.
Qed.

(** ** Compare and Key as wholes *)

Lemma bytes_Compare_sign (a b : list Z) :
  bytes_Compare a b = -1 \/ bytes_Compare a b = 0 \/ bytes_Compare a b = 1.
Proof.
  revert b. induction a as [|x a IH]; intros [|y b]; cbn; auto.
  destruct (x <? y); auto. destruct (y <? x); auto.
Qed.

Lemma bytes_Compare_antisym (a b : list Z) :
  bytes_Compare b a = - bytes_Compare a b.
Proof.
  revert b. induction a as [|x a IH]; intros [|y b]; cbn; try reflexivity.
  destruct (Z.ltb_spec x y), (Z.ltb_spec y x); try lia; try reflexivity.
  apply IH.
Qed.

Lemma setInput_ok (i : @iter Elem) (s : list Z) :
  WeigherOK (it i) -> iter_ok (with_pce (setInput i s) 0).
Proof.
  intro Hw. unfold setInput, reset. prove_iter_ok. cbn. lia.
Qed.

Lemma Compare_mono (n m : nat) (c : Collator) (a b : list Z) (r : Z * Collator) :
  Compare n c a b = Ok r -> (n <= m)%nat -> Compare m c a b = Ok r.
Proof.
  unfold Compare. cbv zeta. intros H Hle.
  destruct (compare n _) as [[r0 c1]| |] eqn:E; cbn [bind] in H; try discriminate H.
  rewrite (compare_mono _ E Hle). exact H.
Qed.

Lemma Compare_total (c : Collator) (a b : list Z) :
  WeigherOK (it (_iter0 c)) -> WeigherOK (it (_iter1 c)) ->
  exists fuel r c',
    Compare fuel c a b = Ok (r, c') /\ (r = -1 \/ r = 0 \/ r = 1).
Proof.
  intros H0 H1.
  destruct (@compare_total
              (with_iters c (setInput (_iter0 c) a) (setInput (_iter1 c) b)))
    as (fuel & r & c1 & Hc & Hr).
  { apply setInput_ok, H0. }
  { apply setInput_ok, H1. }
  exists fuel. unfold Compare. cbv zeta. rewrite Hc. cbn [bind].
  destruct (negb (r =? 0)).
  - eexists _, _. split; [reflexivity|exact Hr].
  - destruct (colltab.eqb colltab.Identity (Strength c1)).
    + eexists _, _. split; [reflexivity|apply bytes_Compare_sign].
    + eexists _, _. split; [reflexivity|auto].
Qed.

Lemma Compare_antisym (fuel : nat) (c c' c1 : Collator) (a b : list Z) (r : Z) :
  same_settings c c' -> Collator_wf c -> Collator_wf c' ->
  Compare fuel c a b = Ok (r, c1) ->
  exists c2, Compare fuel c' b a = Ok (- r, c2).
Proof.
  intros Hs [Hw0 Hw1] [Hw0' Hw1'] H.
  pose proof Hs as (Hst & _ & _ & _ & Ht).
  unfold Compare in H. cbv zeta in H.
  set (c0 := with_iters c (setInput (_iter0 c) a) (setInput (_iter1 c) b)) in H.
  destruct (compare fuel c0) as [[r0 c1']| |] eqn:E; cbn [bind] in H;
    try discriminate H.
  pose proof (@compare_swap _ _ _ _ E) as Esw.
  pose proof (@compare_settings _ _ _ _ E) as (ia & ib & Hc1).
  set (c0' := with_iters c' (setInput (_iter0 c') b) (setInput (_iter1 c') a)).
  assert (Hcg : result_map fst (compare fuel c0')
                = result_map fst (compare fuel (swap_iters c0))).
  { apply compare_congr.
    - destruct Hs as (S1 & S2 & S3 & S4 & S5). repeat split; cbn; auto.
    - cbn. apply setInput_with_pce. congruence.
    - cbn. apply setInput_with_pce. congruence. }
  rewrite Esw in Hcg. cbn [result_map fst] in Hcg.
  destruct (compare fuel c0') as [[r0' c2']| |] eqn:E'; cbn [result_map fst] in Hcg;
    try discriminate Hcg.
  injection Hcg as ->.
  pose proof (@compare_settings _ _ _ _ E') as (ia' & ib' & Hc2).
  unfold Compare. cbv zeta. fold c0'. rewrite E'. cbn [bind].
  rewrite opp_eqb_0.
  destruct (negb (r0 =? 0)).
  - injection H as <- _. eexists. reflexivity.
  - assert (Hstr : Strength c2' = Strength c1').
    { rewrite Hc1, Hc2. cbn. congruence. }
    rewrite Hstr.
    destruct (colltab.eqb colltab.Identity (Strength c1')).
    + injection H as <- _. rewrite bytes_Compare_antisym. eexists. reflexivity.
    + injection H as <- _. eexists. reflexivity.
Qed.

Lemma Key_mono (n m : nat) (c : Collator) (buf : Buffer) (str : list Z)
  (r : list Z * Buffer * Collator) :
  Key n c buf str = Ok r -> (n <= m)%nat -> Key m c buf str = Ok r.
Proof.
  unfold Key, getColElems. intros H Hle.
  destruct (drain n _) as [i| |] eqn:E; cbn [bind] in H; try discriminate H.
  rewrite (drain_mono _ E Hle). exact H.
Qed.

(** [Key] returns the layout of the processed elements of its input. *)
Lemma Key_total (c : Collator) (buf : Buffer) (str : list Z) :
  WeigherOK (it (_iter0 c)) ->
  exists fuel i c',
    drain fuel (setInput (_iter0 c) str) = Ok i
    /\ Key fuel c buf str
       = Ok (key_layout c (processWeights (Alternate c) (Top (t c)) (ce i)),
             mkBuffer (key buf ++ key_layout c
                         (processWeights (Alternate c) (Top (t c)) (ce i))),
             c').
Proof.
  intro Hw.
  set (i0 := setInput (_iter0 c) str).
  assert (Hi0 : i0 = with_pce (with_pce i0 0) (pce (_iter0 c))).
  { unfold i0, setInput, reset. reflexivity. }
  destruct (@drain_total (need (with_pce i0 0)) (with_pce i0 0)) as (i & Hd & _ & _).
  { apply setInput_ok, Hw. }
  { lia. }
  set (F := need (with_pce i0 0)) in *.
  assert (Hdr : drain F i0 = Ok (with_pce i (pce (_iter0 c)))).
  { rewrite Hi0, drain_with_pce, Hd. reflexivity. }
  exists F, (with_pce i (pce (_iter0 c))).
  unfold Key, getColElems, Buffer_init. fold i0.
  rewrite Hdr. cbn [result_map bind].
  eexists. split; [reflexivity|].
  unfold Collator_key. cbn [ce with_pce Alternate t with_iters].
  set (w' := processWeights (Alternate c) (Top (t c)) (ce i)).
  assert (Hk : key (keyFromElems (with_iters c (with_pce i (pce (_iter0 c))) (_iter1 c))
                      buf w')
               = key buf ++ key_layout c w').
  { rewrite keyFromElems_layout. reflexivity. }
  rewrite Hk, slice_from_Ok.
  - cbn [bind]. unfold len. rewrite Nat2Z.id, skipn_app, skipn_all, Nat.sub_diag.
    cbn [skipn app]. do 3 f_equal.
    destruct (keyFromElems _ buf w') as [k] eqn:Ek. cbn [key] in Hk. now subst k.
  - rewrite len_app. pose proof (len_nonneg (key buf)).
    pose proof (len_nonneg (key_layout c w')). lia.
Qed.

Lemma processWeights_shifted_length (top : Z) (wa : list Elem) :
  forall ig, length (processWeights_shifted top ig wa) = length wa.
Proof.
  induction wa as [|e rest IH]; intro ig; cbn [processWeights_shifted length];
    [reflexivity|].
  destruct ((Primary e <=? top) && negb (Primary e =? 0));
    [|destruct (Primary e =? 0)]; cbn [length]; now rewrite IH.
Qed.

Lemma processWeights_blanked_length (top : Z) (wa : list Elem) :
  forall ig, length (processWeights_blanked top ig wa) = length wa.
Proof.
  induction wa as [|e rest IH]; intro ig; cbn [processWeights_blanked length];
    [reflexivity|].
  destruct ((Primary e <=? top) && (ig || negb (Primary e =? 0)));
    cbn [length]; now rewrite IH.
Qed.

Lemma processWeights_length (vw : AlternateHandling) (top : Z) (wa : list Elem) :
  length (processWeights vw top wa) = length wa.
Proof.
  destruct vw; cbn [processWeights];
    auto using processWeights_shifted_length, processWeights_blanked_length.
Qed.

(** The states a collator reaches keep the iterator invariant as long as
    the weigher keeps its contract. *)
Lemma reachable_iter_ok (i : iter) :
  reachable i -> WeigherOK (it i) -> iter_ok i.
Proof.
  induction 1 as [w | i s _ IH | fuel i b i' _ IH Hn | i _ IH
                  | fuel i v i' _ IH Hn | i v i' _ IH Hn | i v i' _ IH Hn
                  | i v i' _ IH Hn | i v i' _ IH Hn | i vw top _ IH]; intro Hw.
  - unfold iter_init. prove_iter_ok. cbn. lia.
  - destruct (IH Hw) as (_ & _ & _ & _ & Hp).
    unfold setInput, reset. prove_iter_ok. cbn. lia.
  - pose proof (next_frame _ _ Hn) as [_ Ht]. rewrite Ht in Hw.
    destruct (@next_total (Nat.max fuel (length (bytes i))) i (IH Hw) ltac:(lia))
      as (b' & i'' & Hnx & Hok & _).
    rewrite (next_mono _ Hn (m := Nat.max fuel (length (bytes i)))) in Hnx by lia.
    injection Hnx as _ <-. exact Hok.
  - destruct (IH Hw) as (H1 & H2 & H3 & H4 & H5). prove_iter_ok.
  - pose proof (nextPrimary_frame _ _ Hn) as [_ Ht]. rewrite Ht in Hw.
    destruct (@nextPrimary_total (Nat.max fuel (need i)) i (IH Hw) ltac:(lia))
      as (v' & i'' & Hnx & Hok & _).
    rewrite (nextPrimary_mono _ Hn (m := Nat.max fuel (need i))) in Hnx by lia.
    injection Hnx as _ <-. exact Hok.
  - apply scan_effect in Hn. destruct Hn as [Hi Hp]. rewrite Hi in Hw |- *.
    destruct (IH Hw) as (H1 & H2 & H3 & H4 & H5). prove_iter_ok.
  - apply scan_effect in Hn. destruct Hn as [Hi Hp]. rewrite Hi in Hw |- *.
    destruct (IH Hw) as (H1 & H2 & H3 & H4 & H5). prove_iter_ok.
  - apply scan_effect in Hn. destruct Hn as [Hi Hp]. rewrite Hi in Hw |- *.
    destruct (IH Hw) as (H1 & H2 & H3 & H4 & H5). prove_iter_ok.
  - apply scan_effect in Hn. destruct Hn as [Hi Hp]. rewrite Hi in Hw |- *.
    destruct (IH Hw) as (H1 & H2 & H3 & H4 & H5). prove_iter_ok.
  - destruct (IH Hw) as (H1 & H2 & H3 & H4 & H5).
    unfold iter_ok. iter_simpl. unfold len. rewrite processWeights_length.
    fold (len (ce i)).
    split; [exact H1|]. split; [exact H2|]. split; [exact H3|]. split; [|exact H5].
    intro E. apply H4. apply (f_equal (@length Elem)) in E.
    rewrite processWeights_length in E. cbn in E. now apply length_zero_iff_nil.
Qed.

(** ** Variables at the primary level *)

Lemma primary_section_cons (e : Elem) (ws : list Elem) :
  primary_section (e :: ws)
  = (if 0 <? Primary e then appendPrimary [] (Primary e) else []) ++ primary_section ws.
Proof. reflexivity. Qed.

(** Under Shifted the variables and the ignorables behind them add nothing
    to the primary section, and nothing else changes in it. *)
Lemma primary_section_shifted (top : Z) (ws : list Elem) :
  forall ig,
    primary_section (processWeights_shifted top ig ws)
    = primary_section (filter (fun e => negb (is_variable top e)) ws).
Proof.
  induction ws as [|e rest IH]; intro ig; [reflexivity|].
  cbn [processWeights_shifted filter]. cbv zeta. rewrite is_variable_code.
  destruct ((Primary e <=? top) && negb (Primary e =? 0)) eqn:Ev; cbn [negb].
  - rewrite primary_section_cons, Primary_MakeQuaternary. cbn. apply IH.
  - destruct (Z.eqb_spec (Primary e) 0) as [H0|Hn0].
    + rewrite !primary_section_cons, IH.
      assert (Hz : Primary (if ig then Ignore else e) = 0)
        by (destruct ig; [apply Primary_Ignore|exact H0]).
      rewrite Hz, H0. reflexivity.
    + rewrite !primary_section_cons, IH. reflexivity.
Qed.

Lemma primary_section_blanked (top : Z) (ws : list Elem) :
  forall ig,
    primary_section (processWeights_blanked top ig ws)
    = primary_section (filter (fun e => negb (is_variable top e)) ws).
Proof.
  induction ws as [|e rest IH]; intro ig; [reflexivity|].
  cbn [processWeights_blanked filter]. cbv zeta. rewrite is_variable_code.
  destruct (Z.eqb_spec (Primary e) 0) as [H0|Hn0]; cbn [negb].
  - rewrite andb_false_r. cbn [negb]. rewrite primary_section_cons, H0. cbn.
    destruct ((0 <=? top) && (ig || false));
      rewrite primary_section_cons, ?Primary_Ignore, ?H0; cbn; apply IH.
  - rewrite orb_true_r, !andb_true_r.
    destruct (Primary e <=? top); cbn [negb];
      rewrite !primary_section_cons, ?Primary_Ignore, IH; reflexivity.
Qed.

(** Under Shifted [compare] skips the primary walk, the iterators are never
    pumped, and every other level walks two empty buffers. *)
Lemma Compare_Shifted_is_zero (fuel : nat) (c : Collator) (a b : list Z) :
  Alternate c = AltShifted -> Strength c <> colltab.Identity -> (1 <= fuel)%nat ->
  exists c', Compare fuel c a b = Ok (0, c').
Proof.
  intros Ha Hs Hf. destruct fuel as [|fuel]; [lia|].
  unfold Compare, compare. cbn [Alternate Strength Backwards CaseLevel
                                 _iter0 _iter1 with_iters].
  rewrite Ha. cbn [Alternate_eqb AlternateHandling_rank Z.eqb negb bind Pos.eqb].
  destruct (Strength c) eqn:Es, (Backwards c), (CaseLevel c); try contradiction;
    cbn; rewrite ?Es; cbn; eexists; reflexivity.
Qed.

(** ** The claims about whole operations *)

(** C9: under the Weigher contract (on non-empty input [AppendNext] emits
    at least one element and consumes at least one byte) every call of
    [next] in a reachable state returns, with fuel equal to the number of
    bytes left, and [Compare] and [Key] return on every input, ill-formed
    or not, without a run-time fault; [Compare] returns -1, 0 or +1. *)
Theorem operations_terminate_under_contract :
  forall w : Weigher Elem,
    WeigherOK w ->
    (forall i, reachable i -> it i = w ->
       forall fuel, (length (bytes i) <= fuel)%nat ->
         exists more i',
           next fuel i = Ok (more, i') /\ reachable i'
           /\ (length (bytes i') <= length (bytes i))%nat)
    /\ (forall (c : Collator) (a b : list Z),
          it (_iter0 c) = w -> it (_iter1 c) = w ->
          exists N, forall fuel, (N <= fuel)%nat ->
            exists r c', Compare fuel c a b = Ok (r, c')
                         /\ (r = -1 \/ r = 0 \/ r = 1))
    /\ (forall (c : Collator) (buf : Buffer) (a : list Z),
          it (_iter0 c) = w ->
          exists N, forall fuel, (N <= fuel)%nat ->
            exists k buf' c', Key fuel c buf a = Ok (k, buf', c')).
Proof.
  intros w Hw. split; [|split].
  - intros i Hr Hi fuel Hfuel. subst w.
    destruct (@next_total fuel i (reachable_iter_ok Hr Hw) Hfuel)
      as (more & i' & Hnx & _ & Hlen & _).
    exists more, i'. split; [exact Hnx|]. split; [|exact Hlen].
    eapply reach_next; eassumption.
  - intros c a b H0 H1. subst w.
    destruct (@Compare_total c a b Hw ltac:(rewrite H1; exact Hw))
      as (N & r & c' & Hc & Hr).
    exists N. intros fuel Hle. exists r, c'. split; [|exact Hr].
    apply (Compare_mono _ _ _ Hc Hle).
  - intros c buf a H0. subst w.
    destruct (@Key_total c buf a Hw) as (N & i & c' & _ & Hk).
    exists N. intros fuel Hle. eexists _, _, _.
    apply (Key_mono _ _ _ Hk Hle).
Qed.

(** C7: for every configuration and all inputs, exchanging the inputs of
    [Compare] negates its result, on this collator or on any other with the
    same settings; with a weigher that keeps its contract both calls
    return, and [Compare(x, x)] is 0. *)
Theorem Compare_antisymmetric :
  forall c c' : Collator,
    same_settings c c' -> Collator_wf c -> Collator_wf c' -> WeigherOK (t c) ->
    forall x y : list Z,
      (forall fuel r c1,
         Compare fuel c x y = Ok (r, c1) ->
         exists c2, Compare fuel c' y x = Ok (- r, c2))
      /\ exists N, forall fuel, (N <= fuel)%nat ->
           exists r c1 c2 c3,
             Compare fuel c x y = Ok (r, c1)
             /\ Compare fuel c' y x = Ok (- r, c2)
             /\ (r = -1 \/ r = 0 \/ r = 1)
             /\ Compare fuel c x x = Ok (0, c3).
Proof.
  intros c c' Hs Hwf Hwf' Hw x y. split.
  - intros fuel r c1 H. eapply Compare_antisym; eassumption.
  - pose proof Hwf as [Hw0 Hw1].
    destruct (@Compare_total c x y ltac:(rewrite Hw0; exact Hw)
                ltac:(rewrite Hw1; exact Hw)) as (N1 & r & c1 & Hc & Hr).
    destruct (@Compare_total c x x ltac:(rewrite Hw0; exact Hw)
                ltac:(rewrite Hw1; exact Hw)) as (N2 & r0 & c3 & Hc0 & _).
    exists (Nat.max N1 N2). intros fuel Hle.
    assert (Hxy : Compare fuel c x y = Ok (r, c1))
      by (apply (Compare_mono _ _ _ Hc); lia).
    assert (Hxx : Compare fuel c x x = Ok (r0, c3))
      by (apply (Compare_mono _ _ _ Hc0); lia).
    destruct (@Compare_antisym _ _ _ _ _ _ _ Hs Hwf Hwf' Hxy) as (c2 & Hyx).
    destruct (@Compare_antisym _ _ _ _ _ _ _ Hs Hwf Hwf' Hxx) as (c4 & Hxx').
    pose proof (@Compare_congr fuel c c' x x Hs
                  ltac:(destruct Hwf, Hwf', Hs as (_ & _ & _ & _ & ?); congruence)
                  ltac:(destruct Hwf, Hwf', Hs as (_ & _ & _ & _ & ?); congruence))
      as Hcg.
    rewrite Hxx, Hxx' in Hcg. cbn in Hcg. injection Hcg as Hz.
    assert (r0 = 0) by lia. subst r0.
    exists r, c1, c2, c3. auto.
Qed.

(** C6 (as the code has it): [setInput] empties the element buffer and
    zeroes [nce], [prevCCC] and [pStarter], but leaves [pce] as the last
    level walk set it; [compareLevel] zeroes [pce] itself before it reads
    it.  So no call is contaminated by an earlier one: two collators with
    the same settings and weigher give the same [Compare] result and the
    same key, whatever state their iterators were left in. *)
Theorem reset_leaves_cursor_and_calls_are_independent :
  forall (i : @iter Elem) (s : list Z),
    (bytes (setInput i s) = s /\ ce (setInput i s) = [] /\ nce (setInput i s) = 0
     /\ prevCCC (setInput i s) = 0 /\ pStarter (setInput i s) = 0
     /\ pce (setInput i s) = pce i)
    /\ (forall fuel (f : @iter Elem -> result (Z * @iter Elem)) a b p q,
          compareLevel fuel f (with_pce a p) (with_pce b q) = compareLevel fuel f a b)
    /\ (forall fuel (c c' : Collator) a b,
          same_settings c c' -> Collator_wf c -> Collator_wf c' ->
          result_map fst (Compare fuel c a b) = result_map fst (Compare fuel c' a b))
    /\ (forall fuel (c c' : Collator) buf a,
          same_settings c c' -> Collator_wf c -> Collator_wf c' ->
          result_map fst (Key fuel c buf a) = result_map fst (Key fuel c' buf a)).
Proof.
  intros i s. split; [|split; [|split]].
  - unfold setInput, reset. cbn. repeat split; reflexivity.
  - intros. reflexivity.
  - intros fuel c c' a b Hs [H0 H1] [H0' H1'].
    pose proof Hs as (_ & _ & _ & _ & Ht).
    apply Compare_congr; [exact Hs|congruence|congruence].
  - intros fuel c c' buf a Hs [H0 H1] [H0' H1'].
    pose proof Hs as (_ & _ & _ & _ & Ht).
    apply Key_congr; [exact Hs|congruence].
Qed.

End Properties.

(** * The scenarios on the small weight table *)

Lemma toyWeigher_ok : WeigherOK toyWeigher.
Proof.
  intros buf s Hs. destruct s as [|b s]; [contradiction|].
  cbn [toyWeigher AppendNext fst snd]. split.
  - rewrite length_app.
    assert (H : (1 <= length (toy_elems b))%nat).
    { unfold toy_elems.
      repeat match goal with
             | |- context [if ?x then _ else _] => destruct x
             end; cbn; lia. }
    lia.
  - unfold len. cbn [length]. lia.
Qed.

(** C1 (the code at the failing input): with Alternate = AltShifted and the
    default strength Tertiary, [Compare] of "a" and "b" is 0, while the key
    of "a" is bytewise below the key of "b". *)
Theorem Compare_Shifted_disagrees_with_keys :
  result_map fst (Compare 10 (toyCollator colltab.Tertiary AltShifted) [97] [98]) = Ok 0
  /\ key_of 10 (toyCollator colltab.Tertiary AltShifted) [97]
     = Ok [16; 97; 0; 0; 0; 32; 0; 0; 2]
  /\ key_of 10 (toyCollator colltab.Tertiary AltShifted) [98]
     = Ok [16; 98; 0; 0; 0; 32; 0; 0; 2]
  /\ bytes_Compare [16; 97; 0; 0; 0; 32; 0; 0; 2] [16; 98; 0; 0; 0; 32; 0; 0; 2] = -1.
Proof. repeat split; vm_compute; reflexivity. Qed.

(** C2 (the code at the failing inputs): [Compare] never processes the
    variables.  With the space a variable, under Blanked [Compare] of
    "de luge" and "deluge" is -1, although the processed primary weights of
    the two inputs are the same and [Key] gives them equal keys.  Under
    Shifted [Compare] of "a" and "b" at strength Primary is 0, although
    processing leaves their elements as they are and [Compare] finds -1
    under NonIgnorable; and [Compare] of "de luge" and "deluge" is 0 at
    strength Primary and at strength Quaternary, where the key of
    "de luge" is below the key of "deluge". *)
Theorem Compare_does_not_process_variables :
  result_map fst (Compare 20 (toyCollator colltab.Primary AltBlanked) de_luge deluge)
  = Ok (-1)
  /\ colElems 20 toyWeigher de_luge = Ok (flat_map toy_elems de_luge)
  /\ colElems 20 toyWeigher deluge = Ok (flat_map toy_elems deluge)
  /\ weights Primary (processWeights AltBlanked 0x0FFF (flat_map toy_elems de_luge))
     = weights Primary (processWeights AltBlanked 0x0FFF (flat_map toy_elems deluge))
  /\ key_of 20 (toyCollator colltab.Primary AltBlanked) de_luge
     = key_of 20 (toyCollator colltab.Primary AltBlanked) deluge
  /\ result_map fst (Compare 20 (toyCollator colltab.Primary AltShifted) [97] [98]) = Ok 0
  /\ result_map fst (Compare 20 (toyCollator colltab.Primary AltNonIgnorable) [97] [98])
     = Ok (-1)
  /\ processWeights AltShifted 0x0FFF (toy_elems 97) = toy_elems 97
  /\ processWeights AltShifted 0x0FFF (toy_elems 98) = toy_elems 98
  /\ result_map fst (Compare 20 (toyCollator colltab.Primary AltShifted) de_luge deluge)
     = Ok 0
  /\ result_map fst (Compare 20 (toyCollator colltab.Quaternary AltShifted) de_luge deluge)
     = Ok 0
  /\ (exists ka kb,
        key_of 20 (toyCollator colltab.Quaternary AltShifted) de_luge = Ok ka
        /\ key_of 20 (toyCollator colltab.Quaternary AltShifted) deluge = Ok kb
        /\ bytes_Compare ka kb = -1).
Proof.
  do 11 (split; [vm_compute; reflexivity|]).
  eexists _, _. split; [vm_compute; reflexivity|].
  split; [vm_compute; reflexivity|]. vm_compute. reflexivity.
Qed.

(** C5, refuted as stated: at strength Quaternary under Shifted the key of
    the empty input is five zero bytes, not three separators of two; and
    with the case level alone the encoder writes two separators where
    section 4.6 has one. *)
Lemma quaternary_separator_is_one_byte :
  key (keyFromElems (toyCollator colltab.Quaternary AltShifted) (mkBuffer []) [])
  = [0; 0; 0; 0; 0]
  /\ key_spec (toyCollator colltab.Quaternary AltShifted) [] = [0; 0; 0; 0; 0; 0]
  /\ key (keyFromElems (with_settings (NewFromTable toyWeigher) colltab.Primary
                          AltNonIgnorable false true) (mkBuffer []) [])
     = [0; 0; 0; 0]
  /\ key_spec (with_settings (NewFromTable toyWeigher) colltab.Primary
                 AltNonIgnorable false true) [] = [0; 0].
Proof. repeat split; vm_compute; reflexivity. Qed.

Lemma keyFromElems_separators_witness :
  has_quaternary (toyCollator colltab.Tertiary AltNonIgnorable) = false
  /\ (CaseLevel (toyCollator colltab.Tertiary AltNonIgnorable) = true ->
      has_secondary (toyCollator colltab.Tertiary AltNonIgnorable) = true)
  /\ key (keyFromElems (toyCollator colltab.Tertiary AltNonIgnorable) (mkBuffer [])
            (toy_elems 97))
     = key_spec (toyCollator colltab.Tertiary AltNonIgnorable) (toy_elems 97).
Proof.
  split; [reflexivity|]. split; [intros _; reflexivity|].
  destruct (keyFromElems_separators (toyCollator colltab.Tertiary AltNonIgnorable)
              (mkBuffer []) (toy_elems 97)) as [_ H].
  apply H; [reflexivity|intros _; reflexivity].
Defined.

(** C6, refuted as stated: after a first [Compare] of "a" with "a" the
    cursor of the first iterator is 1, and [setInput] for the next call
    empties the buffer and zeroes [nce] but leaves the cursor at 1. *)
Lemma setInput_keeps_stale_cursor :
  pce (_iter0 (after_Compare 20 (toyCollator colltab.Tertiary AltNonIgnorable) [97] [97]))
  = 1
  /\ ce (setInput (_iter0 (after_Compare 20 (toyCollator colltab.Tertiary AltNonIgnorable)
                             [97] [97])) [98]) = []
  /\ nce (setInput (_iter0 (after_Compare 20 (toyCollator colltab.Tertiary AltNonIgnorable)
                              [97] [97])) [98]) = 0
  /\ pce (setInput (_iter0 (after_Compare 20 (toyCollator colltab.Tertiary AltNonIgnorable)
                              [97] [97])) [98]) <> 0.
Proof. repeat split; vm_compute; congruence. Qed.

Lemma reset_leaves_cursor_and_calls_are_independent_witness :
  same_settings (toyCollator colltab.Tertiary AltNonIgnorable)
    (after_Compare 20 (toyCollator colltab.Tertiary AltNonIgnorable) [97] [97])
  /\ Collator_wf (toyCollator colltab.Tertiary AltNonIgnorable)
  /\ Collator_wf (after_Compare 20 (toyCollator colltab.Tertiary AltNonIgnorable) [97] [97])
  /\ result_map fst (Compare 20 (toyCollator colltab.Tertiary AltNonIgnorable) [97] [98])
     = result_map fst
         (Compare 20 (after_Compare 20 (toyCollator colltab.Tertiary AltNonIgnorable)
                        [97] [97]) [97] [98]).
Proof.
  assert (Hs : same_settings (toyCollator colltab.Tertiary AltNonIgnorable)
                 (after_Compare 20 (toyCollator colltab.Tertiary AltNonIgnorable)
                    [97] [97]))
    by (repeat split; reflexivity).
  assert (Hw : Collator_wf (toyCollator colltab.Tertiary AltNonIgnorable))
    by (split; reflexivity).
  assert (Hw' : Collator_wf (after_Compare 20
                               (toyCollator colltab.Tertiary AltNonIgnorable) [97] [97]))
    by (split; reflexivity).
  split; [exact Hs|]. split; [exact Hw|]. split; [exact Hw'|].
  destruct (reset_leaves_cursor_and_calls_are_independent
              (iter_init toyWeigher) []) as (_ & _ & H & _).
  apply H; assumption.
Defined.

Lemma Compare_antisymmetric_witness :
  same_settings (toyCollator colltab.Tertiary AltNonIgnorable)
    (toyCollator colltab.Tertiary AltNonIgnorable)
  /\ Collator_wf (toyCollator colltab.Tertiary AltNonIgnorable)
  /\ WeigherOK (t (toyCollator colltab.Tertiary AltNonIgnorable))
  /\ exists N, forall fuel, (N <= fuel)%nat ->
       exists r c1 c2 c3,
         Compare fuel (toyCollator colltab.Tertiary AltNonIgnorable) de_luge deluge
         = Ok (r, c1)
         /\ Compare fuel (toyCollator colltab.Tertiary AltNonIgnorable) deluge de_luge
            = Ok (- r, c2)
         /\ (r = -1 \/ r = 0 \/ r = 1)
         /\ Compare fuel (toyCollator colltab.Tertiary AltNonIgnorable) de_luge de_luge
            = Ok (0, c3).
Proof.
  assert (Hs : same_settings (toyCollator colltab.Tertiary AltNonIgnorable)
                 (toyCollator colltab.Tertiary AltNonIgnorable))
    by (repeat split; reflexivity).
  assert (Hw : Collator_wf (toyCollator colltab.Tertiary AltNonIgnorable))
    by (split; reflexivity).
  split; [exact Hs|]. split; [exact Hw|]. split; [exact toyWeigher_ok|].
  destruct (Compare_antisymmetric Hs Hw Hw toyWeigher_ok de_luge deluge) as [_ H].
  exact H.
Defined.

(** C8, refuted as stated: on a block of two elements [doNorm] moves the
    whole block in front of the mark of class 240, where the rotation of
    section 4.2, which takes [k] to be the last element, changes nothing. *)
Lemma doNorm_moves_more_than_last_element :
  result_map ce (doNorm blockIter 2 230)
  = Ok [mkW 0x1061 0x20 2 0x1FFFFF 0; mkW 0 0x23 2 0x1FFFFF 230;
        mkW 0 0x24 2 0x1FFFFF 230; mkW 0 0x22 2 0x1FFFFF 240]
  /\ ce (doNorm_spec blockIter 2 230) = ce blockIter
  /\ doNorm blockIter 2 230 <> Ok (doNorm_spec blockIter 2 230)
  /\ result_map (fun x => ce (snd x)) (next 5 (setInput (iter_init toyWeigher) [97; 2; 3]))
     = Ok [mkW 0x1061 0x20 2 0x1FFFFF 0].
Proof.
  split; [vm_compute; reflexivity|]. split; [vm_compute; reflexivity|].
  split; [|vm_compute; reflexivity].
  intro H. apply (f_equal (result_map ce)) in H. vm_compute in H. discriminate H.
Qed.

Lemma doNorm_moves_whole_block_witness :
  0 <= pStarter blockIter
  /\ 1 <= 2 <= len (ce blockIter)
  /\ exists q i',
       doNorm blockIter 2 230 = Ok i'
       /\ i' = with_ce blockIter (move_block (ce blockIter) (Z.to_nat q) (Z.to_nat 2))
       /\ Permutation (ce i') (ce blockIter).
Proof.
  assert (H1 : 0 <= pStarter blockIter) by (cbn; lia).
  assert (H2 : 1 <= 2 <= len (ce blockIter)) by (cbn; lia).
  split; [exact H1|]. split; [exact H2|].
  destruct (doNorm_moves_whole_block blockIter 230 H1 H2) as [_ Hb].
  destruct Hb as (q & i' & Hd & Hi & _ & _ & _ & _ & Hp & _).
  { unfold maxCombiningCharacters. cbn. lia. }
  exists q, i'. auto.
Defined.

Lemma operations_terminate_under_contract_witness :
  WeigherOK toyWeigher
  /\ (exists N, forall fuel, (N <= fuel)%nat ->
        exists r c', Compare fuel (NewFromTable toyWeigher) de_luge deluge = Ok (r, c')
                     /\ (r = -1 \/ r = 0 \/ r = 1))
  /\ (exists N, forall fuel, (N <= fuel)%nat ->
        exists k buf' c', Key fuel (NewFromTable toyWeigher) (mkBuffer []) [255; 254]
                          = Ok (k, buf', c')).
Proof.
  split; [exact toyWeigher_ok|].
  destruct (operations_terminate_under_contract toyWeigher_ok) as (_ & Hc & Hk).
  split.
  - apply Hc; reflexivity.
  - apply Hk; reflexivity.
Defined.

(** C10, refuted: no reachable iterator state, whatever its secondary
    weights, makes [prevSecondary] read outside the buffer. *)
Lemma prevSecondary_has_no_faulting_state :
  ~ exists (Elem : Type) (EO : ElemOps Elem) (i : @iter Elem),
      reachable i /\ prevSecondary i = Panic.
Proof.
  intros (Elem & EO & i & Hr & Hp).
  destruct (prevSecondary_in_bounds i (reachable_pce_nonneg Hr)) as (v & i' & Hs & _).
  rewrite Hs in Hp. discriminate Hp.
Qed.

Lemma zeroSecondaryIter_reachable : reachable zeroSecondaryIter.
Proof.
  apply reach_next with (fuel := 1%nat) (i := setInput (iter_init toyWeigher) [4])
                        (b := true).
  - apply reach_setInput, reach_init.
  - vm_compute. reflexivity.
Defined.

Lemma prevSecondary_never_out_of_range_witness :
  reachable zeroSecondaryIter
  /\ map Secondary (ce zeroSecondaryIter) = [0]
  /\ exists v i',
       prevSecondary zeroSecondaryIter = Ok (v, i') /\ reachable i'.
Proof.
  split; [exact zeroSecondaryIter_reachable|]. split; [reflexivity|].
  destruct (prevSecondary_never_out_of_range zeroSecondaryIter_reachable)
    as (_ & v & i' & Hs & Hr & _).
  exists v, i'. auto.
Defined.

(** * Further properties of collate.go *)

Section Coverage.

Context {Elem : Type} {EO : ElemOps Elem}.

(** ** appendPrimary *)

Lemma lor_128 (x : Z) : 0 <= x < 128 -> Z.lor x 128 = x + 128.
Proof.
  intros [H0 H1]. destruct x as [|p|p]; try lia; [reflexivity|].
  do 7 (destruct p as [p|p|]; try lia; try reflexivity).
Qed.

Lemma bytes_Compare_lt (x y : Z) (a b : list Z) :
  x < y -> bytes_Compare (x :: a) (y :: b) = -1.
Proof. intro H. cbn. destruct (Z.ltb_spec x y); [reflexivity|lia]. Qed.

Lemma bytes_Compare_eq_head (x : Z) (a b : list Z) :
  bytes_Compare (x :: a) (x :: b) = bytes_Compare a b.
Proof. cbn. now rewrite Z.ltb_irrefl. Qed.

Lemma appendPrimary_bytes (p : Z) :
  0 <= p < 2 ^ 23 ->
  appendPrimary [] p
  = if p <=? 0x7FFF then [p / 256; p mod 256]
    else [p / 65536 + 128; (p / 256) mod 256; p mod 256].
Proof.
  intros Hp. unfold appendPrimary, uint8. rewrite !Z.shiftr_div_pow2 by lia.
  change (2 ^ 8) with 256. change (2 ^ 16) with 65536.
  destruct (Z.leb_spec p 0x7FFF) as [Hs|Hl]; cbn [app].
  - f_equal. apply Z.mod_small. Z.to_euclidean_division_equations. lia.
  - f_equal. rewrite Z.mod_small by (Z.to_euclidean_division_equations; lia).
    apply lor_128. Z.to_euclidean_division_equations. lia.
Qed.

Lemma appendPrimary_lt :
  forall (p q : Z) (t1 t2 : list Z),
    0 <= p -> p < q -> q < 2 ^ 23 ->
    bytes_Compare (appendPrimary [] p ++ t1) (appendPrimary [] q ++ t2) = -1.
Proof.
  intros p q t1 t2 H0 Hpq Hq.
  rewrite !appendPrimary_bytes by lia.
  destruct (Z.leb_spec p 0x7FFF) as [Hp|Hp], (Z.leb_spec q 0x7FFF) as [Hq'|Hq'];
    try lia; cbn [app].
  - destruct (Z.lt_ge_cases (p / 256) (q / 256)) as [Hlt|Hge].
    + now apply bytes_Compare_lt.
    + assert (E : p / 256 = q / 256) by (Z.to_euclidean_division_equations; lia).
      rewrite E, bytes_Compare_eq_head. apply bytes_Compare_lt.
      Z.to_euclidean_division_equations. lia.
  - apply bytes_Compare_lt. Z.to_euclidean_division_equations. lia.
  - destruct (Z.lt_ge_cases (p / 65536) (q / 65536)) as [Hlt|Hge].
    + apply bytes_Compare_lt. lia.
    + assert (E : p / 65536 = q / 65536) by (Z.to_euclidean_division_equations; lia).
      rewrite E, bytes_Compare_eq_head.
      destruct (Z.lt_ge_cases ((p / 256) mod 256) ((q / 256) mod 256)) as [Hlt2|Hge2].
      * now apply bytes_Compare_lt.
      * assert (E2 : (p / 256) mod 256 = (q / 256) mod 256)
          by (Z.to_euclidean_division_equations; lia).
        rewrite E2, bytes_Compare_eq_head. apply bytes_Compare_lt.
        Z.to_euclidean_division_equations. lia.
Qed.

Lemma appendPrimary_above_separator (p : Z) (t t' : list Z) :
  0 < p < 2 ^ 23 ->
  bytes_Compare (0 :: 0 :: t) (appendPrimary [] p ++ t') = -1.
Proof.
  intros Hp. rewrite appendPrimary_bytes by lia.
  destruct (Z.leb_spec p 0x7FFF) as [Hs|Hl]; cbn [app].
  - destruct (Z.lt_ge_cases 0 (p / 256)) as [Hlt|Hge].
    + now apply bytes_Compare_lt.
    + assert (E : p / 256 = 0) by (Z.to_euclidean_division_equations; lia).
      rewrite E, bytes_Compare_eq_head. apply bytes_Compare_lt.
      Z.to_euclidean_division_equations. lia.
  - apply bytes_Compare_lt. Z.to_euclidean_division_equations. lia.
Qed.

(** X1: on 23-bit weights [appendPrimary] is strictly monotone and no
    encoding is the beginning of another: the bytes of a smaller weight,
    whatever follows them, compare below the bytes of a larger one. *)
Theorem appendPrimary_monotone :
  forall (p q : Z) (t1 t2 : list Z),
    0 <= p -> p < q -> q < 2 ^ 23 ->
    bytes_Compare (appendPrimary [] p ++ t1) (appendPrimary [] q ++ t2) = -1.
Proof. exact appendPrimary_lt. Qed.

Lemma appendPrimary_monotone_witness :
  0 <= 0x7FFF /\ 0x7FFF < 0x8000 /\ 0x8000 < 2 ^ 23
  /\ bytes_Compare (appendPrimary [] 0x7FFF ++ [0xFF]) (appendPrimary [] 0x8000 ++ []) = -1.
Proof.
  assert (H0 : 0 <= 0x7FFF) by lia.
  assert (H1 : 0x7FFF < 0x8000) by lia.
  assert (H2 : 0x8000 < 2 ^ 23) by lia.
  split; [exact H0|]. split; [exact H1|]. split; [exact H2|].
  exact (@appendPrimary_monotone 0x7FFF 0x8000 [0xFF] [] H0 H1 H2).
Defined.

(** X2: every byte [appendPrimary] writes for a 23-bit weight is a byte;
    the bytes of a positive weight, whatever follows them, compare above
    the two zero bytes of a level separator and above the empty string; and
    the first byte stays below the 0xFF that stands for [MaxQuaternary]
    exactly when the weight is below 0x7F0000. *)
Theorem appendPrimary_first_bytes :
  forall p : Z,
    0 < p < 2 ^ 23 ->
    Forall (fun b => 0 <= b < 256) (appendPrimary [] p)
    /\ (forall t t', bytes_Compare (0 :: 0 :: t) (appendPrimary [] p ++ t') = -1)
    /\ (forall t, bytes_Compare [] (appendPrimary [] p ++ t) = -1)
    /\ exists b rest,
         appendPrimary [] p = b :: rest /\ (b < 0xFF <-> p < 0x7F0000).
Proof.
  intros p Hp.
  split; [|split; [intros t t'; now apply appendPrimary_above_separator|]];
    rewrite appendPrimary_bytes by lia;
    destruct (Z.leb_spec p 0x7FFF) as [Hs|Hl].
  - repeat constructor; Z.to_euclidean_division_equations; lia.
  - repeat constructor; Z.to_euclidean_division_equations; lia.
  - split; [intro t; reflexivity|].
    eexists _, _. split; [reflexivity|]. Z.to_euclidean_division_equations. lia.
  - split; [intro t; reflexivity|].
    eexists _, _. split; [reflexivity|]. Z.to_euclidean_division_equations. lia.
Qed.

Lemma appendPrimary_first_bytes_witness :
  0 < 0x7F0000 < 2 ^ 23
  /\ exists rest, appendPrimary [] 0x7F0000 = 0xFF :: rest.
Proof.
  assert (H : 0 < 0x7F0000 < 2 ^ 23) by lia.
  split; [exact H|].
  destruct (@appendPrimary_first_bytes 0x7F0000 H) as (_ & _ & _ & b & rest & E & _).
  exists rest. rewrite E. f_equal.
  apply (f_equal (fun l => hd 0 l)) in E. cbn in E. symmetry. exact E.
Defined.

(** ** processWeights *)

Lemma processWeights_shifted_fixed (top : Z) (ws : list Elem) :
  forall ig,
    processWeights_shifted top false (processWeights_shifted top ig ws)
    = processWeights_shifted top ig ws.
Proof.
  induction ws as [|e rest IH]; intro ig; [reflexivity|].
  cbn [processWeights_shifted]. cbv zeta.
  destruct ((Primary e <=? top) && negb (Primary e =? 0)) eqn:Ev.
  - cbn [processWeights_shifted]. cbv zeta.
    rewrite Primary_MakeQuaternary. cbn [Z.eqb negb].
    rewrite andb_false_r, IH. reflexivity.
  - destruct (Z.eqb_spec (Primary e) 0) as [H0|Hn0].
    + cbn [processWeights_shifted]. cbv zeta.
      assert (Hz : Primary (if ig then Ignore else e) = 0)
        by (destruct ig; [apply Primary_Ignore|exact H0]).
      rewrite Hz. cbn [Z.eqb negb]. rewrite andb_false_r, IH. reflexivity.
    + cbn [processWeights_shifted]. cbv zeta.
      destruct (Z.eqb_spec (Primary e) 0); [contradiction|].
      rewrite Ev, IH. reflexivity.
Qed.

Lemma processWeights_blanked_fixed (top : Z) (ws : list Elem) :
  forall ig,
    processWeights_blanked top false (processWeights_blanked top ig ws)
    = processWeights_blanked top ig ws.
Proof.
  induction ws as [|e rest IH]; intro ig; [reflexivity|].
  cbn [processWeights_blanked]. cbv zeta.
  destruct ((Primary e <=? top) && (ig || negb (Primary e =? 0))) eqn:Ev.
  - cbn [processWeights_blanked]. cbv zeta.
    rewrite Primary_Ignore. cbn [Z.eqb negb orb].
    rewrite andb_false_r, IH. reflexivity.
  - cbn [processWeights_blanked]. cbv zeta. cbn [orb].
    assert (Ev' : (Primary e <=? top) && negb (Primary e =? 0) = false).
    { destruct (Primary e <=? top); [|reflexivity]. cbn [andb] in Ev |- *.
      apply orb_false_iff in Ev. tauto. }
    rewrite Ev', IH. reflexivity.
Qed.

(** X3: [processWeights] is idempotent: a second pass over weights that
    were already processed under the same alternate changes nothing. *)
Theorem processWeights_idempotent :
  forall (vw : AlternateHandling) (top : Z) (ws : list Elem),
    processWeights vw top (processWeights vw top ws) = processWeights vw top ws.
Proof.
  intros vw top ws. destruct vw; cbn [processWeights].
  - reflexivity.
  - apply processWeights_blanked_fixed.
  - apply processWeights_shifted_fixed.
  - apply processWeights_shifted_fixed.
Qed.

Lemma processWeights_shifted_nth (top : Z) (ws : list Elem) :
  forall ig n e,
    nth_error ws n = Some e -> top < Primary e -> Primary e <> 0 ->
    nth_error (processWeights_shifted top ig ws) n = Some e.
Proof.
  induction ws as [|x rest IH]; intros ig n e Hn He Hnz; [destruct n; discriminate|].
  cbn [processWeights_shifted]. cbv zeta. destruct n as [|n]; cbn [nth_error] in Hn |- *.
  - injection Hn as ->.
    destruct (Z.leb_spec (Primary e) top); [lia|]. cbn [andb].
    destruct (Z.eqb_spec (Primary e) 0); [contradiction|reflexivity].
  - destruct ((Primary x <=? top) && negb (Primary x =? 0));
      [|destruct (Primary x =? 0)]; cbn [nth_error]; now apply IH.
Qed.

Lemma processWeights_blanked_nth (top : Z) (ws : list Elem) :
  forall ig n e,
    nth_error ws n = Some e -> top < Primary e -> Primary e <> 0 ->
    nth_error (processWeights_blanked top ig ws) n = Some e.
Proof.
  induction ws as [|x rest IH]; intros ig n e Hn He Hnz; [destruct n; discriminate|].
  cbn [processWeights_blanked]. cbv zeta. destruct n as [|n]; cbn [nth_error] in Hn |- *.
  - injection Hn as ->.
    destruct (Z.leb_spec (Primary e) top); [lia|]. reflexivity.
  - destruct ((Primary x <=? top) && (ig || negb (Primary x =? 0)));
      cbn [nth_error]; now apply IH.
Qed.

(** X4: [processWeights] keeps the number of elements and, under any
    alternate, never touches an element whose primary weight is not zero
    and above the variable top. *)
Theorem processWeights_keeps_non_variables :
  forall (vw : AlternateHandling) (top : Z) (ws : list Elem),
    length (processWeights vw top ws) = length ws
    /\ forall n e, nth_error ws n = Some e -> top < Primary e -> Primary e <> 0 ->
                   nth_error (processWeights vw top ws) n = Some e.
Proof.
  intros vw top ws. split; [apply processWeights_length|].
  intros n e Hn He Hnz. destruct vw; cbn [processWeights].
  - exact Hn.
  - now apply processWeights_blanked_nth.
  - now apply processWeights_shifted_nth.
  - now apply processWeights_shifted_nth.
Qed.

(** ** Compare at strength Identity *)

Lemma bytes_Compare_zero (a b : list Z) : bytes_Compare a b = 0 -> a = b.
Proof.
  revert b. induction a as [|x a IH]; intros [|y b] H; cbn in H;
    try reflexivity; try discriminate.
  destruct (Z.ltb_spec x y); [discriminate|].
  destruct (Z.ltb_spec y x); [discriminate|].
  f_equal; [lia|now apply IH].
Qed.

(** X5: at strength Identity ties are broken by the bytes.  Whenever
    [compare] finds a difference at a collation level, [Compare] returns
    it; whenever it finds none, [Compare] returns [bytes.Compare(a, b)].
    So [Compare] returns 0 only for inputs that are the same bytes, and,
    on a collator whose iterators share its weigher, for all of these. *)
Theorem Compare_Identity_zero_only_if_equal :
  forall (fuel : nat) (c c' : Collator) (a b : list Z) (r : Z),
    Strength c = colltab.Identity ->
    Compare fuel c a b = Ok (r, c') ->
    (exists r0 c0,
        compare fuel (with_iters c (setInput (_iter0 c) a) (setInput (_iter1 c) b))
        = Ok (r0, c0)
        /\ (r0 <> 0 -> r = r0) /\ (r0 = 0 -> r = bytes_Compare a b))
    /\ (r = 0 -> a = b)
    /\ (Collator_wf c -> a = b -> r = 0).
Proof.
  intros fuel c c' a b r Hs H. pose proof H as H0.
  unfold Compare in H. cbv zeta in H.
  destruct (compare fuel _) as [[r0 c1]| |] eqn:E; cbn [bind] in H; try discriminate H.
  pose proof (compare_settings _ _ E) as (ia & ib & ->).
  cbn [Strength with_iters] in H. rewrite Hs in H.
  change (colltab.eqb colltab.Identity colltab.Identity) with true in H. cbv iota in H.
  assert (Hr : (r0 <> 0 -> r = r0) /\ (r0 = 0 -> r = bytes_Compare a b)).
  { destruct (Z.eqb_spec r0 0) as [Hz|Hnz]; cbn [negb] in H; injection H as <- _;
      split; intro; congruence. }
  split; [exists r0, (with_iters c ia ib); split; [reflexivity|exact Hr]|].
  split.
  - intros ->. destruct Hr as [Hn Hz]. destruct (Z.eq_dec r0 0) as [E0|E0].
    + apply bytes_Compare_zero. symmetry. now apply Hz.
    + specialize (Hn E0). congruence.
  - intros Hwf ->.
    destruct (@Compare_antisym _ _ fuel c c c' b b r) as [c2 H2]; try assumption.
    + repeat split; reflexivity.
    + rewrite H0 in H2. injection H2 as H2 _. lia.
Qed.

(** ** Key and the buffer *)

Lemma drain_frame :
  forall (fuel : nat) (i i' : iter), drain fuel i = Ok i' -> it i' = it i.
Proof.
  induction fuel as [|fuel IH]; intros i i' H; cbn [drain] in H; [discriminate|].
  destruct (next fuel i) as [[more i1]| |] eqn:En; cbn [bind] in H; try discriminate H.
  apply next_frame in En. destruct En as [_ Ht]. destruct more.
  - apply IH in H. congruence.
  - injection H as <-. exact Ht.
Qed.

(** [Key] in one piece: the elements of the input are collected, processed
    in place and laid out behind what the buffer holds. *)
Lemma Key_unfold (fuel : nat) (c : Collator) (buf : Buffer) (str : list Z) :
  Key fuel c buf str =
  i <- drain fuel (setInput (_iter0 c) str) ;;
  let w' := processWeights (Alternate c) (Top (t c)) (ce i) in
  Ok (key_layout c w', mkBuffer (key buf ++ key_layout c w'),
      with_iters c (with_ce i w') (_iter1 c)).
Proof.
  unfold Key, getColElems, Buffer_init.
  destruct (drain fuel (setInput (_iter0 c) str)) as [i| |]; cbn [bind]; try reflexivity.
  unfold Collator_key. cbn [Alternate t with_iters].
  set (w' := processWeights (Alternate c) (Top (t c)) (ce i)).
  assert (Hk : key (keyFromElems (with_iters c i (_iter1 c)) buf w')
               = key buf ++ key_layout c w').
  { rewrite keyFromElems_layout. reflexivity. }
  rewrite Hk, slice_from_Ok.
  - cbn [bind]. unfold len. rewrite Nat2Z.id, skipn_app, skipn_all, Nat.sub_diag.
    cbn [skipn app _iter0 _iter1 with_iters]. do 3 f_equal.
    destruct (keyFromElems _ buf w') as [k]. cbn [key] in Hk. now subst k.
  - rewrite len_app. pose proof (len_nonneg (key buf)).
    pose proof (len_nonneg (key_layout c w')). lia.
Qed.

(** X6: a key that [Key] returns is exactly what it appended to the buffer,
    behind the keys already there; and the same call on the collator it
    leaves behind, with any buffer (in particular after [Reset]), returns
    the same key again. *)
Theorem Key_appends_and_repeats :
  forall (fuel : nat) (c c' : Collator) (buf buf' : Buffer) (str k : list Z),
    Key fuel c buf str = Ok (k, buf', c') ->
    key buf' = key buf ++ k
    /\ (forall buf2, exists buf3 c3,
          Key fuel c' buf2 str = Ok (k, buf3, c3) /\ key buf3 = key buf2 ++ k)
    /\ exists c3, Key fuel c' (Buffer_Reset buf') str = Ok (k, mkBuffer k, c3).
Proof.
  intros fuel c c' buf buf' str k H.
  rewrite Key_unfold in H.
  destruct (drain fuel (setInput (_iter0 c) str)) as [i| |] eqn:Ed; cbn [bind] in H;
    try discriminate H.
  cbv zeta in H. injection H as Hk Hb Hc.
  assert (Hrep : forall buf2, exists c3,
            Key fuel c' buf2 str = Ok (k, mkBuffer (key buf2 ++ k), c3)).
  { intro buf2. rewrite Key_unfold.
    assert (Hi : setInput (_iter0 c') str
                 = with_pce (with_pce (setInput (_iter0 c) str) 0) (pce i)).
    { subst c'. cbn [_iter0 with_iters]. pose proof (drain_frame _ _ Ed) as Ht.
      change (it (setInput (_iter0 c) str)) with (it (_iter0 c)) in Ht.
      clear - Ht. destruct i, (_iter0 c). cbn in Ht. subst. reflexivity. }
    assert (Hj : setInput (_iter0 c) str
                 = with_pce (with_pce (setInput (_iter0 c) str) 0) (pce (_iter0 c)))
      by reflexivity.
    rewrite Hj, drain_with_pce in Ed. rewrite Hi, drain_with_pce.
    destruct (drain fuel (with_pce (setInput (_iter0 c) str) 0)) as [j| |];
      cbn [result_map] in Ed; try discriminate Ed.
    injection Ed as <-. cbn [result_map bind]. cbv zeta.
    subst c'. cbn [Alternate t with_iters ce with_pce] in *.
    eexists. rewrite <- Hk. reflexivity. }
  split; [subst buf'; cbn [key]; subst k; reflexivity|]. split.
  - intro buf2. destruct (Hrep buf2) as [c3 H3]. eexists _, c3. split; [exact H3|reflexivity].
  - destruct (Hrep (Buffer_Reset buf')) as [c3 H3]. exists c3. exact H3.
Qed.

(** ** The released window *)

Lemma firstn_app_le {A : Type} (n : nat) (l1 l2 : list A) :
  (n <= length l1)%nat -> firstn n (l1 ++ l2) = firstn n l1.
Proof.
  intro H. rewrite firstn_app. replace (n - length l1)%nat with 0%nat by lia.
  cbn. apply app_nil_r.
Qed.

Lemma firstn_move_block {A : Type} (l : list A) (n q k : nat) :
  (n <= q)%nat -> (q <= k <= length l)%nat ->
  firstn n (move_block l q k) = firstn n l.
Proof.
  intros Hn Hq. unfold move_block.
  rewrite firstn_app_le by (rewrite length_firstn; lia).
  rewrite firstn_firstn. f_equal. lia.
Qed.

Lemma index_app_l {A : Type} (l1 l2 : list A) (j : Z) :
  0 <= j < len l1 -> index (l1 ++ l2) j = index l1 j.
Proof.
  intros [H0 H1]. unfold index. destruct (j <? 0); [reflexivity|].
  rewrite nth_error_app1 by (unfold len in H1; lia). reflexivity.
Qed.

Lemma index_firstn {A : Type} (l l' : list A) (n : nat) (j : Z) :
  firstn n l' = firstn n l -> 0 <= j < Z.of_nat n ->
  (n <= length l)%nat -> (n <= length l')%nat ->
  index l' j = index l j.
Proof.
  intros Hf [H0 H1] Hl Hl'. unfold index. destruct (j <? 0); [reflexivity|].
  rewrite <- (firstn_skipn n l), <- (firstn_skipn n l'), Hf.
  rewrite !nth_error_app1 by (rewrite length_firstn; lia). reflexivity.
Qed.

Lemma next_skip_prev (l : list Elem) (last : Z) :
  forall (n : nat) (p0 p1 : Z),
    next_skip n l p0 last = Ok p1 ->
    p0 <= p1 /\ (p0 < p1 -> p1 <= last)
    /\ (p0 < p1 -> exists e, index l (p1 - 1) = Ok e /\ CCC e = 0).
Proof.
  induction n as [|n IH]; intros p0 p1 H; cbn [next_skip] in H.
  - injection H as <-. repeat split; lia.
  - destruct (Z.ltb_spec p0 last) as [Hlt|Hge].
    + bind_inv_as H Ei. destruct (Z.eqb_spec (CCC a) 0) as [Hz|Hnz].
      * apply IH in H. destruct H as (Hle & Hup & Hprev).
        split; [lia|]. split; [lia|]. intros _.
        destruct (Z.eq_dec p1 (p0 + 1)) as [->|Hne].
        -- exists a. replace (p0 + 1 - 1) with p0 by lia. auto.
        -- apply Hprev. lia.
      * injection H as <-. repeat split; lia.
    + injection H as <-. repeat split; lia.
Qed.

Lemma next_released :
  forall (fuel : nat) (i : iter) (b : bool) (i' : iter),
    iter_ok i -> WeigherAppends (it i) -> window_ok i ->
    next fuel i = Ok (b, i') ->
    firstn (Z.to_nat (nce i)) (ce i') = firstn (Z.to_nat (nce i)) (ce i)
    /\ nce i <= nce i' /\ window_ok i' /\ iter_ok i'.
Proof.
  induction fuel as [|fuel IH]; intros i b i' Hok Happ Hwin H;
    rewrite next_unfold in H; unfold done in H;
    pose proof Hok as (Hw & Hps & Hnce & Hprev & Hpce);
    destruct (bytes i) as [|b0 bs] eqn:Eb; try discriminate H.
  - destruct (Z.eqb_spec (len (ce i)) (nce i)) as [Heq|Hne]; injection H as _ <-.
    + split; [reflexivity|]. split; [lia|]. split; [left; exact Eb|exact Hok].
    + iter_simpl. split; [reflexivity|]. split; [lia|].
      split; [left; exact Eb|]. pose proof (len_nonneg (ce i)). prove_iter_ok.
  - destruct (Z.eqb_spec (len (ce i)) (nce i)) as [Heq|Hne]; injection H as _ <-.
    + split; [reflexivity|]. split; [lia|]. split; [left; exact Eb|exact Hok].
    + iter_simpl. split; [reflexivity|]. split; [lia|].
      split; [left; exact Eb|]. pose proof (len_nonneg (ce i)). prove_iter_ok.
  - destruct Hwin as [Hnil|(J1 & J2 & J3 & J4)]; [congruence|].
    cbv zeta in H. unfold appendNext in H. rewrite Eb in H.
    destruct (Hw (ce i) (b0 :: bs)) as [Hgrow Hsz]; [discriminate|].
    destruct Happ as [gen Hgen]. pose proof (Hgen (ce i) (b0 :: bs)) as EA.
    rewrite EA in H, Hgrow, Hsz. cbn [fst snd] in Hgrow, Hsz.
    set (new := fst (gen (b0 :: bs))) in *. set (sz := snd (gen (b0 :: bs))) in *.
    set (l := ce i ++ new) in *.
    unfold tail in H. cbn [bytes with_ce] in H. rewrite Eb in H.
    bind_inv_as H Etl. bind_inv_as Etl Esl. rename a0 into rest.
    injection Etl as <-.
    set (i2 := with_bytes (with_ce i l) rest) in *.
    change (ce i2) with l in H. change (prevCCC i2) with (prevCCC i) in H.
    assert (Hl : len (ce i) < len l) by (unfold len; lia).
    pose proof (len_nonneg (ce i)) as Hnn.
    assert (Hpre : firstn (Z.to_nat (nce i)) l = firstn (Z.to_nat (nce i)) (ce i)).
    { unfold l. apply firstn_app_le. unfold len in Hnce. lia. }
    assert (Hgen' : WeigherAppends (it i)) by (exists gen; exact Hgen).
    bind_inv_as H Elast. rename a into e.
    destruct (Z.eqb_spec (CCC e) 0) as [Hc0|Hcn0].
    { injection H as _ <-. subst i2. iter_simpl.
      split; [exact Hpre|]. split; [lia|]. split; [|prove_iter_ok].
      right. iter_simpl. split; [lia|].
      split; [destruct (len l =? 0); lia|].
      split; [intros _; exists e; auto|auto]. }
    bind_inv_as H Est. rename a into st. destruct st.
    { destruct (Z.ltb_spec (len (ce i)) (len l - 1)) as [Hlt|Hge];
        [|discriminate Est].
      bind_inv_as Est E0. injection Est as Est. apply Z.eqb_eq in Est.
      bind_inv_as H Esk. rename a0 into p1.
      apply next_skip_prev in Esk. destruct Esk as (Hle & Hup & Hprv).
      injection H as _ <-. subst i2. iter_simpl.
      assert (Hstarter : exists e1, index l (p1 - 1) = Ok e1 /\ CCC e1 = 0).
      { destruct (Z.eq_dec p1 (len (ce i) + 1)) as [->|Hne1].
        - exists a. replace (len (ce i) + 1 - 1) with (len (ce i)) by lia. auto.
        - apply Hprv. lia. }
      assert (Hp1 : p1 <= len l - 1).
      { destruct (Z.eq_dec p1 (len (ce i) + 1)) as [->|Hne1]; [lia|apply Hup; lia]. }
      split; [exact Hpre|]. split; [lia|]. split.
      - right. iter_simpl. split; [lia|].
        split; [destruct (len l =? 0); lia|].
        split; [intros _; exact Hstarter|intros; lia].
      - prove_iter_ok. intro E. rewrite E in Hl. cbn in Hl. lia. }
    destruct (Z.ltb_spec (CCC e) (prevCCC i)) as [Hlow|Hhigh].
    + assert (Hp0 : 1 <= len (ce i)).
      { destruct (ce i) as [|x xs] eqn:Ece.
        - specialize (Hprev eq_refl). pose proof (CCC_nonneg e). lia.
        - unfold len. cbn [length]. lia. }
      assert (J2' : pStarter i < len (ce i)).
      { destruct (Z.eqb_spec (len (ce i)) 0); lia. }
      bind_inv_as H Ed. rename a into i3.
      destruct (@doNorm_ok _ _ i2 (len (ce i)) (CCC e)) as
        (i3' & Hd & Hb3 & Hp3 & Hn3 & Ht3 & Hl3 & Hs3);
        [exact Hps|change (ce i2) with l; lia|].
      rewrite Hd in Ed. injection Ed as ->.
      change (ce i2) with l in Hl3. change (bytes i2) with rest in Hb3.
      change (pce i2) with (pce i) in Hp3. change (nce i2) with (nce i) in Hn3.
      change (it i2) with (it i) in Ht3.
      assert (Hmid : firstn (Z.to_nat (nce i)) (ce i3) = firstn (Z.to_nat (nce i)) l
                     /\ window_ok i3).
      { destruct (Z.ltb_spec maxCombiningCharacters (len (ce i) - pStarter i))
          as [Hbig|Hsmall].
        - destruct (@doNorm_window_exceeded _ _ i2 (len (ce i)) (CCC e) Hbig)
            as (e' & _ & Hd').
          { change (ce i2) with l. intro E. rewrite E in Hl. cbn in Hl. lia. }
          rewrite Hd' in Hd. injection Hd as <-. iter_simpl. subst i2. iter_simpl.
          split; [reflexivity|]. right. iter_simpl.
          unfold maxCombiningCharacters in Hbig.
          split; [lia|]. split; [destruct (len l =? 0); lia|].
          split; intros; lia.
        - destruct (@doNorm_moves_block _ _ i2 (len (ce i)) (CCC e))
            as (q & Hq & Hqr & Hd'); [exact Hps|change (ce i2) with l; lia|exact Hsmall|].
          destruct (@doNorm_walk_spec _ _ l (pStarter i) (CCC e)
                      (Z.to_nat (len (ce i) - 1 - pStarter i)) (len (ce i) - 1))
            as (q' & Hq' & _ & Hqs & Hpass & _); try lia.
          change (ce i2) with l in Hq. change (pStarter i2) with (pStarter i) in Hq.
          assert (q' = q) by congruence. subst q'.
          rewrite Hd' in Hd. injection Hd as <-. iter_simpl. subst i2. iter_simpl.
          assert (Hqn : nce i <= q).
          { specialize (Hqs ltac:(lia)).
            destruct (Z.eq_dec (nce i) (pStarter i + 1)) as [En|Hn]; [|lia].
            destruct (J3 En) as (es & Hes & Hces).
            assert (Hlen : len (ce i) <> pStarter i + 1).
            { intro E. specialize (J4 E En). pose proof (CCC_nonneg e). lia. }
            destruct (Z.eq_dec q (pStarter i)) as [Eq|Hq2]; [|lia].
            destruct (Hpass (pStarter i + 1)) as (_ & e1 & He1 & Hlt1); [lia|].
            replace (pStarter i + 1 - 1) with (pStarter i) in He1 by lia.
            unfold l in He1. rewrite index_app_l in He1 by lia.
            assert (e1 = es) by congruence. subst e1.
            pose proof (CCC_nonneg e). lia. }
          assert (Hrange : (Z.to_nat q <= Z.to_nat (len (ce i)) <= length l)%nat)
            by (unfold len in *; lia).
          split.
          + apply firstn_move_block; [lia|exact Hrange].
          + right. iter_simpl. rewrite !Hl3.
            split; [lia|]. split; [destruct (len l =? 0); lia|]. split.
            * intro En. destruct (J3 En) as (es & Hes & Hces). exists es.
              split; [|exact Hces]. rewrite <- Hes.
              transitivity (index l (pStarter i)).
              -- apply (@index_firstn Elem l (move_block l (Z.to_nat q)
                                               (Z.to_nat (len (ce i))))
                          (Z.to_nat (nce i))).
                 ++ apply firstn_move_block; [lia|exact Hrange].
                 ++ lia.
                 ++ unfold len in *. lia.
                 ++ rewrite move_block_length by exact Hrange. unfold len in *. lia.
              -- unfold l. apply index_app_l. lia.
            * intros. lia. }
      destruct Hmid as [Hmid Hwin3].
      destruct (IH i3 b i') as (Hf & Hn' & Hw' & Hok'); try assumption.
      { unfold iter_ok. rewrite Ht3, Hn3, Hl3, Hp3.
        split; [exact Hw|]. split; [exact Hs3|]. split; [lia|].
        split; [|exact Hpce].
        intro E. rewrite E in Hl3. cbn in Hl3. lia. }
      { rewrite Ht3. exact Hgen'. }
      rewrite Hn3 in Hf, Hn'. split; [congruence|]. auto.
    + destruct (IH (with_prevCCC i2 (CCC e)) b i') as (Hf & Hn' & Hw' & Hok');
        try assumption.
      { subst i2. prove_iter_ok. intro E. rewrite E in Hl. cbn in Hl. lia. }
      { right. subst i2. iter_simpl. split; [lia|].
        split; [destruct (Z.eqb_spec (len (ce i)) 0), (len l =? 0); lia|]. split.
        - intro En. destruct (J3 En) as (es & Hes & Hces). exists es.
          split; [|exact Hces]. unfold l. rewrite index_app_l; [exact Hes|].
          apply index_inv in Hes. lia.
        - intros. lia. }
      subst i2. iter_simpl. split; [congruence|]. auto.
Qed.

Lemma setInput_window (i : @iter Elem) (s : list Z) :
  WeigherOK (it i) -> 0 <= pce i ->
  iter_ok (setInput i s) /\ window_ok (setInput i s).
Proof.
  intros Hw Hp. split.
  - unfold setInput, reset. prove_iter_ok. cbn. lia.
  - right. unfold setInput, reset. iter_simpl. cbn.
    split; [lia|]. split; [lia|]. split; intros; lia.
Qed.

Lemma pumped_released (i i' : iter) :
  pumped i i' ->
  iter_ok i -> WeigherAppends (it i) -> window_ok i ->
  firstn (Z.to_nat (nce i)) (ce i') = firstn (Z.to_nat (nce i)) (ce i)
  /\ nce i <= nce i' /\ window_ok i' /\ iter_ok i' /\ it i' = it i.
Proof.
  induction 1 as [i|fuel i b i1 i2 Hn _ IH]; intros Hok Happ Hwin.
  - split; [reflexivity|split; [lia|split; [assumption|split; [assumption|reflexivity]]]].
  - destruct (@next_released fuel i b i1 Hok Happ Hwin Hn) as (Hf & Hle & Hw1 & Hok1).
    pose proof (next_frame _ _ Hn) as [_ Ht].
    destruct (IH Hok1 ltac:(rewrite Ht; exact Happ) Hw1) as (Hf2 & Hle2 & Hw2 & Hok2 & Ht2).
    split; [|split; [lia|split; [exact Hw2|split; [exact Hok2|congruence]]]].
    destruct Hok as (_ & _ & Hnce & _). destruct Hok1 as (_ & _ & Hnce1 & _).
    destruct Hok2 as (_ & _ & Hnce2 & _).
    rewrite <- Hf.
    assert (E : forall l : list Elem,
              firstn (Z.to_nat (nce i)) l
              = firstn (Z.to_nat (nce i)) (firstn (Z.to_nat (nce i1)) l)).
    { intro l. rewrite firstn_firstn. f_equal. lia. }
    rewrite (E (ce i2)), (E (ce i1)), Hf2. reflexivity.
Qed.

(** X7: under a weigher that appends, what [next] has released stays as it
    is: after [setInput], however often [next] is called, the elements
    [buf[..nce]] of an earlier state are the first elements of the buffer
    of every later state, and [nce] never decreases.  Reordering only
    touches elements that are not yet released. *)
Theorem released_elements_are_final :
  forall (i0 : iter) (s : list Z) (i i' : iter),
    WeigherOK (it i0) -> WeigherAppends (it i0) -> 0 <= pce i0 ->
    pumped (setInput i0 s) i -> pumped i i' ->
    firstn (Z.to_nat (nce i)) (ce i') = firstn (Z.to_nat (nce i)) (ce i)
    /\ nce i <= nce i' <= len (ce i').
Proof.
  intros i0 s i i' Hw Happ Hp H1 H2.
  destruct (setInput_window i0 s Hw Hp) as [Hok0 Hwin0].
  destruct (pumped_released H1 Hok0 Happ Hwin0) as (_ & _ & Hwin & Hok & Ht).
  destruct (pumped_released H2 Hok ltac:(rewrite Ht; exact Happ) Hwin)
    as (Hf & Hle & _ & Hok' & _).
  split; [exact Hf|]. destruct Hok' as (_ & _ & Hn & _). lia.
Qed.

(** ** The level walks as streams of weights *)

Lemma skipn_nth_cons {A : Type} (l : list A) :
  forall (n : nat) (x : A),
    nth_error l n = Some x -> skipn n l = x :: skipn (S n) l.
Proof.
  induction l as [|y l IH]; intros [|n] x H; try discriminate H.
  - cbn in H. now injection H as ->.
  - exact (IH n x H).
Qed.

Lemma seg_nil {A : Type} (l : list A) (lo hi : Z) : hi <= lo -> seg l lo hi = [].
Proof.
  intro H. unfold seg. replace (Z.to_nat (hi - lo)) with 0%nat by lia. reflexivity.
Qed.

Lemma seg_cons {A : Type} (l : list A) (lo hi : Z) (x : A) :
  0 <= lo < hi -> nth_error l (Z.to_nat lo) = Some x ->
  seg l lo hi = x :: seg l (lo + 1) hi.
Proof.
  intros H Hn. unfold seg.
  replace (Z.to_nat (hi - lo)) with (S (Z.to_nat (hi - (lo + 1)))) by lia.
  replace (Z.to_nat (lo + 1)) with (S (Z.to_nat lo)) by lia.
  rewrite (skipn_nth_cons _ _ Hn). reflexivity.
Qed.

Lemma seg_skipn {A : Type} (l : list A) (lo hi : Z) :
  0 <= lo <= hi -> skipn (Z.to_nat lo) l = seg l lo hi ++ skipn (Z.to_nat hi) l.
Proof.
  intro H. unfold seg.
  rewrite <- (firstn_skipn (Z.to_nat (hi - lo)) (skipn (Z.to_nat lo) l)) at 1.
  f_equal. rewrite skipn_skipn. f_equal. lia.
Qed.

Lemma seg_to_end {A : Type} (l : list A) (lo : Z) :
  seg l lo (len l) = skipn (Z.to_nat lo) l.
Proof.
  unfold seg, len. apply firstn_all2. rewrite length_skipn. lia.
Qed.

Lemma weights_app (w : Elem -> Z) (l1 l2 : list Elem) :
  weights w (l1 ++ l2) = weights w l1 ++ weights w l2.
Proof. unfold weights. now rewrite map_app, filter_app. Qed.

Lemma weights_cons (w : Elem -> Z) (e : Elem) (l : list Elem) :
  weights w (e :: l) = if w e =? 0 then weights w l else w e :: weights w l.
Proof. unfold weights. cbn. now destruct (w e =? 0). Qed.

Lemma with_pce_same (i : @iter Elem) : with_pce i (pce i) = i.
Proof. now destruct i. Qed.

(** One call of a walker reads the next weight of the view [L] of the
    buffer that is not zero, or finds none up to [hi]. *)
Lemma scan_stream (w : Elem -> Z) (pos : @iter Elem -> Z) (hi : Z) (L : list Elem) :
  forall (n : nat) (i : iter) (v : Z) (i' : iter),
    (Z.to_nat (hi - pce i) <= n)%nat -> 0 <= pce i ->
    (forall p e, pce i <= p < hi ->
       index (ce i) (pos (with_pce i p)) = Ok e -> nth_error L (Z.to_nat p) = Some e) ->
    scan n w pos hi i = Ok (v, i') ->
    i' = with_pce i (pce i')
    /\ weights w (seg L (pce i) hi)
       = (if v =? 0 then [] else v :: weights w (seg L (pce i') hi))
    /\ (if v =? 0 then pce i' = Z.max (pce i) hi else pce i < pce i' <= hi).
Proof.
  induction n as [|n IH]; intros i v i' Hn Hp HL H.
  - cbn in H. injection H as <- <-. cbn.
    rewrite seg_nil by lia. split; [now rewrite with_pce_same|]. split; [reflexivity|lia].
  - cbn [scan] in H. destruct (Z.ltb_spec (pce i) hi) as [Hlt|Hge].
    + bind_inv_as H Ee.
      pose proof (HL (pce i) a ltac:(lia) ltac:(rewrite with_pce_same; exact Ee)) as Hnth.
      rewrite (@seg_cons _ L (pce i) hi a ltac:(lia) Hnth).
      rewrite weights_cons.
      destruct (Z.eqb_spec (w a) 0) as [Hz|Hnz].
      * apply IH in H; iter_simpl; [| lia | lia |].
        -- destruct H as (Hi & Hw & Hc). split; [exact Hi|]. split; [exact Hw|].
           destruct (v =? 0); lia.
        -- intros p e Hpe. apply HL. lia.
      * injection H as <- <-. iter_simpl.
        destruct (Z.eqb_spec (w a) 0) as [|_]; [contradiction|].
        split; [reflexivity|]. split; [reflexivity|lia].
    + injection H as <- <-. cbn.
      rewrite seg_nil by lia. split; [now rewrite with_pce_same|]. split; [reflexivity|lia].
Qed.

Lemma next_det (n m : nat) (i : iter) (r r' : bool * iter) :
  next n i = Ok r -> next m i = Ok r' -> r = r'.
Proof.
  intros H1 H2.
  pose proof (@next_mono _ _ n i r H1 (Nat.max n m) ltac:(lia)) as E1.
  pose proof (@next_mono _ _ m i r' H2 (Nat.max n m) ltac:(lia)) as E2.
  congruence.
Qed.

Lemma next_false_inv (fuel : nat) (i i' : iter) :
  iter_ok i -> next fuel i = Ok (false, i') ->
  i' = i /\ bytes i = [] /\ nce i = len (ce i).
Proof.
  intros Hok H.
  destruct (@next_total _ _ (length (bytes i)) i Hok ltac:(lia))
    as (b & j & Hn & _ & _ & _ & _ & Hf).
  pose proof (@next_det _ _ _ _ _ H Hn) as E. injection E as <- <-. now apply Hf.
Qed.

Lemma drain_pumped :
  forall (fuel : nat) (i i' : iter), drain fuel i = Ok i' -> pumped i i'.
Proof.
  induction fuel as [|fuel IH]; intros i i' H; [discriminate H|].
  cbn [drain] in H. bind_inv_as H En. destruct a as [more j]. destruct more.
  - eapply pumped_step; [exact En|]. now apply IH.
  - injection H as <-. eapply pumped_step; [exact En|apply pumped_refl].
Qed.

Lemma drains_released (i : iter) (A : list Elem) :
  iter_ok i -> WeigherAppends (it i) -> window_ok i -> drains i A ->
  firstn (Z.to_nat (nce i)) (ce i) = firstn (Z.to_nat (nce i)) A /\ nce i <= len A.
Proof.
  intros Hok Happ Hwin (fuel & iA & Hd & <-).
  destruct (pumped_released (@drain_pumped _ _ _ Hd) Hok Happ Hwin)
    as (Hf & Hle & _ & Hok' & _).
  split; [now symmetry|]. destruct Hok' as (_ & _ & Hn & _). lia.
Qed.

Lemma drains_next (f : nat) (i i2 : iter) (A : list Elem) :
  drains i A -> next f i = Ok (true, i2) -> drains i2 A.
Proof.
  intros (fuel & iA & Hd & HA) H.
  destruct fuel as [|fuel]; [discriminate Hd|].
  cbn [drain] in Hd. bind_inv_as Hd En. destruct a as [more j].
  pose proof (@next_det _ _ _ _ _ En H) as E. injection E as -> ->.
  exists fuel, iA. now split.
Qed.

Lemma drains_stop (f : nat) (i i2 : iter) (A : list Elem) :
  drains i A -> next f i = Ok (false, i2) -> ce i2 = A.
Proof.
  intros (fuel & iA & Hd & HA) H.
  destruct fuel as [|fuel]; [discriminate Hd|].
  cbn [drain] in Hd. bind_inv_as Hd En. destruct a as [more j].
  pose proof (@next_det _ _ _ _ _ En H) as E. injection E as -> ->.
  injection Hd as <-. exact HA.
Qed.

Lemma drains_with_pce (i : iter) (A : list Elem) (q : Z) :
  drains i A -> drains (with_pce i q) A.
Proof.
  intros (fuel & iA & Hd & HA).
  exists fuel, (with_pce iA q). split; [|exact HA].
  now rewrite drain_with_pce, Hd.
Qed.

Lemma primary_inv_with_pce (i : iter) (A : list Elem) (q : Z) :
  primary_inv i A -> 0 <= q <= nce i -> primary_inv (with_pce i q) A.
Proof.
  intros (Hok & Happ & Hwin & Hpn & Hdr) Hq.
  split; [|split; [exact Happ|split; [exact Hwin|split; [cbn; lia|now apply drains_with_pce]]]].
  destruct Hok as (H1 & H2 & H3 & H4 & H5). prove_iter_ok.
Qed.

(** One call of [nextPrimary] reads the next primary weight of the final
    elements [A] that is not zero, and returns 0 when there is none. *)
Lemma nextPrimary_stream :
  forall (F : nat) (i : iter) (v : Z) (i' : iter) (A : list Elem),
    primary_inv i A -> nextPrimary F i = Ok (v, i') ->
    primary_inv i' A
    /\ weights Primary (skipn (Z.to_nat (pce i)) A)
       = (if v =? 0 then [] else v :: weights Primary (skipn (Z.to_nat (pce i')) A))
    /\ (v = 0 -> ce i' = A).
Proof.
  induction F as [|F IH]; intros i v i' A Hinv H;
    pose proof Hinv as (Hok & Happ & Hwin & Hpn & Hdr);
    destruct (@drains_released _ _ Hok Happ Hwin Hdr) as [Hfn HnA];
    pose proof Hok as (_ & _ & Hnce & _ & Hpce);
    rewrite nextPrimary_unfold in H; bind_inv_as H Es; destruct a as [v1 i1];
    (apply (@scan_stream Primary pce (nce i) A) in Es;
     [destruct Es as (Hi1 & Hw1 & Hc1)
     | lia | lia
     | intros p e Hp He; cbn in He; apply index_inv in He; destruct He as [_ He];
       rewrite <- He;
       pose proof (nth_error_firstn (Z.to_nat (nce i)) (ce i) (Z.to_nat p)) as E1;
       pose proof (nth_error_firstn (Z.to_nat (nce i)) A (Z.to_nat p)) as E2;
       rewrite Hfn in E1; rewrite E1 in E2;
       destruct (Nat.ltb_spec (Z.to_nat p) (Z.to_nat (nce i))); [now symmetry|lia]]);
    rewrite (@seg_skipn _ A (pce i) (nce i)) by lia;
    rewrite weights_app, Hw1;
    (destruct (Z.eqb_spec v1 0) as [Hz|Hnz];
     [| injection H as <- <-;
        destruct (Z.eqb_spec v1 0) as [|_]; [contradiction|];
        split; [rewrite Hi1; apply primary_inv_with_pce; [exact Hinv|lia]|];
        split; [|intro; contradiction];
        cbn [app]; f_equal;
        rewrite (@seg_skipn _ A (pce i1) (nce i)) by lia;
        now rewrite weights_app]).
  - discriminate H.
  - bind_inv_as H En. destruct a as [more i2]. cbn [app].
    assert (Hp1 : pce i1 = nce i) by lia.
    assert (Hinv1 : primary_inv i1 A).
    { rewrite Hi1. apply primary_inv_with_pce; [exact Hinv|lia]. }
    pose proof Hinv1 as (Hok1 & Happ1 & Hwin1 & Hpn1 & Hdr1).
    assert (Hn1 : nce i1 = nce i) by (rewrite Hi1; reflexivity).
    destruct more.
    + destruct (@next_released F i1 true i2 Hok1 Happ1 Hwin1 En) as (_ & Hle & Hwin2 & Hok2).
      pose proof (next_frame _ _ En) as [Hp2 Ht2].
      assert (Hinv2 : primary_inv i2 A).
      { split; [exact Hok2|]. split; [now rewrite Ht2|]. split; [exact Hwin2|].
        split; [lia|]. eapply drains_next; eassumption. }
      destruct (IH i2 v i' A Hinv2 H) as (Hinv' & Hw' & Hce').
      split; [exact Hinv'|]. split; [|exact Hce'].
      rewrite <- Hw'. do 3 f_equal. lia.
    + injection H as <- <-.
      destruct (@next_false_inv _ _ _ Hok1 En) as (-> & Hb & Hlen).
      pose proof (@drains_stop _ _ _ _ Hdr1 En) as HA.
      split; [exact Hinv1|]. split; [|intros _; exact HA].
      cbn. rewrite <- HA. unfold weights.
      rewrite skipn_all2; [reflexivity|]. unfold len in Hlen. rewrite Hi1 in *. cbn in *. lia.
Qed.

Lemma lexCompare_stream (va vb : Z) (xs ys xs' ys' : list Z) :
  xs = (if va =? 0 then [] else va :: xs') ->
  ys = (if vb =? 0 then [] else vb :: ys') ->
  lexCompare xs ys
  = if negb (va =? vb) then (if va <? vb then -1 else 1)
    else if va =? 0 then 0 else lexCompare xs' ys'.
Proof.
  intros -> ->.
  destruct (Z.eqb_spec va 0) as [->|Ha], (Z.eqb_spec vb 0) as [->|Hb]; cbn [lexCompare].
  - reflexivity.
  - destruct (Z.eqb_spec 0 vb) as [E|_]; [congruence|]. reflexivity.
  - destruct (Z.eqb_spec va 0) as [E|_]; [congruence|]. reflexivity.
  - reflexivity.
Qed.

(** The primary level: the loop of [compareLevel] over [nextPrimary]
    compares the primary weights of the final elements. *)
Lemma primary_loop_stream (F : nat) :
  forall (n : nat) (ia ib : iter) (r : Z) (ia' ib' : iter) (A B : list Elem),
    primary_inv ia A -> primary_inv ib B ->
    compareLevel_loop n (nextPrimary F) ia ib = Ok (r, ia', ib') ->
    r = lexCompare (weights Primary (skipn (Z.to_nat (pce ia)) A))
                   (weights Primary (skipn (Z.to_nat (pce ib)) B))
    /\ (r = 0 -> ce ia' = A /\ ce ib' = B).
Proof.
  induction n as [|n IH]; intros ia ib r ia' ib' A B Ha Hb H; [discriminate H|].
  cbn [compareLevel_loop] in H.
  bind_inv_as H Ea. destruct a as [va a1]. bind_inv_as H Eb. destruct a as [vb b1].
  destruct (@nextPrimary_stream _ _ _ _ _ Ha Ea) as (Ha1 & Hwa & Hca).
  destruct (@nextPrimary_stream _ _ _ _ _ Hb Eb) as (Hb1 & Hwb & Hcb).
  rewrite (@lexCompare_stream _ _ _ _ _ _ Hwa Hwb).
  destruct (negb (va =? vb)) eqn:Env.
  - destruct (va <? vb); injection H as <- <- <-; (split; [reflexivity|intro; discriminate]).
  - apply negb_false_iff, Z.eqb_eq in Env. subst vb.
    destruct (Z.eqb_spec va 0) as [Hz|Hnz].
    + injection H as <- <- <-. split; [reflexivity|]. intros _. split; auto.
    + exact (IH _ _ _ _ _ _ _ Ha1 Hb1 H).
Qed.

(** The lower levels: over a complete buffer a walker compares the weights
    of the view [view] of the buffer that it reads. *)
Lemma walker_loop_stream (w : Elem -> Z) (pos : @iter Elem -> Z)
  (view : list Elem -> list Elem) (f : @iter Elem -> result (Z * @iter Elem)) :
  (forall i, f i = scan (Z.to_nat (len (ce i) - pce i)) w pos (len (ce i)) i) ->
  (forall l, length (view l) = length l) ->
  (forall i p e, 0 <= p < len (ce i) ->
     index (ce i) (pos (with_pce i p)) = Ok e ->
     nth_error (view (ce i)) (Z.to_nat p) = Some e) ->
  forall (n : nat) (ia ib : iter) (r : Z) (ia' ib' : iter),
    0 <= pce ia -> 0 <= pce ib ->
    compareLevel_loop n f ia ib = Ok (r, ia', ib') ->
    r = lexCompare (weights w (skipn (Z.to_nat (pce ia)) (view (ce ia))))
                   (weights w (skipn (Z.to_nat (pce ib)) (view (ce ib))))
    /\ ce ia' = ce ia /\ ce ib' = ce ib.
Proof.
  intros Hf Hlen Hview.
  assert (Hone : forall i v i', 0 <= pce i -> f i = Ok (v, i') ->
            ce i' = ce i /\ 0 <= pce i'
            /\ weights w (skipn (Z.to_nat (pce i)) (view (ce i)))
               = (if v =? 0 then []
                  else v :: weights w (skipn (Z.to_nat (pce i')) (view (ce i))))).
  { intros i v i' Hp E. rewrite Hf in E.
    assert (Hl : len (ce i) = len (view (ce i))) by (unfold len; now rewrite Hlen).
    apply (@scan_stream w pos (len (ce i)) (view (ce i))) in E;
      [| lia | exact Hp | intros p e Hpe; apply Hview; lia].
    destruct E as (Hi & Hw & Hc).
    split; [rewrite Hi; reflexivity|]. split; [destruct (v =? 0); lia|].
    rewrite Hl, !seg_to_end in Hw. exact Hw. }
  induction n as [|n IH]; intros ia ib r ia' ib' Hpa Hpb H; [discriminate H|].
  cbn [compareLevel_loop] in H.
  bind_inv_as H Ea. destruct a as [va a1]. bind_inv_as H Eb. destruct a as [vb b1].
  destruct (Hone _ _ _ Hpa Ea) as (Hca & Hpa1 & Hwa).
  destruct (Hone _ _ _ Hpb Eb) as (Hcb & Hpb1 & Hwb).
  rewrite (@lexCompare_stream _ _ _ _ _ _ Hwa Hwb).
  destruct (negb (va =? vb)) eqn:Env.
  - destruct (va <? vb); injection H as <- <- <-; auto.
  - apply negb_false_iff, Z.eqb_eq in Env. subst vb.
    destruct (Z.eqb_spec va 0) as [Hz|Hnz].
    + injection H as <- <- <-. auto.
    + destruct (IH _ _ _ _ _ Hpa1 Hpb1 H) as (Hr & Ha' & Hb').
      rewrite Hca, Hcb in Hr. split; [exact Hr|]. split; congruence.
Qed.

Lemma forward_level (w : Elem -> Z) (f : @iter Elem -> result (Z * @iter Elem)) :
  (forall i, f i = scan (Z.to_nat (len (ce i) - pce i)) w pce (len (ce i)) i) ->
  forall (n : nat) (ia ib : iter) (r : Z) (ia' ib' : iter),
    compareLevel n f ia ib = Ok (r, ia', ib') ->
    r = lexCompare (weights w (ce ia)) (weights w (ce ib))
    /\ ce ia' = ce ia /\ ce ib' = ce ib.
Proof.
  intros Hf n ia ib r ia' ib' H. unfold compareLevel in H.
  apply (@walker_loop_stream w pce (fun l => l) f Hf) in H; cbn in *; try lia; auto.
  intros i p e Hp He. cbn in He. apply index_inv in He. tauto.
Qed.

Lemma backward_level (w : Elem -> Z) (f : @iter Elem -> result (Z * @iter Elem)) :
  (forall i, f i = scan (Z.to_nat (len (ce i) - pce i)) w
                        (fun j => len (ce j) - pce j - 1) (len (ce i)) i) ->
  forall (n : nat) (ia ib : iter) (r : Z) (ia' ib' : iter),
    compareLevel n f ia ib = Ok (r, ia', ib') ->
    r = lexCompare (weights w (rev (ce ia))) (weights w (rev (ce ib)))
    /\ ce ia' = ce ia /\ ce ib' = ce ib.
Proof.
  intros Hf n ia ib r ia' ib' H. unfold compareLevel in H.
  apply (@walker_loop_stream w _ (@rev Elem) f Hf) in H; cbn in *; try lia; auto.
  - intro l. apply length_rev.
  - intros i p e Hp He. cbn in He. apply index_inv in He. destruct He as [_ He].
    rewrite nth_error_rev. unfold len in *.
    destruct (Nat.ltb_spec (Z.to_nat p) (length (ce i))); [|lia].
    rewrite <- He. f_equal. lia.
Qed.

Lemma Alternate_eqb_Shifted (a : AlternateHandling) :
  a <> AltShifted -> Alternate_eqb a AltShifted = false.
Proof. destruct a; intro H; try reflexivity. now contradiction H. Qed.

Lemma tertiary_value (fuel : nat) (c c' : Collator) (ia ib : iter) (r : Z) :
  (if colltab.leb colltab.Tertiary (Strength c) || CaseLevel c then
     '(res, ia, ib) <- compareLevel fuel nextTertiary ia ib ;;
     if negb (res =? 0) then Ok (res, with_iters c ia ib) else
     if colltab.leb colltab.Quaternary (Strength c) then
       '(res, ia, ib) <- compareLevel fuel nextQuaternary ia ib ;;
       if negb (res =? 0) then Ok (res, with_iters c ia ib)
       else Ok (0, with_iters c ia ib)
     else Ok (0, with_iters c ia ib)
   else Ok (0, with_iters c ia ib)) = Ok (r, c') ->
  r = (if colltab.leb colltab.Tertiary (Strength c) || CaseLevel c then
         let r3 := lexCompare (weights Tertiary (ce ia)) (weights Tertiary (ce ib)) in
         if negb (r3 =? 0) then r3 else
         if colltab.leb colltab.Quaternary (Strength c)
         then lexCompare (weights Quaternary (ce ia)) (weights Quaternary (ce ib))
         else 0
       else 0).
Proof.
  intro H.
  destruct (colltab.leb colltab.Tertiary (Strength c) || CaseLevel c);
    [|now injection H as <- _].
  bind_inv_as H E3. destruct a as [[r3 a3] b3].
  apply (@forward_level Tertiary nextTertiary (fun i => eq_refl)) in E3.
  destruct E3 as (Hr3 & HA3 & HB3). cbn zeta. rewrite <- Hr3.
  destruct (Z.eqb_spec r3 0) as [Hz|Hnz]; cbn [negb] in *; [|now injection H as <- _].
  destruct (colltab.leb colltab.Quaternary (Strength c)); [|now injection H as <- _].
  bind_inv_as H E4. destruct a as [[r4 a4] b4].
  apply (@forward_level Quaternary nextQuaternary (fun i => eq_refl)) in E4.
  destruct E4 as (Hr4 & _). rewrite HA3, HB3 in Hr4. rewrite <- Hr4.
  destruct (Z.eqb_spec r4 0) as [Hz4|Hnz4]; cbn [negb] in *; injection H as <- _; congruence.
Qed.

Lemma lower_value (fuel : nat) (c c' : Collator) (ia ib : iter) (r : Z) :
  ('(res, ia, ib) <-
     (if colltab.leb colltab.Secondary (Strength c)
      then compareLevel fuel (if Backwards c then prevSecondary else nextSecondary) ia ib
      else Ok (0, ia, ib)) ;;
   if negb (res =? 0) then Ok (res, with_iters c ia ib) else
   if colltab.leb colltab.Tertiary (Strength c) || CaseLevel c then
     '(res, ia, ib) <- compareLevel fuel nextTertiary ia ib ;;
     if negb (res =? 0) then Ok (res, with_iters c ia ib) else
     if colltab.leb colltab.Quaternary (Strength c) then
       '(res, ia, ib) <- compareLevel fuel nextQuaternary ia ib ;;
       if negb (res =? 0) then Ok (res, with_iters c ia ib)
       else Ok (0, with_iters c ia ib)
     else Ok (0, with_iters c ia ib)
   else Ok (0, with_iters c ia ib)) = Ok (r, c') ->
  r = lowerElems c (ce ia) (ce ib).
Proof.
  intro H. unfold lowerElems. cbn zeta.
  destruct (colltab.leb colltab.Secondary (Strength c)).
  - bind_inv_as H E2. destruct a as [[r2 a2] b2].
    assert (H2 : r2 = lexCompare (weights Secondary (ordered c (ce ia)))
                                 (weights Secondary (ordered c (ce ib)))
                 /\ ce a2 = ce ia /\ ce b2 = ce ib).
    { unfold ordered. destruct (Backwards c).
      - now apply (@backward_level Secondary prevSecondary (fun i => eq_refl)) in E2.
      - now apply (@forward_level Secondary nextSecondary (fun i => eq_refl)) in E2. }
    destruct H2 as (Hr2 & HA2 & HB2). rewrite <- Hr2.
    destruct (Z.eqb_spec r2 0) as [Hz2|Hnz2]; cbn [negb] in *; [|now injection H as <- _].
    apply tertiary_value in H. now rewrite HA2, HB2 in H.
  - cbn [bind] in H. cbn in H |- *.
    now apply tertiary_value in H.
Qed.

(** [compare] on iterators whose inputs give the elements [A] and [B]. *)
Lemma compare_value (fuel : nat) (c c' : Collator) (r : Z) (A B : list Elem) :
  Alternate c <> AltShifted ->
  primary_inv (with_pce (_iter0 c) 0) A -> primary_inv (with_pce (_iter1 c) 0) B ->
  compare fuel c = Ok (r, c') ->
  r = compareElems c A B.
Proof.
  intros Halt Ha Hb H. unfold compare in H.
  rewrite (Alternate_eqb_Shifted Halt) in H. cbn [negb] in H.
  bind_inv_as H E1. destruct a as [[r1 a1] b1].
  unfold compareLevel in E1.
  destruct (@primary_loop_stream fuel fuel _ _ _ _ _ A B Ha Hb E1) as [Hr1 Hce1].
  cbn [pce with_pce] in Hr1. change (Z.to_nat 0) with 0%nat in Hr1. cbn [skipn] in Hr1.
  unfold compareElems. cbn zeta. rewrite <- Hr1.
  destruct (Z.eqb_spec r1 0) as [Hz|Hnz]; cbn [negb] in *; [|now injection H as <- _].
  destruct (Hce1 Hz) as [HA HB].
  apply lower_value in H. now rewrite HA, HB in H.
Qed.

(** Under Shifted [compare] walks no primary level, and the lower levels
    find the buffers empty. *)
Lemma compare_Shifted_value (fuel : nat) (c c' : Collator) (r : Z) :
  Alternate c = AltShifted -> ce (_iter0 c) = [] -> ce (_iter1 c) = [] ->
  compare fuel c = Ok (r, c') -> r = 0.
Proof.
  intros Halt H0 H1 H. unfold compare in H. rewrite Halt in H.
  change (Alternate_eqb AltShifted AltShifted) with true in H.
  cbn [negb bind] in H. change (negb (0 =? 0)) with false in H. cbv iota in H.
  apply lower_value in H. rewrite H0, H1 in H. rewrite H.
  unfold lowerElems, ordered.
  destruct (colltab.leb colltab.Secondary (Strength c)), (Backwards c),
    (colltab.leb colltab.Tertiary (Strength c) || CaseLevel c),
    (colltab.leb colltab.Quaternary (Strength c)); reflexivity.
Qed.

Lemma setInput_init (i : @iter Elem) (s : list Z) :
  setInput i s = with_pce (setInput (iter_init (it i)) s) (pce i).
Proof. now destruct i. Qed.

Lemma setInput_primary_inv (i : iter) (s : list Z) (fuel : nat) (A : list Elem) :
  WeigherOK (it i) -> WeigherAppends (it i) ->
  colElems fuel (it i) s = Ok A ->
  primary_inv (with_pce (setInput i s) 0) A.
Proof.
  intros Hw Happ Hc. unfold colElems in Hc.
  destruct (drain fuel (setInput (iter_init (it i)) s)) as [iA| |] eqn:Hd;
    try discriminate Hc. cbn in Hc. injection Hc as HA.
  split; [now apply setInput_ok|]. split; [exact Happ|].
  split; [right; cbn; split; [lia|]; split; [lia|]; split; intros; lia|].
  split; [cbn; lia|].
  rewrite setInput_init. cbn [with_pce bytes ce pce nce prevCCC pStarter it].
  apply (@drains_with_pce (setInput (iter_init (it i)) s) A 0).
  exists fuel, iA. now split.
Qed.

(** [Compare] on inputs whose elements are [A] and [B]. *)
Lemma Compare_value (fuel n : nat) (c c' : Collator) (a b : list Z) (r : Z)
  (A B : list Elem) :
  Alternate c <> AltShifted ->
  WeigherOK (it (_iter0 c)) -> WeigherAppends (it (_iter0 c)) ->
  WeigherOK (it (_iter1 c)) -> WeigherAppends (it (_iter1 c)) ->
  colElems n (it (_iter0 c)) a = Ok A -> colElems n (it (_iter1 c)) b = Ok B ->
  Compare fuel c a b = Ok (r, c') ->
  r = compareWith c A B a b.
Proof.
  intros Halt Hw0 Ha0 Hw1 Ha1 HA HB H. unfold Compare in H.
  bind_inv_as H Ec. destruct a0 as [r0 c1].
  pose proof (compare_settings _ _ Ec) as (ja & jb & ->).
  apply (@compare_value _ _ _ _ A B) in Ec; cbn [Alternate with_iters _iter0 _iter1];
    [| exact Halt | eapply setInput_primary_inv; eassumption
     | eapply setInput_primary_inv; eassumption].
  unfold compareWith.
  replace (compareElems c A B)
    with (compareElems (with_iters c (setInput (_iter0 c) a) (setInput (_iter1 c) b)) A B)
    by reflexivity.
  rewrite <- Ec. cbn [Strength with_iters] in H.
  destruct (negb (r0 =? 0)); [now injection H as <- _|].
  destruct (colltab.eqb colltab.Identity (Strength c)); now injection H as <- _.
Qed.

Lemma colElems_total (w : Weigher Elem) (s : list Z) :
  WeigherOK w ->
  exists N A, forall fuel, (N <= fuel)%nat -> colElems fuel w s = Ok A.
Proof.
  intro Hw.
  destruct (@setInput_window (iter_init w) s Hw ltac:(cbn; lia)) as [Hok _].
  destruct (@drain_total _ _ _ (setInput (iter_init w) s) Hok (le_n _)) as (iA & Hd & _).
  eexists _, (ce iA). intros fuel Hle. unfold colElems.
  now rewrite (@drain_mono _ _ _ _ _ Hd fuel Hle).
Qed.

(** X8: [Compare] decides on the collation elements of its inputs.  With a
    weigher that keeps its contract and appends, and an alternate other
    than Shifted, [Compare(a, b)] returns, and its result is the first
    difference between the weights of the elements of [a] and of [b] that
    are not zero: primary weights first, then secondary ones (from the end
    when [Backwards] is set), tertiary and quaternary ones as the strength
    asks for, and the bytes themselves at strength Identity.  The
    reordering of [next] and the piecewise filling of the buffers during
    the primary level do not show in the result. *)
Theorem Compare_decides_on_elements :
  forall (c : Collator) (a b : list Z),
    Collator_wf c -> WeigherOK (t c) -> WeigherAppends (t c) ->
    Alternate c <> AltShifted ->
    exists N, forall fuel, (N <= fuel)%nat ->
      exists A B c',
        colElems fuel (t c) a = Ok A /\ colElems fuel (t c) b = Ok B
        /\ Compare fuel c a b = Ok (compareWith c A B a b, c').
Proof.
  intros c a b [H0 H1] Hw Happ Halt.
  destruct (@colElems_total (t c) a Hw) as (Na & A & HA).
  destruct (@colElems_total (t c) b Hw) as (Nb & B & HB).
  destruct (@Compare_total _ _ c a b ltac:(now rewrite H0) ltac:(now rewrite H1))
    as (Nc & r & c' & HC & _).
  exists (Nat.max Nc (Nat.max Na Nb)). intros fuel Hle.
  exists A, B, c'.
  split; [apply HA; lia|]. split; [apply HB; lia|].
  pose proof (@Compare_mono _ _ Nc fuel c a b _ HC ltac:(lia)) as HC'.
  rewrite HC'. do 2 f_equal.
  apply (@Compare_value fuel fuel c c' a b r A B); try assumption;
    rewrite ?H0, ?H1; try assumption; [apply HA|apply HB]; lia.
Qed.

(** ** [Compare] orders *)

Lemma weights_nonzero (w : Elem -> Z) (l : list Elem) :
  Forall (fun v => v <> 0) (weights w l).
Proof.
  unfold weights. apply Forall_forall. intros v Hv.
  apply filter_In in Hv. destruct Hv as [_ Hv].
  now apply negb_true_iff, Z.eqb_neq in Hv.
Qed.

Lemma lexCompare_antisym :
  forall xs ys : list Z,
    Forall (fun v => v <> 0) xs -> Forall (fun v => v <> 0) ys ->
    lexCompare ys xs = - lexCompare xs ys.
Proof.
  induction xs as [|x xs IH]; intros [|y ys] Hx Hy; cbn [lexCompare].
  - reflexivity.
  - inversion Hy; subst. destruct (Z.ltb_spec y 0), (Z.ltb_spec 0 y); lia.
  - inversion Hx; subst. destruct (Z.ltb_spec x 0), (Z.ltb_spec 0 x); lia.
  - inversion Hx; inversion Hy; subst.
    destruct (Z.eqb_spec x y), (Z.eqb_spec y x); try lia; cbn [negb].
    + now apply IH.
    + destruct (Z.ltb_spec x y), (Z.ltb_spec y x); lia.
Qed.

Lemma lexCompare_trans :
  forall xs ys zs : list Z,
    lexCompare xs ys <= 0 -> lexCompare ys zs <= 0 -> lexCompare xs zs <= 0.
Proof.
  induction xs as [|x xs IH]; intros [|y ys] [|z zs]; cbn [lexCompare]; intros H1 H2;
    repeat match goal with
      | H : context [Z.ltb ?a ?b] |- _ => destruct (Z.ltb_spec a b)
      | |- context [Z.ltb ?a ?b] => destruct (Z.ltb_spec a b)
      | H : context [Z.eqb ?a ?b] |- _ => destruct (Z.eqb_spec a b)
      | |- context [Z.eqb ?a ?b] => destruct (Z.eqb_spec a b)
      end; cbn [negb] in *; try lia.
  eapply IH; eassumption.
Qed.

Lemma bytes_Compare_trans :
  forall xs ys zs : list Z,
    bytes_Compare xs ys <= 0 -> bytes_Compare ys zs <= 0 -> bytes_Compare xs zs <= 0.
Proof.
  induction xs as [|x xs IH]; intros [|y ys] [|z zs]; cbn [bytes_Compare]; intros H1 H2;
    repeat match goal with
      | H : context [Z.ltb ?a ?b] |- _ => destruct (Z.ltb_spec a b)
      | |- context [Z.ltb ?a ?b] => destruct (Z.ltb_spec a b)
      end; try lia.
  eapply IH; eassumption.
Qed.

Lemma cmp_order_lexThen {X : Type} (c1 c2 : X -> X -> Z) :
  cmp_order c1 -> cmp_order c2 -> cmp_order (lexThen c1 c2).
Proof.
  intros [A1 T1] [A2 T2]. split; unfold lexThen.
  - intros x y. rewrite (A1 x y).
    destruct (Z.eqb_spec (c1 x y) 0), (Z.eqb_spec (- c1 x y) 0); cbn [negb]; try lia.
    apply A2.
  - intros x y z.
    pose proof (A1 x y). pose proof (A1 y z). pose proof (A1 x z).
    pose proof (T1 x y z). pose proof (T1 z x y). pose proof (T1 y z x).
    pose proof (T1 z y x). pose proof (T2 x y z).
    destruct (Z.eqb_spec (c1 x y) 0), (Z.eqb_spec (c1 y z) 0), (Z.eqb_spec (c1 x z) 0);
      cbn [negb]; lia.
Qed.

Lemma cmp_order_zero {X : Type} : cmp_order (fun _ _ : X => 0).
Proof. split; intros; lia. Qed.

Lemma cmp_order_if {X : Type} (b : bool) (c1 c2 : X -> X -> Z) :
  cmp_order c1 -> cmp_order c2 -> cmp_order (if b then c1 else c2).
Proof. now destruct b. Qed.

Lemma cmp_order_ext {X : Type} (f g : X -> X -> Z) :
  (forall x y, f x y = g x y) -> cmp_order g -> cmp_order f.
Proof.
  intros E [A T]. split.
  - intros x y. rewrite !E. apply A.
  - intros x y z. rewrite !E. apply T.
Qed.

Lemma cmp_order_weights (w : Elem -> Z) (view : list Elem -> list Elem) :
  cmp_order (fun x y : list Elem * list Z =>
               lexCompare (weights w (view (fst x))) (weights w (view (fst y)))).
Proof.
  split.
  - intros x y. apply lexCompare_antisym; apply weights_nonzero.
  - intros x y z. apply lexCompare_trans.
Qed.

Lemma cmp_order_bytes :
  cmp_order (fun x y : list Elem * list Z => bytes_Compare (snd x) (snd y)).
Proof.
  split.
  - intros x y. apply bytes_Compare_antisym.
  - intros x y z. apply bytes_Compare_trans.
Qed.

Lemma compareWith_order (c : Collator) :
  cmp_order (fun x y : list Elem * list Z =>
               compareWith c (fst x) (fst y) (snd x) (snd y)).
Proof.
  apply cmp_order_ext with
    (g := lexThen
            (lexThen
               (fun x y => lexCompare (weights Primary (fst x)) (weights Primary (fst y)))
               (lexThen
                  (if colltab.leb colltab.Secondary (Strength c)
                   then fun x y => lexCompare (weights Secondary (ordered c (fst x)))
                                              (weights Secondary (ordered c (fst y)))
                   else fun _ _ => 0)
                  (if colltab.leb colltab.Tertiary (Strength c) || CaseLevel c
                   then lexThen
                          (fun x y => lexCompare (weights Tertiary (fst x))
                                                 (weights Tertiary (fst y)))
                          (if colltab.leb colltab.Quaternary (Strength c)
                           then fun x y => lexCompare (weights Quaternary (fst x))
                                                      (weights Quaternary (fst y))
                           else fun _ _ => 0)
                   else fun _ _ => 0)))
            (if colltab.eqb colltab.Identity (Strength c)
             then fun x y => bytes_Compare (snd x) (snd y)
             else fun _ _ => 0)).
  - intros x y. unfold compareWith, compareElems, lowerElems, lexThen.
    destruct (colltab.leb colltab.Secondary (Strength c)),
      (colltab.leb colltab.Tertiary (Strength c) || CaseLevel c),
      (colltab.leb colltab.Quaternary (Strength c)),
      (colltab.eqb colltab.Identity (Strength c)); reflexivity.
  - repeat first [ apply cmp_order_lexThen | apply cmp_order_if
                 | apply cmp_order_zero | apply cmp_order_bytes
                 | apply (cmp_order_weights _ (fun l => l))
                 | apply (cmp_order_weights _ (ordered c)) ].
Qed.

Lemma Compare_Shifted_value (fuel : nat) (c c' : Collator) (a b : list Z) (r : Z) :
  Alternate c = AltShifted ->
  Compare fuel c a b = Ok (r, c') ->
  r = if colltab.eqb colltab.Identity (Strength c) then bytes_Compare a b else 0.
Proof.
  intros Halt H. unfold Compare in H.
  bind_inv_as H Ec. destruct a0 as [r0 c1].
  pose proof (compare_settings _ _ Ec) as (ja & jb & ->).
  apply compare_Shifted_value in Ec; [|exact Halt|reflexivity|reflexivity].
  subst r0. change (negb (0 =? 0)) with false in H. cbv iota in H.
  cbn [Strength with_iters] in H.
  destruct (colltab.eqb colltab.Identity (Strength c)); now injection H as <- _.
Qed.

(** X9: [Compare] orders its inputs.  With a weigher that keeps its
    contract and appends, for every configuration: when [Compare] finds
    [x] not greater than [y] and [y] not greater than [z], it finds [x]
    not greater than [z]. *)
Theorem Compare_transitive :
  forall (fuel : nat) (c c1 c2 c3 : Collator) (x y z : list Z) (r1 r2 r3 : Z),
    Collator_wf c -> WeigherOK (t c) -> WeigherAppends (t c) ->
    Compare fuel c x y = Ok (r1, c1) ->
    Compare fuel c y z = Ok (r2, c2) ->
    Compare fuel c x z = Ok (r3, c3) ->
    r1 <= 0 -> r2 <= 0 -> r3 <= 0.
Proof.
  intros fuel c c1 c2 c3 x y z r1 r2 r3 [H0 H1] Hw Happ Hxy Hyz Hxz.
  destruct (Alternate c) eqn:Halt.
  1,2,4:
    (destruct (@colElems_total (t c) x Hw) as (Nx & X & HX);
     destruct (@colElems_total (t c) y Hw) as (Ny & Y & HY);
     destruct (@colElems_total (t c) z Hw) as (Nz & Zs & HZ);
     set (n := Nat.max Nx (Nat.max Ny Nz));
     assert (Hns : Alternate c <> AltShifted) by (rewrite Halt; discriminate);
     rewrite (@Compare_value fuel n c c1 x y r1 X Y) by
       (try assumption; rewrite ?H0, ?H1; try assumption; first [apply HX|apply HY]; lia);
     rewrite (@Compare_value fuel n c c2 y z r2 Y Zs) by
       (try assumption; rewrite ?H0, ?H1; try assumption; first [apply HY|apply HZ]; lia);
     rewrite (@Compare_value fuel n c c3 x z r3 X Zs) by
       (try assumption; rewrite ?H0, ?H1; try assumption; first [apply HX|apply HZ]; lia);
     exact (proj2 (compareWith_order c) (X, x) (Y, y) (Zs, z))).
  rewrite (@Compare_Shifted_value _ _ _ _ _ _ Halt Hxy),
    (@Compare_Shifted_value _ _ _ _ _ _ Halt Hyz),
    (@Compare_Shifted_value _ _ _ _ _ _ Halt Hxz).
  destruct (colltab.eqb colltab.Identity (Strength c)); [apply bytes_Compare_trans|lia].
Qed.

(** ** Keys and [Compare] *)

Lemma bytes_Compare_app (p t1 t2 : list Z) :
  bytes_Compare (p ++ t1) (p ++ t2) = bytes_Compare t1 t2.
Proof.
  induction p as [|x p IH]; [reflexivity|]. cbn [app]. now rewrite bytes_Compare_eq_head.
Qed.

(** Fields written with a monotone code none of whose words begins
    another, each followed by something that compares below every word:
    the bytes compare as the fields do. *)
Lemma encoded_compare (enc : Z -> list Z) (D : Z -> Prop) (Ta Tb : list Z) :
  (forall x, D x -> 0 < x) ->
  (forall x y t1 t2, D x -> D y -> x < y ->
     bytes_Compare (enc x ++ t1) (enc y ++ t2) = -1) ->
  (forall x t, D x -> bytes_Compare Ta (enc x ++ t) = -1) ->
  (forall x t, D x -> bytes_Compare Tb (enc x ++ t) = -1) ->
  forall xs ys, Forall D xs -> Forall D ys ->
    bytes_Compare (flat_map enc xs ++ Ta) (flat_map enc ys ++ Tb)
    = if negb (lexCompare xs ys =? 0) then lexCompare xs ys else bytes_Compare Ta Tb.
Proof.
  intros Hpos Hmono HTa HTb.
  induction xs as [|x xs IH]; intros [|y ys] Hx Hy; cbn [flat_map lexCompare app].
  - reflexivity.
  - inversion Hy; subst. rewrite <- app_assoc, HTa by assumption.
    pose proof (Hpos y H1). destruct (Z.ltb_spec 0 y); [reflexivity|lia].
  - inversion Hx; subst.
    rewrite <- app_assoc, (@bytes_Compare_antisym Tb), HTb by assumption.
    pose proof (Hpos x H1). destruct (Z.ltb_spec x 0); [lia|reflexivity].
  - inversion Hx; inversion Hy; subst. rewrite <- !app_assoc.
    destruct (Z.eqb_spec x y) as [->|Hne]; cbn [negb].
    + rewrite bytes_Compare_app. now apply IH.
    + destruct (Z.ltb_spec x y).
      * rewrite Hmono by assumption. reflexivity.
      * rewrite (@bytes_Compare_antisym (enc y ++ flat_map enc ys ++ Tb)),
          Hmono by (try assumption; lia).
        reflexivity.
Qed.

Lemma primary_section_weights (ws : list Elem) :
  primary_section ws = flat_map (appendPrimary []) (weights Primary ws).
Proof.
  induction ws as [|e ws IH]; [reflexivity|].
  rewrite weights_cons.
  change (primary_section (e :: ws))
    with ((if 0 <? Primary e then appendPrimary [] (Primary e) else [])
          ++ primary_section ws).
  pose proof (Primary_nonneg e).
  destruct (Z.ltb_spec 0 (Primary e)), (Z.eqb_spec (Primary e) 0); try lia;
    cbn [flat_map app]; now rewrite IH.
Qed.

Lemma secondary_section_weights (ws : list Elem) :
  Forall weights_fit ws ->
  secondary_section ws
  = flat_map (fun w => [uint8 (Z.shiftr w 8); uint8 w]) (weights Secondary ws).
Proof.
  induction 1 as [|e ws He _ IH]; [reflexivity|].
  rewrite weights_cons.
  change (secondary_section (e :: ws))
    with ((if 0 <? Secondary e
           then [uint8 (Z.shiftr (Secondary e) 8); uint8 (Secondary e)] else [])
          ++ secondary_section ws).
  destruct He as (_ & Hs & _).
  destruct (Z.ltb_spec 0 (Secondary e)), (Z.eqb_spec (Secondary e) 0); try lia;
    cbn [flat_map app]; now rewrite IH.
Qed.

Lemma tertiary_section_weights (ws : list Elem) :
  Forall weights_fit ws ->
  tertiary_section ws = flat_map (fun w => [uint8 w]) (weights Tertiary ws).
Proof.
  induction 1 as [|e ws He _ IH]; [reflexivity|].
  rewrite weights_cons.
  change (tertiary_section (e :: ws))
    with ((if 0 <? Tertiary e then [uint8 (Tertiary e)] else []) ++ tertiary_section ws).
  destruct He as (_ & _ & Ht).
  destruct (Z.ltb_spec 0 (Tertiary e)), (Z.eqb_spec (Tertiary e) 0); try lia;
    cbn [flat_map app]; now rewrite IH.
Qed.

Lemma weights_in_range (w : Elem -> Z) (lo hi : Z) (ws : list Elem) :
  Forall (fun e => lo <= w e < hi) ws ->
  Forall (fun v => lo <= v < hi /\ v <> 0) (weights w ws).
Proof.
  induction 1 as [|e ws He _ IH]; [constructor|].
  rewrite weights_cons. destruct (Z.eqb_spec (w e) 0); [exact IH|].
  constructor; [split; assumption|exact IH].
Qed.

Lemma primary_compare (A B : list Elem) (Ta Tb : list Z) :
  Forall weights_fit A -> Forall weights_fit B -> sep_or_end Ta -> sep_or_end Tb ->
  bytes_Compare (primary_section A ++ Ta) (primary_section B ++ Tb)
  = let r := lexCompare (weights Primary A) (weights Primary B) in
    if negb (r =? 0) then r else bytes_Compare Ta Tb.
Proof.
  intros HA HB HTa HTb. rewrite !primary_section_weights. cbv zeta.
  assert (Hterm : forall T x t, sep_or_end T -> 0 <= x < 2 ^ 23 /\ x <> 0 ->
            bytes_Compare T (appendPrimary [] x ++ t) = -1).
  { intros T x t [->|[k ->]] Hx.
    - rewrite appendPrimary_bytes by lia. now destruct (x <=? 32767).
    - apply appendPrimary_above_separator. lia. }
  apply (@encoded_compare (appendPrimary []) (fun v => 0 <= v < 2 ^ 23 /\ v <> 0)).
  - intros; lia.
  - intros x y t1 t2 Hx Hy Hlt. apply appendPrimary_lt; lia.
  - intros x t Hx. now apply Hterm.
  - intros x t Hx. now apply Hterm.
  - apply weights_in_range. eapply Forall_impl; [|exact HA].
    intros e (He & _). pose proof (Primary_nonneg e). lia.
  - apply weights_in_range. eapply Forall_impl; [|exact HB].
    intros e (He & _). pose proof (Primary_nonneg e). lia.
Qed.

Lemma secondary_compare (A B : list Elem) (Ta Tb : list Z) :
  Forall weights_fit A -> Forall weights_fit B -> sep_or_end Ta -> sep_or_end Tb ->
  bytes_Compare (secondary_section A ++ Ta) (secondary_section B ++ Tb)
  = let r := lexCompare (weights Secondary A) (weights Secondary B) in
    if negb (r =? 0) then r else bytes_Compare Ta Tb.
Proof.
  intros HA HB HTa HTb. rewrite !secondary_section_weights by assumption. cbv zeta.
  assert (Hbytes : forall x, 0 <= x < 2 ^ 16 ->
            [uint8 (Z.shiftr x 8); uint8 x] = [x / 256; x mod 256]).
  { intros x Hx. unfold uint8. rewrite Z.shiftr_div_pow2 by lia.
    change (2 ^ 8) with 256. f_equal. apply Z.mod_small.
    Z.to_euclidean_division_equations. lia. }
  assert (Hterm : forall T x t, sep_or_end T -> 0 <= x < 2 ^ 16 /\ x <> 0 ->
            bytes_Compare T ([uint8 (Z.shiftr x 8); uint8 x] ++ t) = -1).
  { intros T x t [->|[k ->]] Hx; rewrite Hbytes by lia; [reflexivity|].
    cbn [app]. destruct (Z.lt_ge_cases 0 (x / 256)) as [Hlt|Hge].
    - now apply bytes_Compare_lt.
    - assert (E : x / 256 = 0) by (Z.to_euclidean_division_equations; lia).
      rewrite E, bytes_Compare_eq_head. apply bytes_Compare_lt.
      Z.to_euclidean_division_equations. lia. }
  apply (@encoded_compare (fun w => [uint8 (Z.shiftr w 8); uint8 w])
           (fun v => 0 <= v < 2 ^ 16 /\ v <> 0)).
  - intros; lia.
  - intros x y t1 t2 Hx Hy Hlt. rewrite !Hbytes by lia. cbn [app].
    destruct (Z.lt_ge_cases (x / 256) (y / 256)) as [Hl|Hge].
    + now apply bytes_Compare_lt.
    + assert (E : x / 256 = y / 256) by (Z.to_euclidean_division_equations; lia).
      rewrite E, bytes_Compare_eq_head. apply bytes_Compare_lt.
      Z.to_euclidean_division_equations. lia.
  - intros x t Hx. now apply Hterm.
  - intros x t Hx. now apply Hterm.
  - apply weights_in_range. eapply Forall_impl; [|exact HA]. now intros e (_ & He & _).
  - apply weights_in_range. eapply Forall_impl; [|exact HB]. now intros e (_ & He & _).
Qed.

Lemma tertiary_compare (A B : list Elem) :
  Forall weights_fit A -> Forall weights_fit B ->
  bytes_Compare (tertiary_section A) (tertiary_section B)
  = lexCompare (weights Tertiary A) (weights Tertiary B).
Proof.
  intros HA HB. rewrite !tertiary_section_weights by assumption.
  rewrite <- (app_nil_r (flat_map _ (weights Tertiary A))).
  rewrite <- (app_nil_r (flat_map _ (weights Tertiary B))).
  rewrite (@encoded_compare (fun w => [uint8 w]) (fun v => 0 <= v < 2 ^ 8 /\ v <> 0)).
  - cbn [bytes_Compare].
    destruct (Z.eqb_spec (lexCompare (weights Tertiary A) (weights Tertiary B)) 0);
      cbn [negb]; congruence.
  - intros; lia.
  - intros x y t1 t2 Hx Hy Hlt. unfold uint8. rewrite !Z.mod_small by lia.
    now apply bytes_Compare_lt.
  - reflexivity.
  - reflexivity.
  - apply weights_in_range. eapply Forall_impl; [|exact HA]. now intros e (_ & _ & He).
  - apply weights_in_range. eapply Forall_impl; [|exact HB]. now intros e (_ & _ & He).
Qed.

Lemma ordered_fit (c : Collator) (A : list Elem) :
  Forall weights_fit A -> Forall weights_fit (ordered c A).
Proof. unfold ordered. destruct (Backwards c); [apply Forall_rev|auto]. Qed.

(** The keys of two element lists compare as [compare] finds the lists, when
    variables are not ignored and the strength is at most Tertiary. *)
Lemma key_layout_compare (c : Collator) (A B : list Elem) :
  Alternate c = AltNonIgnorable -> colltab.leb (Strength c) colltab.Tertiary = true ->
  Forall weights_fit A -> Forall weights_fit B ->
  bytes_Compare (key_layout c A) (key_layout c B) = compareElems c A B.
Proof.
  intros Halt Hs HA HB.
  pose proof (ordered_fit c HA) as HoA. pose proof (ordered_fit c HB) as HoB.
  unfold key_layout, compareElems, lowerElems, has_secondary, has_tertiary,
    has_quaternary.
  rewrite Halt. change (Alternate_eqb AltNonIgnorable AltShifted) with false.
  change (Alternate_eqb AltNonIgnorable AltShiftTrimmed) with false.
  rewrite andb_false_r.
  assert (Hq : colltab.leb colltab.Quaternary (Strength c) = false)
    by (destruct (Strength c); try discriminate Hs; reflexivity).
  rewrite Hq. cbv zeta.
  destruct (colltab.leb colltab.Secondary (Strength c)) eqn:E2,
    (colltab.leb colltab.Tertiary (Strength c)) eqn:E3, (CaseLevel c) eqn:Ec;
    cbn [orb app];
    try (destruct (Strength c); discriminate);
    rewrite primary_compare by
      (try assumption; first [left; reflexivity | right; eexists; reflexivity]);
    cbv zeta;
    (destruct (Z.eqb_spec (lexCompare (weights Primary A) (weights Primary B)) 0)
       as [Hz1|Hnz1]; cbn [negb]; [|reflexivity]);
    rewrite ?app_nil_r, ?bytes_Compare_eq_head;
    try (change (0 =? 0) with true; cbn [negb]);
    try match goal with
        | |- bytes_Compare (secondary_section ?a) (secondary_section ?b) = _ =>
            rewrite <- (app_nil_r (secondary_section a)),
                    <- (app_nil_r (secondary_section b))
        end.
  all: try (rewrite secondary_compare by
      (try assumption; first [left; reflexivity | right; eexists; reflexivity]);
    cbv zeta;
    (destruct (Z.eqb_spec (lexCompare (weights Secondary (ordered c A))
                                      (weights Secondary (ordered c B))) 0)
       as [Hz2|Hnz2]; cbn [negb]; [|reflexivity]);
    rewrite ?bytes_Compare_eq_head).
  all: try (rewrite tertiary_compare by assumption;
    destruct (Z.eqb_spec (lexCompare (weights Tertiary A) (weights Tertiary B)) 0);
    cbn [negb]; congruence).
  all: try reflexivity.
Qed.

(** ** [next] and [nextPlain] *)

Lemma plained_trans (a b c : @iter Elem) : plained a b -> plained b c -> plained a c.
Proof.
  induction 1 as [|i i1 i2 Hn _ IH]; [auto|].
  intro H. eapply plained_step; [exact Hn|]. now apply IH.
Qed.

(** Each call of [next] is matched by calls of [nextPlain] that take the
    same bytes and leave the same elements, in some order. *)
Lemma next_plain_sim :
  forall (fuel : nat) (i : iter) (b : bool) (i' j : iter),
    WeigherAppends (it i) -> 0 <= pStarter i -> (ce i = [] -> prevCCC i = 0) ->
    bytes i = bytes j -> it i = it j -> Permutation (ce i) (ce j) ->
    next fuel i = Ok (b, i') ->
    exists j',
      plained j j' /\ bytes i' = bytes j' /\ it i' = it j'
      /\ Permutation (ce i') (ce j')
      /\ 0 <= pStarter i' /\ (ce i' = [] -> prevCCC i' = 0).
Proof.
  induction fuel as [|fuel IH]; intros i b i' j Happ Hps Hprev Hb Ht Hperm H;
    rewrite next_unfold in H; unfold done in H;
    destruct (bytes i) as [|b0 bs] eqn:Eb; try discriminate H.
  - exists j. destruct (len (ce i) =? nce i); injection H as _ <-;
      (split; [apply plained_refl|]); iter_simpl; rewrite ?Eb; auto.
  - exists j. destruct (len (ce i) =? nce i); injection H as _ <-;
      (split; [apply plained_refl|]); iter_simpl; rewrite ?Eb; auto.
  - cbv zeta in H. unfold appendNext in H. rewrite Eb in H.
    pose proof Happ as [gen Hgen]. pose proof (Hgen (ce i) (b0 :: bs)) as EA.
    rewrite EA in H.
    set (new := fst (gen (b0 :: bs))) in *. set (sz := snd (gen (b0 :: bs))) in *.
    set (l := ce i ++ new) in *.
    unfold tail in H. cbn [bytes with_ce] in H. rewrite Eb in H.
    bind_inv_as H Etl. bind_inv_as Etl Esl. rename a0 into rest.
    injection Etl as <-.
    set (i2 := with_bytes (with_ce i l) rest) in *.
    change (ce i2) with l in H. change (prevCCC i2) with (prevCCC i) in H.
    set (j1 := with_nce (with_bytes (with_ce j (ce j ++ new)) rest)
                 (len (ce j ++ new))).
    assert (Hj : nextPlain j = Ok (true, j1)).
    { unfold nextPlain, done, appendNext. rewrite <- Hb, <- Ht, (Hgen (ce j) (b0 :: bs)).
      fold new sz. unfold tail. cbn [bytes with_ce]. rewrite <- Hb, Esl.
      reflexivity. }
    assert (Hp1 : Permutation l (ce j1)).
    { unfold l, j1. iter_simpl. now apply Permutation_app_tail. }
    assert (Hstep : forall j', plained j1 j' -> plained j j').
    { intros j' Hj'. eapply plained_step; eassumption. }
    bind_inv_as H Elast. rename a into e.
    pose proof (index_inv _ _ Elast) as [Hlast _].
    assert (Hl : len (ce i) <= len l).
    { unfold l, len. rewrite length_app. lia. }
    pose proof (len_nonneg (ce i)) as Hnn.
    assert (Hlne : l <> []) by (intro E; rewrite E in Hlast; cbn in Hlast; lia).
    destruct (Z.eqb_spec (CCC e) 0) as [Hc0|Hcn0].
    { injection H as _ <-. exists j1. split; [apply Hstep, plained_refl|].
      subst i2 j1. iter_simpl. repeat split; auto; lia. }
    bind_inv_as H Est. rename a into st. destruct st.
    { bind_inv_as H Esk. rename a into p1.
      apply next_skip_prev in Esk. destruct Esk as (Hle & _ & _).
      injection H as _ <-. exists j1. split; [apply Hstep, plained_refl|].
      subst i2 j1. iter_simpl. repeat split; auto; try lia. intro; contradiction. }
    destruct (Z.ltb_spec (CCC e) (prevCCC i)) as [Hlow|Hhigh].
    + assert (Hp0 : 1 <= len (ce i)).
      { destruct (ce i) as [|x xs] eqn:Ece.
        - specialize (Hprev eq_refl). pose proof (CCC_nonneg e). lia.
        - unfold len. cbn [length]. lia. }
      bind_inv_as H Ed. rename a into i3.
      destruct (@doNorm_ok _ _ i2 (len (ce i)) (CCC e)) as
        (i3' & Hd & Hb3 & Hp3 & Hn3 & Ht3 & Hl3 & Hs3);
        [exact Hps|change (ce i2) with l; lia|].
      rewrite Hd in Ed. injection Ed as ->.
      change (ce i2) with l in Hl3. change (bytes i2) with rest in Hb3.
      change (it i2) with (it i) in Ht3.
      assert (Hperm3 : Permutation (ce i3) l).
      { destruct (Z.ltb_spec maxCombiningCharacters (len (ce i) - pStarter i))
          as [Hbig|Hsmall].
        - destruct (@doNorm_window_exceeded _ _ i2 (len (ce i)) (CCC e) Hbig)
            as (e' & _ & Hd'); [exact Hlne|].
          rewrite Hd' in Hd. injection Hd as <-. reflexivity.
        - destruct (@doNorm_moves_block _ _ i2 (len (ce i)) (CCC e))
            as (q & Hq & Hqr & Hd'); [exact Hps|change (ce i2) with l; lia|exact Hsmall|].
          rewrite Hd' in Hd. injection Hd as <-. cbn [ce with_ce].
          change (ce i2) with l.
          apply move_block_Permutation. unfold len in *. lia. }
      destruct (IH i3 b i' j1) as (j' & Hpl & Hrest); try assumption.
      * now rewrite Ht3.
      * intro E. rewrite E in Hl3. unfold len in *. cbn in Hl3.
        destruct l; [contradiction|cbn in Hl3; lia].
      * rewrite Ht3. exact Ht.
      * etransitivity; eassumption.
      * exists j'. split; [now apply Hstep|exact Hrest].
    + destruct (IH (with_prevCCC i2 (CCC e)) b i' j1) as (j' & Hpl & Hrest);
        try assumption; try reflexivity.
      * intro E. contradiction.
      * exists j'. split; [now apply Hstep|exact Hrest].
Qed.

Lemma drain_plain_sim :
  forall (fuel : nat) (i iA j : iter),
    WeigherAppends (it i) -> 0 <= pStarter i -> (ce i = [] -> prevCCC i = 0) ->
    bytes i = bytes j -> it i = it j -> Permutation (ce i) (ce j) ->
    drain fuel i = Ok iA ->
    exists j', plained j j' /\ bytes iA = bytes j' /\ Permutation (ce iA) (ce j').
Proof.
  induction fuel as [|fuel IH]; intros i iA j Happ Hps Hprev Hb Ht Hperm H;
    [discriminate H|].
  cbn [drain] in H. bind_inv_as H En. destruct a as [more i1].
  destruct (@next_plain_sim _ _ _ _ j Happ Hps Hprev Hb Ht Hperm En)
    as (j1 & Hpl & Hb1 & Ht1 & Hperm1 & Hps1 & Hprev1).
  destruct more.
  - pose proof (next_frame _ _ En) as [_ Hit].
    destruct (IH i1 iA j1) as (j' & Hpl' & Hrest); try assumption.
    + now rewrite Hit.
    + exists j'. split; [eapply plained_trans; eassumption|exact Hrest].
  - injection H as <-. exists j1. auto.
Qed.

Lemma drain_done (fuel : nat) (i iA : iter) :
  iter_ok i -> drain fuel i = Ok iA -> bytes iA = [].
Proof.
  intros Hok H.
  destruct (@drain_total _ _ _ i Hok (le_n _)) as (i2 & Hd & _ & Hb).
  pose proof (@drain_mono _ _ _ _ _ H (Nat.max fuel (need i)) ltac:(lia)) as E1.
  pose proof (@drain_mono _ _ _ _ _ Hd (Nat.max fuel (need i)) ltac:(lia)) as E2.
  congruence.
Qed.

Lemma plained_drainPlain (j j' : @iter Elem) :
  plained j j' -> bytes j' = [] -> exists n, drainPlain n j = Ok j'.
Proof.
  induction 1 as [i|i i1 i2 Hn _ IH]; intro Hb.
  - exists 1%nat. cbn. unfold nextPlain, done. now rewrite Hb.
  - destruct (IH Hb) as [n Hd]. exists (S n). cbn [drainPlain]. now rewrite Hn.
Qed.

Lemma drainPlain_mono :
  forall (n : nat) (i i' : @iter Elem),
    drainPlain n i = Ok i' -> forall m, (n <= m)%nat -> drainPlain m i = Ok i'.
Proof.
  induction n as [|n IH]; intros i i' H m Hm; [discriminate H|].
  destruct m as [|m]; [lia|]. cbn [drainPlain] in *.
  destruct (nextPlain i) as [[more i1]| |]; try discriminate H. cbn [bind] in *.
  destruct more; [|exact H]. apply IH; [exact H|lia].
Qed.

Lemma colElems_plain (w : Weigher Elem) (s : list Z) (fuel : nat) (A : list Elem) :
  WeigherOK w -> WeigherAppends w -> colElems fuel w s = Ok A ->
  exists j', plained (setInput (iter_init w) s) j' /\ bytes j' = []
             /\ Permutation A (ce j').
Proof.
  intros Hw Happ HA. unfold colElems in HA.
  destruct (drain fuel (setInput (iter_init w) s)) as [iA| |] eqn:Hd; try discriminate HA.
  injection HA as <-.
  destruct (@setInput_window (iter_init w) s Hw ltac:(cbn; lia)) as [Hok _].
  pose proof (@drain_done _ _ _ Hok Hd) as Hdone.
  destruct (@drain_plain_sim fuel (setInput (iter_init w) s) iA
              (setInput (iter_init w) s) Happ
              ltac:(cbn; lia) ltac:(reflexivity) eq_refl eq_refl
              (Permutation_refl _) Hd) as (j' & Hpl & Hb & Hperm).
  exists j'. split; [exact Hpl|]. split; [congruence|exact Hperm].
Qed.

(** X10: [next] only reorders.  With a weigher that keeps its contract and
    appends, the elements that the loop over [next] collects for an input
    are those that the loop over [nextPlain] collects, each as often: both
    loops return, and their buffers are permutations of each other. *)
Theorem next_only_reorders :
  forall (w : Weigher Elem) (s : list Z),
    WeigherOK w -> WeigherAppends w ->
    exists N, forall fuel, (N <= fuel)%nat ->
      exists A P,
        colElems fuel w s = Ok A /\ plainElems fuel w s = Ok P /\ Permutation A P.
Proof.
  intros w s Hw Happ.
  destruct (@colElems_total w s Hw) as (Na & A & HA).
  destruct (@colElems_plain w s Na A Hw Happ (HA Na (le_n _))) as (j' & Hpl & Hb & Hperm).
  destruct (plained_drainPlain Hpl Hb) as [n Hn].
  exists (Nat.max Na n). intros fuel Hle. exists A, (ce j').
  split; [apply HA; lia|]. split; [|exact Hperm].
  unfold plainElems.
  now rewrite (@drainPlain_mono n _ _ Hn fuel ltac:(lia)).
Qed.

Lemma plained_fit (j j' : @iter Elem) :
  plained j j' -> WeigherFits (it j) -> Forall weights_fit (ce j) ->
  Forall weights_fit (ce j').
Proof.
  induction 1 as [i|i i1 i2 Hn _ IH]; intros Hfit Hce; [exact Hce|].
  unfold nextPlain in Hn. destruct (done i); [discriminate Hn|].
  unfold appendNext in Hn. pose proof (Hfit (ce i) (bytes i) Hce) as Hnew.
  destruct (AppendNext (it i) (ce i) (bytes i)) as [l sz].
  unfold tail in Hn. cbn [bytes with_ce] in Hn.
  destruct (slice_from (bytes i) sz) as [rest| |]; try discriminate Hn.
  cbn [bind] in Hn. injection Hn as <-. apply IH; [exact Hfit|exact Hnew].
Qed.

Lemma colElems_fit (w : Weigher Elem) (s : list Z) (fuel : nat) (A : list Elem) :
  WeigherOK w -> WeigherAppends w -> WeigherFits w ->
  colElems fuel w s = Ok A -> Forall weights_fit A.
Proof.
  intros Hw Happ Hfit HA.
  destruct (@colElems_plain _ _ _ _ Hw Happ HA) as (j' & Hpl & _ & Hperm).
  apply (Permutation_Forall (Permutation_sym Hperm)).
  apply (plained_fit Hpl); [exact Hfit|constructor].
Qed.

Lemma Key_value (fuel : nat) (c : Collator) (buf : Buffer) (a : list Z)
  (A : list Elem) :
  colElems fuel (it (_iter0 c)) a = Ok A ->
  exists buf' c',
    Key fuel c buf a
    = Ok (key_layout c (processWeights (Alternate c) (Top (t c)) A), buf', c').
Proof.
  intro HA. rewrite Key_unfold, setInput_init, drain_with_pce.
  unfold colElems in HA.
  destruct (drain fuel (setInput (iter_init (it (_iter0 c))) a)) as [iA| |];
    try discriminate HA.
  cbn in HA |- *. injection HA as <-. eexists _, _. reflexivity.
Qed.

(** X11: keys order as [Compare] does.  With a weigher that keeps its
    contract, appends, and whose weights fit the fields of a key, when
    variables are not ignored and the strength is at most Tertiary: [Key]
    and [Compare] return, and [bytes.Compare] of the keys of [a] and [b]
    is what [Compare(a, b)] returns. *)
Theorem Key_orders_as_Compare :
  forall (c : Collator) (a b : list Z) (bufa bufb : Buffer),
    Collator_wf c -> WeigherOK (t c) -> WeigherAppends (t c) -> WeigherFits (t c) ->
    Alternate c = AltNonIgnorable -> colltab.leb (Strength c) colltab.Tertiary = true ->
    exists N, forall fuel, (N <= fuel)%nat ->
      exists ka kb bufa' bufb' ca cb cc,
        Key fuel c bufa a = Ok (ka, bufa', ca)
        /\ Key fuel c bufb b = Ok (kb, bufb', cb)
        /\ Compare fuel c a b = Ok (bytes_Compare ka kb, cc).
Proof.
  intros c a b bufa bufb [H0 H1] Hw Happ Hfit Halt Hs.
  destruct (@colElems_total (t c) a Hw) as (Na & A & HA).
  destruct (@colElems_total (t c) b Hw) as (Nb & B & HB).
  destruct (@Compare_total _ _ c a b ltac:(now rewrite H0) ltac:(now rewrite H1))
    as (Nc & r & cc & HC & _).
  exists (Nat.max Nc (Nat.max Na Nb)). intros fuel Hle.
  specialize (HA fuel ltac:(lia)). specialize (HB fuel ltac:(lia)).
  pose proof (@colElems_fit _ _ _ _ Hw Happ Hfit HA) as HfA.
  pose proof (@colElems_fit _ _ _ _ Hw Happ Hfit HB) as HfB.
  destruct (@Key_value fuel c bufa a A ltac:(now rewrite H0)) as (bufa' & ca & Hka).
  destruct (@Key_value fuel c bufb b B ltac:(now rewrite H0)) as (bufb' & cb & Hkb).
  rewrite Halt in Hka, Hkb. cbn [processWeights] in Hka, Hkb.
  exists (key_layout c A), (key_layout c B), bufa', bufb', ca, cb, cc.
  split; [exact Hka|]. split; [exact Hkb|].
  pose proof (@Compare_mono _ _ Nc fuel c a b _ HC ltac:(lia)) as HC'.
  rewrite HC'. do 2 f_equal.
  rewrite (@Compare_value fuel fuel c cc a b r A B); try assumption;
    rewrite ?H0, ?H1; try assumption; try (rewrite Halt; discriminate).
  rewrite (@key_layout_compare c A B Halt Hs HfA HfB). unfold compareWith.
  replace (colltab.eqb colltab.Identity (Strength c)) with false
    by (destruct (Strength c); try discriminate Hs; reflexivity).
  destruct (Z.eqb_spec (compareElems c A B) 0); cbn [negb]; congruence.
Qed.

(** ** Keys at different strengths *)

(** X12: raising the strength only appends to a key.  Without the case
    level, and with the same alternate and the same direction of the
    secondary level, the key that [keyFromElems] writes at a strength is
    the beginning of the key it writes for the same elements at any higher
    strength. *)
Theorem key_grows_with_strength :
  forall (c c' : Collator) (buf : Buffer) (ws : list Elem),
    Alternate c' = Alternate c -> Backwards c' = Backwards c ->
    CaseLevel c = false -> CaseLevel c' = false ->
    colltab.leb (Strength c) (Strength c') = true ->
    exists rest,
      key (keyFromElems c' buf ws) = key (keyFromElems c buf ws) ++ rest.
Proof.
  intros c c' buf ws Ha Hb Hc Hc' Hs.
  rewrite !keyFromElems_layout.
  unfold key_layout, has_secondary, has_tertiary, has_quaternary, ordered.
  rewrite Ha, Hb, Hc, Hc'.
  destruct (Strength c), (Strength c'); try discriminate Hs;
    cbn [colltab.leb colltab.rank Z.leb Z.compare Pos.compare Pos.compare_cont
         orb andb app];
    repeat setoid_rewrite app_nil_r;
    repeat (progress (repeat setoid_rewrite <- app_assoc; cbn [app]));
    first [ eexists; reflexivity | exists []; rewrite ?app_nil_r; reflexivity ].
Qed.

End Coverage.

(** ** The further properties at concrete inputs *)

Lemma byteWeigher_ok : WeigherOK byteWeigher.
Proof.
  intros buf s Hs. destruct s as [|b s]; [contradiction|].
  cbn [byteWeigher AppendNext fst snd]. split.
  - rewrite length_app.
    assert (H : (1 <= length (toy_elems (uint8 b)))%nat).
    { unfold toy_elems.
      repeat match goal with
             | |- context [if ?x then _ else _] => destruct x
             end; cbn; lia. }
    lia.
  - unfold len. cbn [length]. lia.
Qed.

Lemma byteWeigher_appends : WeigherAppends byteWeigher.
Proof.
  exists (fun s => match s with
                   | [] => ([], 0)
                   | b :: _ => (toy_elems (uint8 b), 1)
                   end).
  intros buf [|b s]; cbn [byteWeigher AppendNext fst snd]; [|reflexivity].
  now rewrite app_nil_r.
Qed.

Lemma byteWeigher_fits : WeigherFits byteWeigher.
Proof.
  intros buf [|b s] Hbuf; cbn [byteWeigher AppendNext fst]; [exact Hbuf|].
  apply Forall_app. split; [exact Hbuf|].
  assert (Hb : 0 <= uint8 b < 256) by (unfold uint8; apply Z.mod_pos_bound; lia).
  unfold toy_elems.
  repeat match goal with
         | |- context [Z.eqb ?x ?y] => destruct (Z.eqb_spec x y)
         | |- context [Z.leb ?x ?y] => destruct (Z.leb_spec x y)
         end; cbn [andb];
    repeat (apply Forall_cons;
            [unfold weights_fit;
             cbn [Primary Secondary Tertiary WElem_ops
                  w_primary w_secondary w_tertiary]; lia|]);
    apply Forall_nil.
Qed.

Lemma processWeights_keeps_non_variables_witness :
  nth_error (toy_elems 97 ++ toy_elems 32 ++ toy_elems 98) 2
  = Some (mkW 0x1062 0x20 2 0x1FFFFF 0)
  /\ 0x0FFF < Primary (mkW 0x1062 0x20 2 0x1FFFFF 0)
  /\ Primary (mkW 0x1062 0x20 2 0x1FFFFF 0) <> 0
  /\ nth_error (processWeights AltShifted 0x0FFF
                  (toy_elems 97 ++ toy_elems 32 ++ toy_elems 98)) 2
     = Some (mkW 0x1062 0x20 2 0x1FFFFF 0).
Proof.
  assert (H1 : nth_error (toy_elems 97 ++ toy_elems 32 ++ toy_elems 98) 2
               = Some (mkW 0x1062 0x20 2 0x1FFFFF 0)) by reflexivity.
  assert (H2 : 0x0FFF < Primary (mkW 0x1062 0x20 2 0x1FFFFF 0)) by (cbn; lia).
  assert (H3 : Primary (mkW 0x1062 0x20 2 0x1FFFFF 0) <> 0) by (cbn; lia).
  split; [exact H1|]. split; [exact H2|]. split; [exact H3|].
  exact (proj2 (@processWeights_keeps_non_variables WElem WElem_ops AltShifted 0x0FFF
                  (toy_elems 97 ++ toy_elems 32 ++ toy_elems 98))
                2%nat (mkW 0x1062 0x20 2 0x1FFFFF 0) H1 H2 H3).
Defined.

Lemma Compare_Identity_zero_only_if_equal_witness :
  Strength (toyCollator colltab.Identity AltNonIgnorable) = colltab.Identity
  /\ result_map fst (Compare 10 (toyCollator colltab.Identity AltNonIgnorable)
                       [97; 2; 1] [97; 1; 2]) = Ok 1
  /\ result_map fst (Compare 10 (toyCollator colltab.Tertiary AltNonIgnorable)
                       [97; 2; 1] [97; 1; 2]) = Ok 0
  /\ bytes_Compare [97; 2; 1] [97; 1; 2] = 1
  /\ exists r0 c0,
       compare 10 (with_iters (toyCollator colltab.Identity AltNonIgnorable)
                     (setInput (_iter0 (toyCollator colltab.Identity AltNonIgnorable))
                        [97; 2; 1])
                     (setInput (_iter1 (toyCollator colltab.Identity AltNonIgnorable))
                        [97; 1; 2]))
       = Ok (r0, c0)
       /\ (r0 <> 0 -> 1 = r0) /\ (r0 = 0 -> 1 = bytes_Compare [97; 2; 1] [97; 1; 2]).
Proof.
  assert (H1 : Strength (toyCollator colltab.Identity AltNonIgnorable)
               = colltab.Identity) by reflexivity.
  assert (H2 : result_map fst (Compare 10 (toyCollator colltab.Identity AltNonIgnorable)
                                 [97; 2; 1] [97; 1; 2]) = Ok 1)
    by (vm_compute; reflexivity).
  split; [exact H1|]. split; [exact H2|].
  split; [vm_compute; reflexivity|]. split; [vm_compute; reflexivity|].
  destruct (Compare 10 (toyCollator colltab.Identity AltNonIgnorable)
              [97; 2; 1] [97; 1; 2])
    as [[r c']| |] eqn:E; cbn [result_map fst] in H2; try discriminate H2.
  injection H2 as ->.
  exact (proj1 (@Compare_Identity_zero_only_if_equal WElem WElem_ops 10%nat
                  (toyCollator colltab.Identity AltNonIgnorable) c'
                  [97; 2; 1] [97; 1; 2] 1 H1 E)).
Defined.

Lemma Key_appends_and_repeats_witness :
  result_map (fun x => fst (fst x))
    (Key 10 (toyCollator colltab.Tertiary AltNonIgnorable) (mkBuffer [7; 7]) [97; 98])
  = Ok [16; 97; 16; 98; 0; 0; 0; 32; 0; 32; 0; 0; 2; 2]
  /\ exists k buf' c',
       Key 10 (toyCollator colltab.Tertiary AltNonIgnorable) (mkBuffer [7; 7]) [97; 98]
       = Ok (k, buf', c')
       /\ key buf' = [7; 7] ++ k
       /\ (forall buf2, exists buf3 c3,
             Key 10 c' buf2 [97; 98] = Ok (k, buf3, c3) /\ key buf3 = key buf2 ++ k)
       /\ exists c3, Key 10 c' (Buffer_Reset buf') [97; 98] = Ok (k, mkBuffer k, c3).
Proof.
  assert (H : result_map (fun x => fst (fst x))
                (Key 10 (toyCollator colltab.Tertiary AltNonIgnorable) (mkBuffer [7; 7])
                   [97; 98])
              = Ok [16; 97; 16; 98; 0; 0; 0; 32; 0; 32; 0; 0; 2; 2])
    by (vm_compute; reflexivity).
  split; [exact H|].
  destruct (Key 10 (toyCollator colltab.Tertiary AltNonIgnorable) (mkBuffer [7; 7])
              [97; 98]) as [[[k buf'] c']| |] eqn:E; try discriminate H.
  exists k, buf', c'. split; [reflexivity|].
  exact (@Key_appends_and_repeats WElem WElem_ops 10%nat
           (toyCollator colltab.Tertiary AltNonIgnorable) c' (mkBuffer [7; 7]) buf'
           [97; 98] k E).
Defined.

Lemma released_elements_are_final_witness :
  WeigherOK (it (iter_init byteWeigher))
  /\ WeigherAppends (it (iter_init byteWeigher))
  /\ 0 <= pce (iter_init byteWeigher)
  /\ pumped (setInput (iter_init byteWeigher) [97; 2; 1; 98])
            (afterNext 9 (setInput (iter_init byteWeigher) [97; 2; 1; 98]))
  /\ pumped (afterNext 9 (setInput (iter_init byteWeigher) [97; 2; 1; 98]))
            (afterNext 9 (afterNext 9 (setInput (iter_init byteWeigher) [97; 2; 1; 98])))
  /\ nce (afterNext 9 (setInput (iter_init byteWeigher) [97; 2; 1; 98])) = 1
  /\ firstn (Z.to_nat (nce (afterNext 9 (setInput (iter_init byteWeigher)
                                            [97; 2; 1; 98]))))
       (ce (afterNext 9 (afterNext 9 (setInput (iter_init byteWeigher) [97; 2; 1; 98]))))
     = firstn (Z.to_nat (nce (afterNext 9 (setInput (iter_init byteWeigher)
                                              [97; 2; 1; 98]))))
         (ce (afterNext 9 (setInput (iter_init byteWeigher) [97; 2; 1; 98]))).
Proof.
  assert (Hp : 0 <= pce (iter_init byteWeigher)) by (cbn; lia).
  assert (Hstep : forall i : @iter WElem, pumped i (afterNext 9 i)).
  { intro i. unfold afterNext. destruct (next 9 i) as [[b i1]| |] eqn:E.
    - eapply pumped_step; [exact E|apply pumped_refl].
    - apply pumped_refl.
    - apply pumped_refl. }
  split; [exact byteWeigher_ok|]. split; [exact byteWeigher_appends|].
  split; [exact Hp|]. split; [apply Hstep|]. split; [apply Hstep|].
  split; [vm_compute; reflexivity|].
  exact (proj1 (@released_elements_are_final WElem WElem_ops
                  (iter_init byteWeigher) [97; 2; 1; 98]
                  (afterNext 9 (setInput (iter_init byteWeigher) [97; 2; 1; 98]))
                  (afterNext 9 (afterNext 9
                     (setInput (iter_init byteWeigher) [97; 2; 1; 98])))
                  byteWeigher_ok byteWeigher_appends Hp (Hstep _) (Hstep _))).
Defined.

Lemma Compare_decides_on_elements_witness :
  Collator_wf (byteCollator colltab.Tertiary AltNonIgnorable)
  /\ WeigherOK (t (byteCollator colltab.Tertiary AltNonIgnorable))
  /\ WeigherAppends (t (byteCollator colltab.Tertiary AltNonIgnorable))
  /\ Alternate (byteCollator colltab.Tertiary AltNonIgnorable) <> AltShifted
  /\ exists N, forall fuel, (N <= fuel)%nat ->
       exists A B c',
         colElems fuel (t (byteCollator colltab.Tertiary AltNonIgnorable)) de_luge = Ok A
         /\ colElems fuel (t (byteCollator colltab.Tertiary AltNonIgnorable)) deluge = Ok B
         /\ Compare fuel (byteCollator colltab.Tertiary AltNonIgnorable) de_luge deluge
            = Ok (compareWith (byteCollator colltab.Tertiary AltNonIgnorable)
                    A B de_luge deluge, c').
Proof.
  assert (Hwf : Collator_wf (byteCollator colltab.Tertiary AltNonIgnorable))
    by (split; reflexivity).
  assert (Ha : Alternate (byteCollator colltab.Tertiary AltNonIgnorable) <> AltShifted)
    by (cbn; discriminate).
  split; [exact Hwf|]. split; [exact byteWeigher_ok|].
  split; [exact byteWeigher_appends|]. split; [exact Ha|].
  exact (@Compare_decides_on_elements WElem WElem_ops
           (byteCollator colltab.Tertiary AltNonIgnorable) de_luge deluge
           Hwf byteWeigher_ok byteWeigher_appends Ha).
Defined.

Lemma Compare_transitive_witness :
  Collator_wf (byteCollator colltab.Tertiary AltNonIgnorable)
  /\ WeigherOK (t (byteCollator colltab.Tertiary AltNonIgnorable))
  /\ WeigherAppends (t (byteCollator colltab.Tertiary AltNonIgnorable))
  /\ result_map fst (Compare 10 (byteCollator colltab.Tertiary AltNonIgnorable)
                       [97] [97; 1]) = Ok (-1)
  /\ result_map fst (Compare 10 (byteCollator colltab.Tertiary AltNonIgnorable)
                       [97; 1] [98]) = Ok (-1)
  /\ forall r3 c3,
       Compare 10 (byteCollator colltab.Tertiary AltNonIgnorable) [97] [98] = Ok (r3, c3) ->
       r3 <= 0.
Proof.
  assert (Hwf : Collator_wf (byteCollator colltab.Tertiary AltNonIgnorable))
    by (split; reflexivity).
  assert (H1 : result_map fst (Compare 10 (byteCollator colltab.Tertiary AltNonIgnorable)
                                 [97] [97; 1]) = Ok (-1)) by (vm_compute; reflexivity).
  assert (H2 : result_map fst (Compare 10 (byteCollator colltab.Tertiary AltNonIgnorable)
                                 [97; 1] [98]) = Ok (-1)) by (vm_compute; reflexivity).
  split; [exact Hwf|]. split; [exact byteWeigher_ok|].
  split; [exact byteWeigher_appends|].
  split; [exact H1|]. split; [exact H2|].
  intros r3 c3 E3.
  destruct (Compare 10 (byteCollator colltab.Tertiary AltNonIgnorable) [97] [97; 1])
    as [[r1 c1]| |] eqn:E1; cbn [result_map fst] in H1; try discriminate H1.
  destruct (Compare 10 (byteCollator colltab.Tertiary AltNonIgnorable) [97; 1] [98])
    as [[r2 c2]| |] eqn:E2; cbn [result_map fst] in H2; try discriminate H2.
  injection H1 as ->. injection H2 as ->.
  exact (@Compare_transitive WElem WElem_ops 10%nat
           (byteCollator colltab.Tertiary AltNonIgnorable) c1 c2 c3
           [97] [97; 1] [98] (-1) (-1) r3
           Hwf byteWeigher_ok byteWeigher_appends E1 E2 E3
           ltac:(lia) ltac:(lia)).
Defined.

Lemma next_only_reorders_witness :
  WeigherOK byteWeigher /\ WeigherAppends byteWeigher
  /\ exists N, forall fuel, (N <= fuel)%nat ->
       exists A P,
         colElems fuel byteWeigher [97; 2; 1] = Ok A
         /\ plainElems fuel byteWeigher [97; 2; 1] = Ok P
         /\ Permutation A P.
Proof.
  split; [exact byteWeigher_ok|]. split; [exact byteWeigher_appends|].
  exact (@next_only_reorders WElem WElem_ops byteWeigher [97; 2; 1]
           byteWeigher_ok byteWeigher_appends).
Defined.

Lemma Key_orders_as_Compare_witness :
  Collator_wf (byteCollator colltab.Tertiary AltNonIgnorable)
  /\ WeigherOK (t (byteCollator colltab.Tertiary AltNonIgnorable))
  /\ WeigherAppends (t (byteCollator colltab.Tertiary AltNonIgnorable))
  /\ WeigherFits (t (byteCollator colltab.Tertiary AltNonIgnorable))
  /\ Alternate (byteCollator colltab.Tertiary AltNonIgnorable) = AltNonIgnorable
  /\ colltab.leb (Strength (byteCollator colltab.Tertiary AltNonIgnorable))
       colltab.Tertiary = true
  /\ exists N, forall fuel, (N <= fuel)%nat ->
       exists ka kb bufa' bufb' ca cb cc,
         Key fuel (byteCollator colltab.Tertiary AltNonIgnorable) (mkBuffer []) de_luge
         = Ok (ka, bufa', ca)
         /\ Key fuel (byteCollator colltab.Tertiary AltNonIgnorable) (mkBuffer []) deluge
            = Ok (kb, bufb', cb)
         /\ Compare fuel (byteCollator colltab.Tertiary AltNonIgnorable) de_luge deluge
            = Ok (bytes_Compare ka kb, cc).
Proof.
  assert (Hwf : Collator_wf (byteCollator colltab.Tertiary AltNonIgnorable))
    by (split; reflexivity).
  assert (Ha : Alternate (byteCollator colltab.Tertiary AltNonIgnorable)
               = AltNonIgnorable) by reflexivity.
  assert (Hs : colltab.leb (Strength (byteCollator colltab.Tertiary AltNonIgnorable))
                 colltab.Tertiary = true) by reflexivity.
  split; [exact Hwf|]. split; [exact byteWeigher_ok|].
  split; [exact byteWeigher_appends|]. split; [exact byteWeigher_fits|].
  split; [exact Ha|]. split; [exact Hs|].
  exact (@Key_orders_as_Compare WElem WElem_ops
           (byteCollator colltab.Tertiary AltNonIgnorable) de_luge deluge
           (mkBuffer []) (mkBuffer []) Hwf
           byteWeigher_ok byteWeigher_appends byteWeigher_fits Ha Hs).
Defined.

Lemma key_grows_with_strength_witness :
  Alternate (toyCollator colltab.Tertiary AltNonIgnorable)
  = Alternate (toyCollator colltab.Primary AltNonIgnorable)
  /\ Backwards (toyCollator colltab.Tertiary AltNonIgnorable)
     = Backwards (toyCollator colltab.Primary AltNonIgnorable)
  /\ CaseLevel (toyCollator colltab.Primary AltNonIgnorable) = false
  /\ CaseLevel (toyCollator colltab.Tertiary AltNonIgnorable) = false
  /\ colltab.leb (Strength (toyCollator colltab.Primary AltNonIgnorable))
       (Strength (toyCollator colltab.Tertiary AltNonIgnorable)) = true
  /\ exists rest,
       key (keyFromElems (toyCollator colltab.Tertiary AltNonIgnorable) (mkBuffer [])
              (toy_elems 97 ++ toy_elems 98))
       = key (keyFromElems (toyCollator colltab.Primary AltNonIgnorable) (mkBuffer [])
                (toy_elems 97 ++ toy_elems 98)) ++ rest.
Proof.
  assert (H1 : Alternate (toyCollator colltab.Tertiary AltNonIgnorable)
               = Alternate (toyCollator colltab.Primary AltNonIgnorable)) by reflexivity.
  assert (H2 : Backwards (toyCollator colltab.Tertiary AltNonIgnorable)
               = Backwards (toyCollator colltab.Primary AltNonIgnorable)) by reflexivity.
  assert (H3 : CaseLevel (toyCollator colltab.Primary AltNonIgnorable) = false)
    by reflexivity.
  assert (H4 : CaseLevel (toyCollator colltab.Tertiary AltNonIgnorable) = false)
    by reflexivity.
  assert (H5 : colltab.leb (Strength (toyCollator colltab.Primary AltNonIgnorable))
                 (Strength (toyCollator colltab.Tertiary AltNonIgnorable)) = true)
    by reflexivity.
  split; [exact H1|]. split; [exact H2|]. split; [exact H3|]. split; [exact H4|].
  split; [exact H5|].
  exact (@key_grows_with_strength WElem WElem_ops
           (toyCollator colltab.Primary AltNonIgnorable)
           (toyCollator colltab.Tertiary AltNonIgnorable) (mkBuffer [])
           (toy_elems 97 ++ toy_elems 98) H1 H2 H3 H4 H5).
Defined.
